(** * go-semver: parsing, rendering, precedence and sorting of semantic versions

    A shallow embedding of [semver.go].  Go strings are byte sequences and
    are modelled by [string] (a list of 8-bit characters); Go's [int] is the
    64-bit signed integer and is modelled by [Z], with the range check written
    out where the library performs one ([strconv.Atoi]).  A run-time panic
    (index out of range, [MustParse] on a malformed input) is the [None] of
    the option monad. *)

From Stdlib Require Import ZArith String Ascii List Lia Bool Permutation Sorted.
From stdpp Require Import base list.
Import ListNotations.
Local Open Scope string_scope.
Local Open Scope Z_scope.

(** ** Machine integers and bytes *)

(** The size of [int] on 64-bit platforms (the 17-digit major of the test
    suite needs it). *)
Definition intSize : Z := 64.
Definition maxInt : Z := 2 ^ (intSize - 1) - 1.
Definition minInt : Z := - 2 ^ (intSize - 1).

(** The numeric value of a byte, and Go's conversion [byte(x)], which keeps
    the low eight bits. *)
Definition byte_val (c : ascii) : Z := Z.of_N (N_of_ascii c).
Definition byte_of (x : Z) : ascii := ascii_of_N (Z.to_N (x mod 256)).

(** Slice indexing [l[i]] with Go's bounds check. *)
Definition index {A : Type} (l : list A) (i : Z) : option A :=
  if (0 <=? i) && (i <? Z.of_nat (length l)) then l !! Z.to_nat i else None.

(** ** package cmp *)

(** [cmp.Ordered]: the types with a built-in [<]. *)
Class Ordered (T : Type) := less : T -> T -> bool.
#[global] Instance Ordered_int : Ordered Z := Z.ltb.
#[global] Instance Ordered_string : Ordered string := String.ltb.

(** [cmp.Compare]: -1, 0 or +1. *)
Definition cmp_Compare {T : Type} `{Ordered T} (x y : T) : Z :=
  if less x y then -1 else if less y x then 1 else 0.

(** ** package unicode/utf8: what [range] over a string and
       [Builder.WriteRune] do *)

Definition RuneError : Z := 65533.
Definition MaxRune : Z := 1114111.
Definition surrogateMin : Z := 55296.
Definition surrogateMax : Z := 57343.
Definition maskx : Z := 63.
Definition mask2 : Z := 31.
Definition mask3 : Z := 15.
Definition mask4 : Z := 7.
Definition locb : Z := 128.
Definition hicb : Z := 191.

(** Per leading byte: the length of the sequence and the range accepted for
    the second byte; [None] for a byte that cannot start a sequence. *)
Definition first (s0 : Z) : option (Z * Z * Z) :=
  if (194 <=? s0) && (s0 <=? 223) then Some (2, locb, hicb)
  else if s0 =? 224 then Some (3, 160, hicb)
  else if (225 <=? s0) && (s0 <=? 236) then Some (3, locb, hicb)
  else if s0 =? 237 then Some (3, locb, 159)
  else if (238 <=? s0) && (s0 <=? 239) then Some (3, locb, hicb)
  else if s0 =? 240 then Some (4, 144, hicb)
  else if (241 <=? s0) && (s0 <=? 243) then Some (4, locb, hicb)
  else if s0 =? 244 then Some (4, locb, 143)
  else None.

(** The code point at the head of [s] and the number of bytes it takes; an
    invalid or truncated sequence yields [RuneError] and width 1. *)
Definition decodeRune (s : string) : Z * nat :=
  match s with
  | EmptyString => (RuneError, 0%nat)
  | String c0 t0 =>
    let s0 := byte_val c0 in
    if s0 <? 128 then (s0, 1%nat) else
    match first s0 with
    | None => (RuneError, 1%nat)
    | Some (sz, lo, hi) =>
      match t0 with
      | EmptyString => (RuneError, 1%nat)
      | String c1 t1 =>
        let s1 := byte_val c1 in
        if (s1 <? lo) || (hi <? s1) then (RuneError, 1%nat) else
        if sz <=? 2 then
          (Z.lor (Z.shiftl (Z.land s0 mask2) 6) (Z.land s1 maskx), 2%nat)
        else
        match t1 with
        | EmptyString => (RuneError, 1%nat)
        | String c2 t2 =>
          let s2 := byte_val c2 in
          if (s2 <? locb) || (hicb <? s2) then (RuneError, 1%nat) else
          if sz <=? 3 then
            (Z.lor (Z.lor (Z.shiftl (Z.land s0 mask3) 12)
                          (Z.shiftl (Z.land s1 maskx) 6))
                   (Z.land s2 maskx), 3%nat)
          else
          match t2 with
          | EmptyString => (RuneError, 1%nat)
          | String c3 _ =>
            let s3 := byte_val c3 in
            if (s3 <? locb) || (hicb <? s3) then (RuneError, 1%nat) else
            (Z.lor (Z.lor (Z.lor (Z.shiftl (Z.land s0 mask4) 18)
                                 (Z.shiftl (Z.land s1 maskx) 12))
                          (Z.shiftl (Z.land s2 maskx) 6))
                   (Z.land s3 maskx), 4%nat)
          end
        end
      end
    end
  end.

(** [for _, c := range s]: the sequence of code points the loop visits.
    [skip] counts the bytes of the current code point still to be passed. *)
Fixpoint runes_from (s : string) (skip : nat) : list Z :=
  match s with
  | EmptyString => []
  | String _ t =>
    match skip with
    | S k => runes_from t k
    | O => let '(r, size) := decodeRune s in r :: runes_from t (size - 1)%nat
    end
  end.

Definition runes (s : string) : list Z := runes_from s 0.

Definition encode3 (r : Z) : string :=
  String (byte_of (Z.lor 224 (Z.shiftr r 12)))
  (String (byte_of (Z.lor 128 (Z.land (Z.shiftr r 6) maskx)))
  (String (byte_of (Z.lor 128 (Z.land r maskx))) EmptyString)).

(** [utf8.AppendRune]: the bytes [WriteRune] appends. *)
Definition encodeRune (r : Z) : string :=
  if (0 <=? r) && (r <=? 127) then String (byte_of r) EmptyString
  else if (0 <=? r) && (r <=? 2047) then
    String (byte_of (Z.lor 192 (Z.shiftr r 6)))
    (String (byte_of (Z.lor 128 (Z.land r maskx))) EmptyString)
  else if (r <? 0) || (MaxRune <? r)
          || ((surrogateMin <=? r) && (r <=? surrogateMax)) then
    encode3 RuneError
  else if r <=? 65535 then encode3 r
  else
    String (byte_of (Z.lor 240 (Z.shiftr r 18)))
    (String (byte_of (Z.lor 128 (Z.land (Z.shiftr r 12) maskx)))
    (String (byte_of (Z.lor 128 (Z.land (Z.shiftr r 6) maskx)))
    (String (byte_of (Z.lor 128 (Z.land r maskx))) EmptyString))).

(** ** package strconv *)

(** The digit loop of [Atoi]: [n = n*10 + int(ch - '0')], a syntax error on
    any byte outside ['0'..'9']. *)
Fixpoint atoi_digits (s : string) (n : Z) : option Z :=
  match s with
  | EmptyString => Some n
  | String ch t =>
    let d := byte_val ch - 48 in
    if (0 <=? d) && (d <=? 9) then atoi_digits t (n * 10 + d) else None
  end.

(** [strconv.Atoi]: an optional sign, at least one digit, and a value that
    fits [int]; [None] stands for a non-nil error (syntax or range). *)
Definition Atoi (s : string) : option Z :=
  match s with
  | EmptyString => None
  | String c0 t =>
    let neg := (c0 =? "-")%char in
    let body := if neg || (c0 =? "+")%char then t else s in
    match body with
    | EmptyString => None
    | _ =>
      match atoi_digits body 0 with
      | None => None
      | Some n =>
        let v := if neg then - n else n in
        if (minInt <=? v) && (v <=? maxInt) then Some v else None
      end
    end
  end.

(** [strconv.NumError.Err]: the two errors of the parsing functions. *)
Inductive NumError : Type := ErrSyntax | ErrRange.

Definition maxUint64 : Z := 2 ^ 64 - 1.

(** The digit loop of [strconv.ParseUint] in base 10 on 64 bits, with the
    value it returns: a syntax error (and 0) at the first byte outside
    ['0'..'9'], a range error (and [maxUint64]) as soon as the value leaves
    [uint64], whichever comes first. *)
Fixpoint ParseUint_digits (s : string) (n : Z) : Z * option NumError :=
  match s with
  | EmptyString => (n, None)
  | String ch t =>
    let d := byte_val ch - 48 in
    if (0 <=? d) && (d <=? 9) then
      if maxUint64 / 10 + 1 <=? n then (maxUint64, Some ErrRange)
      else
        let n1 := n * 10 + d in
        if maxUint64 <? n1 then (maxUint64, Some ErrRange)
        else ParseUint_digits t n1
    else (0, Some ErrSyntax)
  end.

(** The [int] that [strconv.Atoi] returns, also when the error is not nil:
    0 with a syntax error, the nearest [int] with a range error (this is
    [ParseInt]; the fast path of [Atoi] for texts of fewer than 19 bytes
    returns 0 with its syntax errors and cannot leave the range). *)
Definition Atoi_value (s : string) : Z :=
  match s with
  | EmptyString => 0
  | String c0 t =>
    let neg := (c0 =? "-")%char in
    let body := if neg || (c0 =? "+")%char then t else s in
    match body with
    | EmptyString => 0
    | _ =>
      match ParseUint_digits body 0 with
      | (_, Some ErrSyntax) => 0
      | (un, _) =>
        if negb neg && (2 ^ (intSize - 1) <=? un) then maxInt
        else if neg && (2 ^ (intSize - 1) <? un) then minInt
        else if neg then - un else un
      end
    end
  end.

(** The digit loop of [strconv.FormatInt] in base 10, least significant
    digit first; [fuel] bounds the number of digits. *)
Fixpoint utoa (fuel : nat) (u : Z) (acc : string) : string :=
  match fuel with
  | O => acc
  | S f =>
    if u <? 10 then String (byte_of (48 + u)) acc
    else utoa f (u / 10) (String (byte_of (48 + u mod 10)) acc)
  end.

(** How [fmt.Sprint] prints an [int]. *)
Definition Itoa (n : Z) : string :=
  if n <? 0 then String "-" (utoa (S (Z.to_nat (Z.log2 (- n)))) (- n) EmptyString)
  else utoa (S (Z.to_nat (Z.log2 n))) n EmptyString.

(** ** package strings *)

(** [strings.Split(s, sep)] for a one-byte separator: every piece between
    separators, empty pieces included; [cur] is the piece being read. *)
Fixpoint split_from (sep : ascii) (s : string) (cur : string) : list string :=
  match s with
  | EmptyString => [cur]
  | String c t =>
    if (c =? sep)%char then cur :: split_from sep t EmptyString
    else split_from sep t (cur ++ String c EmptyString)
  end.

Definition strings_Split (s : string) (sep : ascii) : list string :=
  split_from sep s EmptyString.

(** ** The version type *)

Inductive error : Set := ErrInvalidSemVerSyntax.

Record SemVer : Set := mkSemVer {
  Major : Z;
  Minor : Z;
  Patch : Z;
  PreRelease : string;
  BuildMetadata : string
}.

(** The zero value of the struct ([var semver SemVer]). *)
Definition zeroSemVer : SemVer := mkSemVer 0 0 0 EmptyString EmptyString.

Definition len (s : string) : Z := Z.of_nat (String.length s).

Definition IsPreRelease (s : SemVer) : bool := negb (len (PreRelease s) =? 0).

(** [SemVer.String]. [fmt.Sprint] puts no space between operands when one
    of each adjacent pair is a string. *)
Definition SemVer_String (s : SemVer) : string :=
  let b := Itoa (Major s) ++ "." ++ Itoa (Minor s) ++ "." ++ Itoa (Patch s) in
  let b := if negb (len (PreRelease s) =? 0) then b ++ "-" ++ PreRelease s else b in
  let b := if negb (len (BuildMetadata s) =? 0) then b ++ "+" ++ BuildMetadata s else b in
  b.

(** ** Precedence *)

(** [mayParseDigit]: the value and [err == nil].  With an error the value
    is the one [strconv.Atoi] returns then (0, or the nearest [int] when the
    text is out of range). *)
Definition mayParseDigit (s : string) : Z * bool :=
  match Atoi s with
  | Some v => (v, true)
  | None => (Atoi_value s, false)
  end.

(** One iteration of the loop of [comparePreRelease] on the identifiers at
    one position: [None] is [continue], [Some r] is [return r]. *)
Definition comparePart (thisPart otherPart : string) : option Z :=
  let '(tDigit, tOk) := mayParseDigit thisPart in
  let '(oDigit, oOk) := mayParseDigit otherPart in
  if tOk || oOk then
    if tOk && oOk then
      if tDigit =? oDigit then None
      else Some (cmp_Compare tDigit oDigit)
    else if tOk then Some (-1) else Some 1
  else
    let cmpResult := cmp_Compare thisPart otherPart in
    if cmpResult =? 0 then None else Some cmpResult.

(** [for i := range min(len(this), len(other))]: [None] when the loop runs
    to its end. *)
Fixpoint comparePreRelease_loop (this other : list string) : option Z :=
  match this, other with
  | thisPart :: this', otherPart :: other' =>
    match comparePart thisPart otherPart with
    | Some r => Some r
    | None => comparePreRelease_loop this' other'
    end
  | _, _ => None
  end.

Definition comparePreRelease (s o : SemVer) : Z :=
  let thisLen := len (PreRelease s) in
  let otherLen := len (PreRelease o) in
  if (thisLen =? 0) || (otherLen =? 0) then
    if (thisLen =? 0) && (otherLen =? 0) then 0
    else if thisLen =? 0 then 1
    else -1
  else
    let thisPreReleaseSplit := strings_Split (PreRelease s) "." in
    let otherPreReleaseSplit := strings_Split (PreRelease o) "." in
    match comparePreRelease_loop thisPreReleaseSplit otherPreReleaseSplit with
    | Some r => r
    | None => cmp_Compare thisLen otherLen
    end.

Definition generateCompareToOtherResult (s o : SemVer) : list Z :=
  [ cmp_Compare (Major s) (Major o);
    cmp_Compare (Minor s) (Minor o);
    cmp_Compare (Patch s) (Patch o);
    comparePreRelease s o ].

(** [for _, result := range cmpResults { if result == 0 { continue };
    return f(result) }; return dflt], the loop shared by the five
    comparison methods. *)
Fixpoint firstNonZero {R : Type} (cmpResults : list Z) (f : Z -> R) (dflt : R) : R :=
  match cmpResults with
  | [] => dflt
  | result :: rest =>
    if result =? 0 then firstNonZero rest f dflt else f result
  end.

Definition IsGraterOrEquql (s o : SemVer) : bool :=
  firstNonZero (generateCompareToOtherResult s o) (fun result => result >? 0) true.

Definition IsGrater (s o : SemVer) : bool :=
  firstNonZero (generateCompareToOtherResult s o) (fun result => result >? 0) false.

Definition IsLess (s o : SemVer) : bool :=
  firstNonZero (generateCompareToOtherResult s o) (fun result => result <? 0) false.

Definition IsLessOrEquql (s o : SemVer) : bool :=
  firstNonZero (generateCompareToOtherResult s o) (fun result => result <? 0) true.

Definition IsEquql (s o : SemVer) : bool :=
  (Major s =? Major o) && (Minor s =? Minor o) && (Patch s =? Patch o)
  && (PreRelease s =? PreRelease o)%string.

(** The method [SemVer.Compare]. *)
Definition SemVer_Compare (s other : SemVer) : Z :=
  firstNonZero (generateCompareToOtherResult s other) (fun result => result) 0.

(** ** Parsing *)

(** The variables of the scanning loop of [Parse]. *)
Record scanState : Type := mkScan {
  parts : list string;
  partIndex : Z;
  didEnterPreReleasePart : bool;
  didEnterBuildMetadataPart : bool
}.

(** [parts := make([]strings.Builder, 5); partIndex := 0; ...] *)
Definition scanInit : scanState :=
  mkScan (replicate 5 EmptyString) 0 false false.

(** [parts[i].WriteRune(c)], a panic when [i] is out of range. *)
Definition WriteRune_at (ps : list string) (i : Z) (c : Z) : option (list string) :=
  b ← index ps i;
  Some (<[Z.to_nat i := b ++ encodeRune c]> ps).

(** The body of the scanning loop for one code point [c]. *)
Definition scanStep (st : scanState) (c : Z) : option scanState :=
  if (c =? 46) && (partIndex st <? 2) then
    Some (mkScan (parts st) (partIndex st + 1)
                 (didEnterPreReleasePart st) (didEnterBuildMetadataPart st))
  else if (c =? 45) && negb (didEnterPreReleasePart st)
                    && negb (didEnterBuildMetadataPart st) then
    Some (mkScan (parts st) 3 true (didEnterBuildMetadataPart st))
  else if (c =? 43) && negb (didEnterBuildMetadataPart st) then
    Some (mkScan (parts st) 4 (didEnterPreReleasePart st) true)
  else
    ps ← WriteRune_at (parts st) (partIndex st) c;
    Some (mkScan ps (partIndex st)
                 (didEnterPreReleasePart st) (didEnterBuildMetadataPart st)).

(** [for _, c := range semverStr { ... }] from state [st]. *)
Fixpoint scanLoop (cs : list Z) (st : scanState) : option scanState :=
  match cs with
  | [] => Some st
  | c :: cs' => st' ← scanStep st c; scanLoop cs' st'
  end.

Definition scan (semverStr : string) : option scanState :=
  scanLoop (runes semverStr) scanInit.

(** [Parse] returns the pair (version, error); on an error the version is
    the partly filled struct the code returns with it. *)
Definition Parse (semverStr : string) : option (SemVer * option error) :=
  st ← scan semverStr;
  p0 ← index (parts st) 0;
  p1 ← index (parts st) 1;
  p2 ← index (parts st) 2;
  p3 ← index (parts st) 3;
  p4 ← index (parts st) 4;
  let semver := zeroSemVer in
  match Atoi p0 with
  | None => Some (semver, Some ErrInvalidSemVerSyntax)
  | Some major =>
    let semver := mkSemVer major (Minor semver) (Patch semver)
                           (PreRelease semver) (BuildMetadata semver) in
    match Atoi p1 with
    | None => Some (semver, Some ErrInvalidSemVerSyntax)
    | Some minor =>
      let semver := mkSemVer (Major semver) minor (Patch semver)
                             (PreRelease semver) (BuildMetadata semver) in
      match Atoi p2 with
      | None => Some (semver, Some ErrInvalidSemVerSyntax)
      | Some patch =>
        let semver := mkSemVer (Major semver) (Minor semver) patch
                               (PreRelease semver) (BuildMetadata semver) in
        let semver := mkSemVer (Major semver) (Minor semver) (Patch semver)
                               p3 (BuildMetadata semver) in
        let semver := mkSemVer (Major semver) (Minor semver) (Patch semver)
                               (PreRelease semver) p4 in
        Some (semver, None)
      end
    end
  end.

Definition MustParse (semverStr : string) : option SemVer :=
  '(v, err) ← Parse semverStr;
  match err with
  | Some _ => None
  | None => Some v
  end.

Definition IsValid (v : string) : option bool :=
  '(_, err) ← Parse v;
  Some (match err with None => true | Some _ => false end).

(** The package-level [Compare] on two strings. *)
Definition Compare (v1 v2 : string) : option (Z * option error) :=
  '(parsedV1, err) ← Parse v1;
  match err with
  | Some e => Some (0, Some e)
  | None =>
    '(parsedV2, err) ← Parse v2;
    match err with
    | Some e => Some (0, Some e)
    | None => Some (SemVer_Compare parsedV1 parsedV2, None)
    end
  end.

(** ** Sorting *)

(** [sort.Interface]; [Less] and [Swap] panic on an index out of range. *)
Class sort_Interface (T : Type) := {
  Len : T -> Z;
  Less : T -> Z -> Z -> option bool;
  Swap : T -> Z -> Z -> option T
}.

Definition maxInsertion : Z := 12.

(** [bits.Len]: the number of bits needed to write [x]. *)
Definition bits_Len (x : Z) : Z := if x <=? 0 then 0 else Z.log2 x + 1.

Section Sort.
Context {T : Type} `{sort_Interface T}.

(** [for j := i; j > a && data.Less(j, j-1); j-- { data.Swap(j, j-1) }],
    by recursion on [k = j - a]. *)
Fixpoint insertionSort_inner (data : T) (a : Z) (k : nat) : option T :=
  match k with
  | O => Some data
  | S k' =>
    let j := a + Z.of_nat k in
    lt ← Less data j (j - 1);
    if lt : bool then
      data' ← Swap data j (j - 1);
      insertionSort_inner data' a k'
    else Some data
  end.

(** [for i := a + 1; i < b; i++ { ... }], by recursion on the number [n]
    of iterations left. *)
Fixpoint insertionSort_outer (data : T) (a i : Z) (n : nat) : option T :=
  match n with
  | O => Some data
  | S n' =>
    data' ← insertionSort_inner data a (Z.to_nat (i - a));
    insertionSort_outer data' a (i + 1) n'
  end.

Definition insertionSort (data : T) (a b : Z) : option T :=
  insertionSort_outer data a (a + 1) (Z.to_nat (b - (a + 1))).

(** What [pdqsort] does with a range of more than [maxInsertion]
    elements (pivot selection, partitioning, the heap sort fallback) is
    library code that this development leaves open. *)
Variable pdqsort_partition : T -> Z -> Z -> Z -> option T.

(** [pdqsort]: ranges of at most twelve elements go to [insertionSort]. *)
Definition pdqsort (data : T) (a b limit : Z) : option T :=
  let length := b - a in
  if length <=? maxInsertion then insertionSort data a b
  else pdqsort_partition data a b limit.

(** [sort.Sort]. *)
Definition sort_Sort (data : T) : option T :=
  let n := Len data in
  if n <=? 1 then Some data
  else
    let limit := bits_Len n in
    pdqsort data 0 n limit.
End Sort.

(** [semverSlice] and its three methods. *)
Definition semverSlice : Type := list SemVer.

Definition semverSlice_Len (sv : semverSlice) : Z := Z.of_nat (length sv).

Definition semverSlice_Swap (sv : semverSlice) (i j : Z) : option semverSlice :=
  vi ← index sv i;
  vj ← index sv j;
  Some (<[Z.to_nat j := vi]> (<[Z.to_nat i := vj]> sv)).

Definition semverSlice_Less (sv : semverSlice) (i j : Z) : option bool :=
  vi ← index sv i;
  vj ← index sv j;
  Some (IsLessOrEquql vi vj).

#[global] Instance semverSlice_Interface : sort_Interface semverSlice := {
  Len := semverSlice_Len;
  Less := semverSlice_Less;
  Swap := semverSlice_Swap
}.

Section SortEntry.
Variable pdqsort_partition : semverSlice -> Z -> Z -> Z -> option semverSlice.

(** [Sort]: the slice after the call. *)
Definition Sort (slice : list SemVer) : option (list SemVer) :=
  sort_Sort pdqsort_partition slice.

(** The first loop of [SortStr], [m[i] = v] for each element that parses:
    [inl err] on the first element that does not parse, [inr m]
    otherwise. *)
Fixpoint SortStr_parse (slice : list string) (m : semverSlice) (i : Z) (n : nat)
  : option (error + semverSlice) :=
  match n with
  | O => Some (inr m)
  | S n' =>
    s ← index slice i;
    '(v, err) ← Parse s;
    match err with
    | Some e => Some (inl e)
    | None =>
      _ ← index m i;
      SortStr_parse slice (<[Z.to_nat i := v]> m) (i + 1) n'
    end
  end.

(** The last loop of [SortStr]: [slice[i] = m[i].String()]. *)
Fixpoint SortStr_render (m : semverSlice) (slice : list string) (i : Z) (n : nat)
  : option (list string) :=
  match n with
  | O => Some slice
  | S n' =>
    v ← index m i;
    _ ← index slice i;
    SortStr_render m (<[Z.to_nat i := SemVer_String v]> slice) (i + 1) n'
  end.

(** [SortStr]: the slice after the call and the error returned. *)
Definition SortStr (slice : list string) : option (list string * option error) :=
  let m := replicate (length slice) zeroSemVer in
  r ← SortStr_parse slice m 0 (length slice);
  match r with
  | inl e => Some (slice, Some e)
  | inr m =>
    m' ← sort_Sort pdqsort_partition m;
    slice' ← SortStr_render m' slice 0 (length slice);
    Some (slice', None)
  end.
End SortEntry.

(** ** Vocabulary of the statements *)

Fixpoint string_forall (P : ascii -> bool) (s : string) : bool :=
  match s with
  | EmptyString => true
  | String c t => P c && string_forall P t
  end.

Definition is_digit (c : ascii) : bool :=
  (48 <=? byte_val c) && (byte_val c <=? 57).

Definition is_sign (c : ascii) : bool := (c =? "-")%char || (c =? "+")%char.

(** A text made of decimal digits only (the empty text included). *)
Definition all_digits (s : string) : bool := string_forall is_digit s.

(** The number a text of decimal digits denotes, most significant digit
    first. *)
Fixpoint decimal_value (s : string) : Z :=
  match s with
  | EmptyString => 0
  | String c t => (byte_val c - 48) * 10 ^ len t + decimal_value t
  end.

(** A numeric field text that [Parse] accepts: not empty, digits only, and
    a value within [int]. *)
Definition fitsInt (s : string) : bool :=
  negb (s =? EmptyString)%string && all_digits s && (decimal_value s <=? maxInt).

(** The five accumulated field texts at the end of the scan of [s]. *)
Definition scannedParts (s : string) : list string :=
  match scan s with
  | Some st => parts st
  | None => []
  end.

(** The identifiers of a list joined by dots. *)
Fixpoint join_dots (l : list string) : string :=
  match l with
  | [] => EmptyString
  | [x] => x
  | x :: rest => x ++ "." ++ join_dots rest
  end.

(** A version with its build metadata replaced. *)
Definition withBuildMetadata (v : SemVer) (m : string) : SemVer :=
  mkSemVer (Major v) (Minor v) (Patch v) (PreRelease v) m.

(** The example chain of the precedence rules, in ascending order. *)
Definition precedenceChain : list string :=
  [ "1.0.0-alpha"; "1.0.0-alpha.1"; "1.0.0-alpha.beta"; "1.0.0-beta";
    "1.0.0-beta.2"; "1.0.0-beta.11"; "1.0.0-rc.1"; "1.0.0" ].

(** The list of the sorting scenario, in ascending order. *)
Definition sortScenario : list string :=
  [ "1.0.0-alpha"; "1.0.0-alpha.1"; "1.0.0-beta"; "1.0.0-beta.11";
    "1.0.0"; "2.0.0" ].

(** [MustParse] on every element of a list. *)
Definition parseVersions (l : list string) : option (list SemVer) :=
  mapM MustParse l.

(** The versions of [sortScenario], in the same order. *)
Definition sortScenarioVersions : list SemVer :=
  [ mkSemVer 1 0 0 "alpha" ""; mkSemVer 1 0 0 "alpha.1" "";
    mkSemVer 1 0 0 "beta" ""; mkSemVer 1 0 0 "beta.11" "";
    mkSemVer 1 0 0 "" ""; mkSemVer 2 0 0 "" "" ].

(** A Unicode scalar value: a code point that is not a surrogate. *)
Definition valid_rune (r : Z) : bool :=
  ((0 <=? r) && (r <? surrogateMin)) || ((surrogateMax <? r) && (r <=? MaxRune)).

(** The UTF-8 encoding of a sequence of code points. *)
Fixpoint utf8 (rs : list Z) : string :=
  match rs with
  | [] => EmptyString
  | r :: rs' => encodeRune r ++ utf8 rs'
  end.

(** The bytes of a text, as code points (for an ASCII text they are its
    code points). *)
Definition chars (x : string) : list Z := map byte_val (list_ascii_of_string x).

Definition nonzero_head (s : string) : bool :=
  match s with
  | EmptyString => false
  | String c _ => negb (c =? "0")%char
  end.

(** A text of at least two characters that starts with ['0']. *)
Definition leading_zero (s : string) : bool :=
  match s with
  | String c (String _ _) => (c =? "0")%char
  | _ => false
  end.

(** The decimal numeral [Itoa] prints: accepted by [Parse] and without a
    superfluous leading zero. *)
Definition canonical_numeral (s : string) : bool :=
  fitsInt s && negb (leading_zero s).

(** A code point that the scanning loop, in a state with cursor [i] and
    flags [pre] and [build], appends to the current field. *)
Definition literal (i : Z) (pre build : bool) (c : Z) : bool :=
  negb ((c =? 46) && (i <? 2))
  && negb ((c =? 45) && negb pre && negb build)
  && negb ((c =? 43) && negb build).

(** [MAJOR.MINOR.PATCH[-PRERELEASE][+BUILD]] from its components. *)
Definition assemble (M m p : string) (pre build : option string) : string :=
  M ++ "." ++ m ++ "." ++ p
  ++ match pre with Some x => "-" ++ x | None => EmptyString end
  ++ match build with Some x => "+" ++ x | None => EmptyString end.

(** A non-empty sequence of Unicode scalar values. *)
Definition plain_text (rs : list Z) : bool :=
  match rs with
  | [] => false
  | _ => forallb valid_rune rs
  end.

Definition plus_free (rs : list Z) : bool :=
  forallb (fun c => negb (c =? 43)) rs.

(** The pre-release part of a well-formed input, when there is one: not
    empty, valid UTF-8 and without ['+']. *)
Definition prerelease_ok (pre : option (list Z)) : bool :=
  match pre with
  | None => true
  | Some rs => plain_text rs && plus_free rs
  end.

(** The build part of a well-formed input, when there is one: not empty and
    valid UTF-8. *)
Definition build_ok (build : option (list Z)) : bool :=
  match build with
  | None => true
  | Some rs => plain_text rs
  end.

#[local] Instance string_eq_dec : EqDecision string := String.string_dec.
#[local] Instance error_eq_dec : EqDecision error.
Proof. solve_decision. Defined.
#[local] Instance SemVer_eq_dec : EqDecision SemVer.
Proof. solve_decision. Defined.

(** The three results of a comparison. *)
Definition three_valued (r : Z) : Prop := r = -1 \/ r = 0 \/ r = 1.

(** Two versions with the same major, minor and patch numbers. *)
Definition same_numbers (a b : SemVer) : Prop :=
  Major a = Major b /\ Minor a = Minor b /\ Patch a = Patch b.

(** The lexicographic order on the major, minor and patch numbers. *)
Definition numbers_lt (a b : SemVer) : Prop :=
  Major a < Major b \/
  (Major a = Major b /\
   (Minor a < Minor b \/ (Minor a = Minor b /\ Patch a < Patch b))).

(** [comparePreRelease] is transitive on three given versions. *)
Definition prerelease_transitive (a b c : SemVer) : Prop :=
  comparePreRelease a b <= 0 -> comparePreRelease b c <= 0 ->
  comparePreRelease a c <= 0 /\
  (comparePreRelease a c = 0 ->
   comparePreRelease a b = 0 /\ comparePreRelease b c = 0).

(** Two identifiers that the loop of [comparePreRelease] passes over: two
    numeric ones with the same value, or two non-numeric ones with the same
    text. *)
Definition ident_eqb (x y : string) : bool :=
  match Atoi x, Atoi y with
  | Some n, Some k => n =? k
  | None, None => (x =? y)%string
  | _, _ => false
  end.

(** The order of two identifiers: by value when both are numeric, a numeric
    one below a non-numeric one, by the bytes of the texts otherwise. *)
Definition ident_compare (x y : string) : Z :=
  match Atoi x, Atoi y with
  | Some n, Some k => cmp_Compare n k
  | Some _, None => -1
  | None, Some _ => 1
  | None, None => cmp_Compare x y
  end.

(** An identifier that, when [strconv.Atoi] accepts it, is written the way
    [Itoa] prints its value: no sign [+], no leading zeros, no ["-0"]. *)
Definition ident_canonical (x : string) : bool :=
  match Atoi x with
  | Some v => (Itoa v =? x)%string
  | None => true
  end.

Definition prerelease_canonical (v : SemVer) : bool :=
  forallb ident_canonical (strings_Split (PreRelease v) ".").

(** The comparison of two identifier lists with the tie broken by the
    numbers of identifiers. *)
Definition compare_idents (l1 l2 : list string) : Z :=
  match comparePreRelease_loop l1 l2 with
  | Some r => r
  | None => cmp_Compare (Z.of_nat (length l1)) (Z.of_nat (length l2))
  end.

(** What the scan keeps true of the pre-release and build texts: both are
    encodings of Unicode scalar values, and no ['+'] enters the pre-release
    text. *)
Definition textInv (st : scanState) : Prop :=
  exists r3 r4 : list Z,
    parts st !! 3%nat = Some (utf8 r3) /\ parts st !! 4%nat = Some (utf8 r4) /\
    forallb valid_rune r3 = true /\ forallb valid_rune r4 = true /\
    plus_free r3 = true /\
    (partIndex st = 3 -> didEnterBuildMetadataPart st = false).

(** The order [Sort] sorts by. *)
Definition leq (a b : SemVer) : Prop := IsLessOrEquql a b = true.

(** * Properties *)

(** ** Bytes and strings *)

Lemma byte_val_range (c : ascii) : 0 <= byte_val c < 256.
Proof.
  unfold byte_val. pose proof (N_ascii_bounded c). lia.
Qed.

Lemma byte_val_of (x : Z) : byte_val (byte_of x) = x mod 256.
Proof.
  unfold byte_val, byte_of.
  assert (Hr : 0 <= x mod 256 < 256) by (apply Z.mod_pos_bound; lia).
  rewrite N_ascii_embedding by lia. lia.
Qed.

Lemma byte_of_val (c : ascii) : byte_of (byte_val c) = c.
Proof.
  unfold byte_of. pose proof (byte_val_range c) as Hr.
  rewrite Z.mod_small by lia. unfold byte_val.
  rewrite N2Z.id. apply ascii_N_embedding.
Qed.

Lemma byte_val_inj (c d : ascii) : byte_val c = byte_val d -> c = d.
Proof.
  intros Heq. rewrite <- (byte_of_val c), <- (byte_of_val d). now rewrite Heq.
Qed.

Lemma ascii_eqb_byte_val (c d : ascii) : (c =? d)%char = (byte_val c =? byte_val d).
Proof.
  destruct (Ascii.eqb_spec c d) as [->|Hne].
  - now rewrite Z.eqb_refl.
  - symmetry. apply Z.eqb_neq. intros Heq. apply Hne. now apply byte_val_inj.
Qed.

Lemma append_nil_r (s : string) : s ++ EmptyString = s.
Proof. induction s as [|c s IH]; simpl; [reflexivity | now rewrite IH]. Qed.

Lemma append_assoc (s t u : string) : (s ++ t) ++ u = s ++ (t ++ u).
Proof. induction s as [|c s IH]; simpl; [reflexivity | now rewrite IH]. Qed.

Lemma len_append (s t : string) : len (s ++ t) = len s + len t.
Proof.
  unfold len. induction s as [|c s IH]; simpl String.length; [lia | lia].
Qed.

Lemma len_nonneg (s : string) : 0 <= len s.
Proof. unfold len. lia. Qed.

Lemma string_forall_append (P : ascii -> bool) (s t : string) :
  string_forall P (s ++ t) = string_forall P s && string_forall P t.
Proof.
  induction s as [|c s IH]; simpl; [reflexivity |].
  rewrite IH. now rewrite andb_assoc.
Qed.

(** A byte with bit 7 set is at least 128, whatever is or-ed into it. *)
Lemma byte_of_lor_high (k x : Z) :
  Z.testbit k 7 = true -> 128 <= byte_val (byte_of (Z.lor k x)).
Proof.
  intros Hk. rewrite byte_val_of.
  assert (Hb : Z.testbit (Z.lor k x mod 256) 7 = true).
  { change 256 with (2 ^ 8). rewrite Z.mod_pow2_bits_low by lia.
    rewrite Z.lor_spec, Hk. reflexivity. }
  assert (Hr : 0 <= Z.lor k x mod 256 < 256) by (apply Z.mod_pos_bound; lia).
  destruct (Z_lt_le_dec (Z.lor k x mod 256) 128) as [Hlt|Hge]; [|exact Hge].
  apply Z.testbit_true in Hb; [|lia].
  change (2 ^ 7) with 128 in Hb. rewrite Z.div_small in Hb by lia.
  discriminate Hb.
Qed.

(** The bytes [WriteRune] appends are the code point itself when it is
    ASCII, and bytes above 127 otherwise. *)
Lemma encodeRune_bytes (c : Z) (P : ascii -> bool) :
  (forall b, 128 <= byte_val b -> P b = true) ->
  (0 <= c <= 127 -> P (byte_of c) = true) ->
  string_forall P (encodeRune c) = true.
Proof.
  intros Hhigh Hlow. unfold encodeRune, encode3.
  repeat match goal with
  | |- context [if ?b then _ else _] => destruct b eqn:?
  end; simpl;
  rewrite ?Hhigh by (apply byte_of_lor_high; reflexivity);
  try reflexivity.
  rewrite Hlow by lia. reflexivity.
Qed.

Lemma is_sign_byte_val (b : ascii) :
  is_sign b = (byte_val b =? 45) || (byte_val b =? 43).
Proof. unfold is_sign. now rewrite !ascii_eqb_byte_val. Qed.

Lemma encodeRune_no_sign (c : Z) :
  c <> 45 -> c <> 43 ->
  string_forall (fun b => negb (is_sign b)) (encodeRune c) = true.
Proof.
  intros H45 H43. apply encodeRune_bytes.
  - intros b Hb. rewrite is_sign_byte_val.
    destruct (Z.eqb_spec (byte_val b) 45); [lia|].
    destruct (Z.eqb_spec (byte_val b) 43); [lia|]. reflexivity.
  - intros Hc. rewrite is_sign_byte_val, byte_val_of, Z.mod_small by lia.
    destruct (Z.eqb_spec c 45); [lia|].
    destruct (Z.eqb_spec c 43); [lia|]. reflexivity.
Qed.

(** ** UTF-8: decoding what was encoded *)

Lemma land_shifted_low (x y n : Z) :
  0 <= n -> 0 <= y < 2 ^ n -> Z.land (x * 2 ^ n) y = 0.
Proof.
  intros Hn Hy.
  rewrite <- (Z.mod_small y (2 ^ n)) by lia.
  rewrite <- (Z.land_ones y n) by lia.
  rewrite (Z.land_comm y), Z.land_assoc, (Z.land_ones (x * 2 ^ n)) by lia.
  rewrite Z.mod_mul by lia. reflexivity.
Qed.

Lemma lor_shifted_low (x y n : Z) :
  0 <= n -> 0 <= y < 2 ^ n -> Z.lor (x * 2 ^ n) y = x * 2 ^ n + y.
Proof.
  intros Hn Hy. pose proof (land_shifted_low x y n Hn Hy) as Hd.
  rewrite <- (Z.lxor_lor _ _ Hd). symmetry. now apply Z.add_nocarry_lxor.
Qed.

Lemma lor_128 (y : Z) : 0 <= y < 64 -> Z.lor 128 y = 128 + y.
Proof. intros Hy. apply (lor_shifted_low 2 y 6); lia. Qed.

Lemma lor_192 (y : Z) : 0 <= y < 64 -> Z.lor 192 y = 192 + y.
Proof. intros Hy. apply (lor_shifted_low 3 y 6); lia. Qed.

Lemma lor_224 (y : Z) : 0 <= y < 32 -> Z.lor 224 y = 224 + y.
Proof. intros Hy. apply (lor_shifted_low 7 y 5); lia. Qed.

Lemma lor_240 (y : Z) : 0 <= y < 16 -> Z.lor 240 y = 240 + y.
Proof. intros Hy. apply (lor_shifted_low 15 y 4); lia. Qed.

Lemma land_63 (x : Z) : Z.land x 63 = x mod 64.
Proof. apply (Z.land_ones x 6). lia. Qed.

Lemma land_31 (x : Z) : Z.land x 31 = x mod 32.
Proof. apply (Z.land_ones x 5). lia. Qed.

Lemma land_15 (x : Z) : Z.land x 15 = x mod 16.
Proof. apply (Z.land_ones x 4). lia. Qed.

Lemma land_7 (x : Z) : Z.land x 7 = x mod 8.
Proof. apply (Z.land_ones x 3). lia. Qed.

Lemma shiftr_6 (x : Z) : Z.shiftr x 6 = x / 64.
Proof. apply (Z.shiftr_div_pow2 x 6). lia. Qed.

Lemma shiftr_12 (x : Z) : Z.shiftr x 12 = x / 4096.
Proof. apply (Z.shiftr_div_pow2 x 12). lia. Qed.

Lemma shiftr_18 (x : Z) : Z.shiftr x 18 = x / 262144.
Proof. apply (Z.shiftr_div_pow2 x 18). lia. Qed.

Lemma shiftl_6 (x : Z) : Z.shiftl x 6 = x * 2 ^ 6.
Proof. apply Z.shiftl_mul_pow2. lia. Qed.

Lemma shiftl_12 (x : Z) : Z.shiftl x 12 = x * 2 ^ 12.
Proof. apply Z.shiftl_mul_pow2. lia. Qed.

Lemma shiftl_18 (x : Z) : Z.shiftl x 18 = x * 2 ^ 18.
Proof. apply Z.shiftl_mul_pow2. lia. Qed.

(** decoding two bytes *)
Lemma decodeRune_2 (a b : Z) (t : string) :
  2 <= a <= 31 -> 0 <= b < 64 ->
  decodeRune (String (byte_of (192 + a)) (String (byte_of (128 + b)) t))
  = (64 * a + b, 2%nat).
Proof.
  intros Ha Hb. unfold decodeRune.
  rewrite !byte_val_of, !Z.mod_small by lia.
  replace (192 + a <? 128) with false by (symmetry; apply Z.ltb_ge; lia).
  unfold first.
  replace ((194 <=? 192 + a) && (192 + a <=? 223)) with true
    by (symmetry; apply andb_true_iff; split; apply Z.leb_le; lia).
  unfold locb, hicb.
  replace ((128 + b <? 128) || (191 <? 128 + b)) with false
    by (symmetry; apply orb_false_iff; split; apply Z.ltb_ge; lia).
  cbn [Z.leb Z.compare Pos.compare Pos.compare_cont].
  unfold mask2, maskx. rewrite land_31, land_63, shiftl_6.
  replace ((192 + a) mod 32) with a by (Z.div_mod_to_equations; lia).
  replace ((128 + b) mod 64) with b by (Z.div_mod_to_equations; lia).
  rewrite lor_shifted_low by lia. f_equal. lia.
Qed.

Ltac split_tests :=
  repeat match goal with
  | |- context [Z.leb ?x ?y] => destruct (Z.leb_spec x y); try lia
  | |- context [Z.ltb ?x ?y] => destruct (Z.ltb_spec x y); try lia
  | |- context [Z.eqb ?x ?y] => destruct (Z.eqb_spec x y); try lia
  end.

Lemma first_2 (a : Z) : 2 <= a <= 31 -> first (192 + a) = Some (2, 128, 191).
Proof. intros Ha. unfold first. split_tests. reflexivity. Qed.

Lemma first_3 (a : Z) :
  0 <= a <= 15 ->
  first (224 + a)
  = Some (3, if a =? 0 then 160 else 128, if a =? 13 then 159 else 191).
Proof. intros Ha. unfold first. split_tests; reflexivity. Qed.

Lemma first_4 (a : Z) :
  0 <= a <= 4 ->
  first (240 + a)
  = Some (4, if a =? 0 then 144 else 128, if a =? 4 then 143 else 191).
Proof. intros Ha. unfold first. split_tests; reflexivity. Qed.

Lemma decodeRune_3 (a b c : Z) (t : string) :
  0 <= a <= 15 -> 0 <= b < 64 -> 0 <= c < 64 ->
  (a = 0 -> 32 <= b) -> (a = 13 -> b < 32) ->
  decodeRune (String (byte_of (224 + a)) (String (byte_of (128 + b))
             (String (byte_of (128 + c)) t)))
  = (4096 * a + 64 * b + c, 3%nat).
Proof.
  intros Ha Hb Hc Hlo Hhi. unfold decodeRune.
  rewrite !byte_val_of, !Z.mod_small by lia.
  replace (224 + a <? 128) with false by (symmetry; apply Z.ltb_ge; lia).
  rewrite first_3 by lia.
  replace ((128 + b <? (if a =? 0 then 160 else 128))
           || ((if a =? 13 then 159 else 191) <? 128 + b)) with false
    by (symmetry; apply orb_false_iff; split; apply Z.ltb_ge;
        split_tests; lia).
  unfold locb, hicb.
  replace ((128 + c <? 128) || (191 <? 128 + c)) with false
    by (symmetry; apply orb_false_iff; split; apply Z.ltb_ge; lia).
  cbn [Z.leb Z.compare Pos.compare Pos.compare_cont].
  unfold mask3, maskx. rewrite land_15, !land_63, shiftl_6, shiftl_12.
  replace ((224 + a) mod 16) with a by (Z.div_mod_to_equations; lia).
  replace ((128 + b) mod 64) with b by (Z.div_mod_to_equations; lia).
  replace ((128 + c) mod 64) with c by (Z.div_mod_to_equations; lia).
  rewrite (lor_shifted_low a) by lia.
  replace (a * 2 ^ 12 + b * 2 ^ 6) with ((a * 64 + b) * 2 ^ 6) by lia.
  rewrite lor_shifted_low by lia. f_equal. lia.
Qed.

Lemma decodeRune_4 (a b c d : Z) (t : string) :
  0 <= a <= 4 -> 0 <= b < 64 -> 0 <= c < 64 -> 0 <= d < 64 ->
  (a = 0 -> 16 <= b) -> (a = 4 -> b < 16) ->
  decodeRune (String (byte_of (240 + a)) (String (byte_of (128 + b))
             (String (byte_of (128 + c)) (String (byte_of (128 + d)) t))))
  = (262144 * a + 4096 * b + 64 * c + d, 4%nat).
Proof.
  intros Ha Hb Hc Hd Hlo Hhi. unfold decodeRune.
  rewrite !byte_val_of, !Z.mod_small by lia.
  replace (240 + a <? 128) with false by (symmetry; apply Z.ltb_ge; lia).
  rewrite first_4 by lia.
  replace ((128 + b <? (if a =? 0 then 144 else 128))
           || ((if a =? 4 then 143 else 191) <? 128 + b)) with false
    by (symmetry; apply orb_false_iff; split; apply Z.ltb_ge;
        split_tests; lia).
  unfold locb, hicb.
  replace ((128 + c <? 128) || (191 <? 128 + c)) with false
    by (symmetry; apply orb_false_iff; split; apply Z.ltb_ge; lia).
  replace ((128 + d <? 128) || (191 <? 128 + d)) with false
    by (symmetry; apply orb_false_iff; split; apply Z.ltb_ge; lia).
  cbn [Z.leb Z.compare Pos.compare Pos.compare_cont].
  unfold mask4, maskx. rewrite land_7, !land_63, shiftl_6, shiftl_12, shiftl_18.
  replace ((240 + a) mod 8) with a by (Z.div_mod_to_equations; lia).
  replace ((128 + b) mod 64) with b by (Z.div_mod_to_equations; lia).
  replace ((128 + c) mod 64) with c by (Z.div_mod_to_equations; lia).
  replace ((128 + d) mod 64) with d by (Z.div_mod_to_equations; lia).
  rewrite (lor_shifted_low a) by lia.
  replace (a * 2 ^ 18 + b * 2 ^ 12) with ((a * 64 + b) * 2 ^ 12) by lia.
  rewrite (lor_shifted_low (a * 64 + b)) by lia.
  replace ((a * 64 + b) * 2 ^ 12 + c * 2 ^ 6)
    with (((a * 64 + b) * 64 + c) * 2 ^ 6) by lia.
  rewrite lor_shifted_low by lia. f_equal. lia.
Qed.

Lemma valid_rune_range (r : Z) :
  valid_rune r = true -> 0 <= r < 55296 \/ 57343 < r <= 1114111.
Proof.
  unfold valid_rune, surrogateMin, surrogateMax, MaxRune.
  split_tests; simpl; intros; try discriminate; lia.
Qed.

Lemma decodeRune_1 (r : Z) (t : string) :
  0 <= r <= 127 -> decodeRune (String (byte_of r) t) = (r, 1%nat).
Proof.
  intros Hr. unfold decodeRune. rewrite byte_val_of, Z.mod_small by lia.
  replace (r <? 128) with true by (symmetry; apply Z.ltb_lt; lia). reflexivity.
Qed.

(** Decoding what [encodeRune] wrote gives the code point back, and the
    loop then moves past exactly the bytes written. *)
Lemma runes_from_encodeRune (r : Z) (t : string) :
  valid_rune r = true ->
  runes_from (encodeRune r ++ t) 0 = r :: runes_from t 0.
Proof.
  intros Hv. apply valid_rune_range in Hv.
  unfold encodeRune, encode3, surrogateMin, surrogateMax, MaxRune, maskx.
  rewrite ?shiftr_6, ?shiftr_12, ?shiftr_18, ?land_63.
  destruct (Z_le_gt_dec r 127) as [H1|H1].
  { replace ((0 <=? r) && (r <=? 127)) with true
      by (symmetry; apply andb_true_iff; split; apply Z.leb_le; lia).
    cbn [String.append runes_from]. rewrite decodeRune_1 by lia. reflexivity. }
  replace ((0 <=? r) && (r <=? 127)) with false
    by (symmetry; apply andb_false_iff; right; apply Z.leb_gt; lia).
  destruct (Z_le_gt_dec r 2047) as [H2|H2].
  { replace ((0 <=? r) && (r <=? 2047)) with true
      by (symmetry; apply andb_true_iff; split; apply Z.leb_le; lia).
    rewrite lor_192, lor_128 by (Z.div_mod_to_equations; lia).
    cbn [String.append runes_from].
    rewrite decodeRune_2 by (Z.div_mod_to_equations; lia).
    cbn [Nat.sub runes_from]. f_equal. Z.div_mod_to_equations; lia. }
  replace ((0 <=? r) && (r <=? 2047)) with false
    by (symmetry; apply andb_false_iff; right; apply Z.leb_gt; lia).
  replace ((r <? 0) || (1114111 <? r) || ((55296 <=? r) && (r <=? 57343)))
    with false by (symmetry; split_tests; reflexivity).
  destruct (Z_le_gt_dec r 65535) as [H3|H3].
  { replace (r <=? 65535) with true by (symmetry; apply Z.leb_le; lia).
    rewrite lor_224, !lor_128 by (Z.div_mod_to_equations; lia).
    cbn [String.append runes_from].
    rewrite decodeRune_3 by (Z.div_mod_to_equations; lia).
    cbn [Nat.sub runes_from]. f_equal. Z.div_mod_to_equations; lia. }
  replace (r <=? 65535) with false by (symmetry; apply Z.leb_gt; lia).
  rewrite lor_240, !lor_128 by (Z.div_mod_to_equations; lia).
  cbn [String.append runes_from].
  rewrite decodeRune_4 by (Z.div_mod_to_equations; lia).
  cbn [Nat.sub runes_from]. f_equal. Z.div_mod_to_equations; lia.
Qed.

Lemma runes_utf8 (rs : list Z) :
  forallb valid_rune rs = true -> runes (utf8 rs) = rs.
Proof.
  unfold runes. induction rs as [|r rs IH]; [reflexivity|].
  simpl. intros [Hr Hrs]%andb_prop.
  rewrite runes_from_encodeRune by exact Hr. f_equal. now apply IH.
Qed.

(** ** [strconv.Atoi] on a text without sign *)

Lemma maxInt_val : maxInt = 9223372036854775807.
Proof. reflexivity. Qed.

Lemma minInt_val : minInt = -9223372036854775808.
Proof. reflexivity. Qed.

Lemma len_cons (c : ascii) (s : string) : len (String c s) = 1 + len s.
Proof. unfold len. simpl String.length. lia. Qed.

Lemma is_digit_spec (c : ascii) :
  is_digit c = (0 <=? byte_val c - 48) && (byte_val c - 48 <=? 9).
Proof.
  unfold is_digit.
  destruct (Z.leb_spec 48 (byte_val c)), (Z.leb_spec 0 (byte_val c - 48)),
    (Z.leb_spec (byte_val c) 57), (Z.leb_spec (byte_val c - 48) 9);
    simpl; try reflexivity; lia.
Qed.

Lemma atoi_digits_spec (s : string) (n : Z) :
  atoi_digits s n =
  if all_digits s then Some (n * 10 ^ len s + decimal_value s) else None.
Proof.
  revert n. induction s as [|c s IH]; intros n.
  - simpl. f_equal. change (len EmptyString) with 0. lia.
  - cbn [atoi_digits all_digits string_forall decimal_value].
    rewrite <- is_digit_spec. destruct (is_digit c); simpl; [|reflexivity].
    rewrite IH. fold (all_digits s). destruct (all_digits s); [|reflexivity].
    f_equal. rewrite len_cons, Z.pow_add_r by (pose proof (len_nonneg s); lia).
    change (10 ^ 1) with 10. ring.
Qed.

Lemma decimal_value_nonneg (s : string) :
  all_digits s = true -> 0 <= decimal_value s.
Proof.
  induction s as [|c s IH]; simpl; [lia|].
  unfold all_digits. simpl. intros [Hc Hs]%andb_prop.
  specialize (IH Hs). unfold is_digit in Hc.
  assert (0 <= 10 ^ len s) by (apply Z.pow_nonneg; lia).
  apply andb_prop in Hc as [?%Z.leb_le ?%Z.leb_le]. nia.
Qed.

Lemma Atoi_unsigned (s : string) :
  string_forall (fun b => negb (is_sign b)) s = true ->
  Atoi s = if fitsInt s then Some (decimal_value s) else None.
Proof.
  destruct s as [|c0 t]; [reflexivity|].
  intros Hns. pose proof Hns as Hns'. simpl in Hns'.
  apply andb_prop in Hns' as [Hc0 _].
  apply negb_true_iff in Hc0. unfold is_sign in Hc0.
  apply orb_false_elim in Hc0 as [Hm Hp].
  unfold Atoi. rewrite Hm, Hp. cbn [orb].
  rewrite atoi_digits_spec. unfold fitsInt. cbn [String.eqb negb andb].
  destruct (all_digits (String c0 t)) eqn:Hd; [|reflexivity].
  pose proof (decimal_value_nonneg _ Hd) as Hnn.
  rewrite Z.mul_0_l, Z.add_0_l.
  replace (minInt <=? decimal_value (String c0 t)) with true
    by (symmetry; apply Z.leb_le; rewrite minInt_val; lia).
  reflexivity.
Qed.

Lemma atoi_digits_mono (s : string) :
  forall n m, 0 <= n -> atoi_digits s n = Some m -> n <= m.
Proof.
  induction s as [|ch t IH]; cbn [atoi_digits]; intros n m Hn H.
  - injection H as <-. lia.
  - destruct ((0 <=? byte_val ch - 48) && (byte_val ch - 48 <=? 9)) eqn:Hd;
      [|discriminate].
    apply andb_prop in Hd as [H0%Z.leb_le H9%Z.leb_le].
    apply IH in H; lia.
Qed.

Lemma ParseUint_digits_ok (s : string) :
  forall n m,
    0 <= n -> atoi_digits s n = Some m -> m <= maxUint64 ->
    ParseUint_digits s n = (m, None).
Proof.
  induction s as [|ch t IH]; cbn [atoi_digits ParseUint_digits]; intros n m Hn H Hm.
  - now injection H as <-.
  - destruct ((0 <=? byte_val ch - 48) && (byte_val ch - 48 <=? 9)) eqn:Hd;
      [|discriminate].
    apply andb_prop in Hd as [H0%Z.leb_le H9%Z.leb_le].
    assert (Hle : n * 10 + (byte_val ch - 48) <= m)
      by (apply (atoi_digits_mono t); [lia | exact H]).
    change (maxUint64 / 10 + 1) with 1844674407370955162.
    change maxUint64 with 18446744073709551615 in *.
    replace (1844674407370955162 <=? n) with false
      by (symmetry; apply Z.leb_gt; lia).
    replace (18446744073709551615 <? n * 10 + (byte_val ch - 48)) with false
      by (symmetry; apply Z.ltb_ge; lia).
    apply IH; [lia | exact H | exact Hm].
Qed.

(** On a text that [Atoi] accepts, [Atoi_value] is the value of [Atoi]. *)
Lemma Atoi_value_ok (s : string) (v : Z) : Atoi s = Some v -> Atoi_value s = v.
Proof.
  unfold Atoi, Atoi_value. destruct s as [|c0 t]; [discriminate|]. cbv zeta.
  destruct (if ((c0 =? "-")%char || (c0 =? "+")%char) then t else String c0 t)
    as [|b body] eqn:Hbody; [discriminate|].
  destruct (atoi_digits (String b body) 0) as [n|] eqn:Hd; [|discriminate].
  assert (Hn : 0 <= n) by (apply (atoi_digits_mono (String b body)); [lia | exact Hd]).
  rewrite maxInt_val, minInt_val. change (2 ^ (intSize - 1)) with 9223372036854775808.
  destruct ((c0 =? "-")%char) eqn:Hneg; cbn [negb andb];
    (destruct (_ && _) eqn:Hr; [|discriminate]);
    apply andb_prop in Hr as [Hlo%Z.leb_le Hhi%Z.leb_le]; intros [= <-];
    rewrite (ParseUint_digits_ok _ 0 n ltac:(lia) Hd)
      by (change maxUint64 with 18446744073709551615; lia).
  - replace (9223372036854775808 <? n) with false
      by (symmetry; apply Z.ltb_ge; lia). reflexivity.
  - replace (9223372036854775808 <=? n) with false
      by (symmetry; apply Z.leb_gt; lia). reflexivity.
Qed.

(** The three kinds of result of [mayParseDigit]: a value, a syntax error
    with 0, and a range error with the nearest [int]. *)
Lemma mayParseDigit_results :
  mayParseDigit "-0012" = (-12, true) /\
  mayParseDigit "12a" = (0, false) /\
  mayParseDigit "9223372036854775808" = (maxInt, false) /\
  mayParseDigit "-9223372036854775809" = (minInt, false) /\
  mayParseDigit "99999999999999999999x" = (maxInt, false).
Proof. repeat split; reflexivity. Qed.

(** ** [Itoa] gives a canonical numeral back *)

Lemma string_snoc_inv (s : string) :
  s <> EmptyString -> exists s' c, s = s' ++ String c EmptyString.
Proof.
  induction s as [|a s IH]; [congruence|]. intros _.
  destruct s as [|b s].
  - now exists EmptyString, a.
  - destruct IH as (s' & c & Heq); [discriminate|].
    exists (String a s'), c. simpl. now rewrite <- Heq.
Qed.

Lemma string_rev_ind (P : string -> Prop) :
  P EmptyString ->
  (forall s c, P s -> P (s ++ String c EmptyString)) ->
  forall s, P s.
Proof.
  intros Hnil Hsnoc s.
  remember (String.length s) as n eqn:Hn. revert s Hn.
  induction n as [|n IH]; intros s Hn.
  - destruct s; [exact Hnil | discriminate].
  - destruct (string_snoc_inv s) as (s' & c & ->).
    { intros ->. discriminate. }
    apply Hsnoc, IH.
    assert (Hl := len_append s' (String c EmptyString)).
    unfold len in Hl. simpl String.length in Hl. lia.
Qed.

Lemma decimal_value_snoc (s : string) (c : ascii) :
  decimal_value (s ++ String c EmptyString)
  = decimal_value s * 10 + (byte_val c - 48).
Proof.
  induction s as [|a s IH].
  - simpl. change (len EmptyString) with 0. lia.
  - cbn [String.append decimal_value]. rewrite IH, len_append.
    change (len (String c EmptyString)) with 1.
    rewrite Z.pow_add_r by (pose proof (len_nonneg s); lia). lia.
Qed.

Lemma decimal_value_head (s : string) :
  all_digits s = true -> nonzero_head s = true ->
  10 ^ (len s - 1) <= decimal_value s.
Proof.
  destruct s as [|c t]; [discriminate|].
  unfold all_digits. cbn [string_forall nonzero_head decimal_value].
  intros [Hc Ht]%andb_prop Hnz.
  pose proof (decimal_value_nonneg t Ht) as Hnn.
  rewrite len_cons. replace (1 + len t - 1) with (len t) by lia.
  assert (Hd : 1 <= byte_val c - 48).
  { unfold is_digit in Hc. apply andb_prop in Hc as [H48%Z.leb_le _].
    apply negb_true_iff in Hnz. rewrite ascii_eqb_byte_val in Hnz.
    apply Z.eqb_neq in Hnz. change (byte_val "0") with 48 in Hnz. lia. }
  assert (0 < 10 ^ len t) by (apply Z.pow_pos_nonneg; [lia | apply len_nonneg]).
  nia.
Qed.

Lemma utoa_numeral (s : string) :
  forall (fuel : nat) (acc : string),
    all_digits s = true -> nonzero_head s = true ->
    len s <= Z.of_nat fuel ->
    utoa fuel (decimal_value s) acc = s ++ acc.
Proof.
  induction s as [|s c IH] using string_rev_ind; [discriminate|].
  intros fuel acc Hd Hnz Hfuel.
  unfold all_digits in Hd. rewrite string_forall_append in Hd.
  apply andb_prop in Hd as [Hds Hdc]. simpl in Hdc. rewrite andb_true_r in Hdc.
  pose proof Hdc as Hc. unfold is_digit in Hc.
  apply andb_prop in Hc as [H48%Z.leb_le H57%Z.leb_le].
  rewrite len_append in Hfuel. change (len (String c EmptyString)) with 1 in Hfuel.
  pose proof (len_nonneg s) as Hlen.
  destruct fuel as [|fuel]; [lia|].
  rewrite decimal_value_snoc. cbn [utoa].
  destruct s as [|a s].
  - cbn [decimal_value String.append]. rewrite Z.mul_0_l, Z.add_0_l.
    replace (byte_val c - 48 <? 10) with true
      by (symmetry; apply Z.ltb_lt; lia).
    replace (48 + (byte_val c - 48)) with (byte_val c) by lia.
    now rewrite byte_of_val.
  - assert (Hhead : 10 ^ (len (String a s) - 1) <= decimal_value (String a s))
      by (apply decimal_value_head; [exact Hds | exact Hnz]).
    assert (0 < 10 ^ (len (String a s) - 1))
      by (apply Z.pow_pos_nonneg;
          [lia | rewrite len_cons; pose proof (len_nonneg s); lia]).
    replace (decimal_value (String a s) * 10 + (byte_val c - 48) <? 10) with false
      by (symmetry; apply Z.ltb_ge; lia).
    replace ((decimal_value (String a s) * 10 + (byte_val c - 48)) / 10)
      with (decimal_value (String a s)) by (Z.div_mod_to_equations; lia).
    replace (48 + (decimal_value (String a s) * 10 + (byte_val c - 48)) mod 10)
      with (byte_val c) by (Z.div_mod_to_equations; lia).
    rewrite byte_of_val, IH by (try assumption; lia).
    now rewrite append_assoc.
Qed.

Lemma Itoa_canonical (s : string) :
  canonical_numeral s = true -> Itoa (decimal_value s) = s.
Proof.
  unfold canonical_numeral, fitsInt.
  intros [[[Hne Hd]%andb_prop _]%andb_prop Hlz]%andb_prop.
  apply negb_true_iff in Hlz.
  pose proof (decimal_value_nonneg s Hd) as Hnn.
  unfold Itoa. replace (decimal_value s <? 0) with false
    by (symmetry; apply Z.ltb_ge; lia).
  destruct (nonzero_head s) eqn:Hnz.
  - rewrite utoa_numeral; [apply append_nil_r | exact Hd | exact Hnz |].
    pose proof (decimal_value_head s Hd Hnz) as Hhead.
    assert (Hl : 1 <= len s) by (destruct s; [discriminate | rewrite len_cons; pose proof (len_nonneg s); lia]).
    assert (Hpow : 2 ^ (len s - 1) <= 10 ^ (len s - 1))
      by (apply Z.pow_le_mono_l; lia).
    assert (Hlog : len s - 1 <= Z.log2 (decimal_value s)).
    { apply Z.log2_le_pow2; [|lia].
      assert (0 < 2 ^ (len s - 1)) by (apply Z.pow_pos_nonneg; lia). lia. }
    lia.
  - destruct s as [|c [|b t]]; [discriminate | | ].
    + simpl in Hnz. apply negb_false_iff, Ascii.eqb_eq in Hnz. subst c. reflexivity.
    + simpl in Hnz, Hlz. rewrite Hlz in Hnz. discriminate.
Qed.

(** ** The scanning loop of [Parse] *)

(** What holds of the loop variables before and after every iteration. *)
Record scanInv (st : scanState) : Prop := {
  inv_slots : length (parts st) = 5%nat;
  inv_cursor : 0 <= partIndex st <= 4;
  inv_flags : partIndex st <= 2 ->
    didEnterPreReleasePart st = false /\ didEnterBuildMetadataPart st = false;
  inv_numeric : forall (i : nat) (p : string),
    (i < 3)%nat -> parts st !! i = Some p ->
    string_forall (fun b => negb (is_sign b)) p = true
}.

Lemma scanInv_init : scanInv scanInit.
Proof.
  split; simpl; try lia; try tauto.
  intros i p Hi Hp.
  destruct i as [|[|[|i]]]; simpl in Hp; try lia; now inversion Hp.
Qed.

Lemma index_Some {A : Type} (l : list A) (i : Z) :
  0 <= i < Z.of_nat (length l) -> exists x, index l i = Some x /\ l !! Z.to_nat i = Some x.
Proof.
  intros Hi. unfold index.
  replace ((0 <=? i) && (i <? Z.of_nat (length l))) with true
    by (symmetry; apply andb_true_iff; split; [apply Z.leb_le | apply Z.ltb_lt]; lia).
  destruct (lookup_lt_is_Some_2 l (Z.to_nat i)) as [x Hx]; [lia|].
  exists x. now rewrite Hx.
Qed.

Lemma scanStep_inv (st : scanState) (c : Z) :
  scanInv st -> exists st', scanStep st c = Some st' /\ scanInv st'.
Proof.
  intros [Hslots Hcur Hflags Hnum]. unfold scanStep.
  destruct ((c =? 46) && (partIndex st <? 2)) eqn:Hdot.
  { apply andb_prop in Hdot as [_ Hlt%Z.ltb_lt].
    eexists; split; [reflexivity|]. split; simpl; auto; try lia.
    intros _. apply Hflags. lia. }
  destruct ((c =? 45) && negb (didEnterPreReleasePart st)
            && negb (didEnterBuildMetadataPart st)) eqn:Hminus.
  { eexists; split; [reflexivity|]. split; simpl; auto; lia. }
  destruct ((c =? 43) && negb (didEnterBuildMetadataPart st)) eqn:Hplus.
  { eexists; split; [reflexivity|]. split; simpl; auto; lia. }
  unfold WriteRune_at.
  destruct (index_Some (parts st) (partIndex st)) as (b & Hb & Hlk); [lia|].
  rewrite Hb. simpl. eexists; split; [reflexivity|].
  split; simpl; auto.
  - now rewrite length_insert.
  - intros i p Hi Hp.
    destruct (decide (Z.to_nat (partIndex st) = i)) as [<-|Hne].
    + rewrite list_lookup_insert_eq in Hp by (apply lookup_lt_Some in Hlk; exact Hlk).
      injection Hp as <-.
      rewrite string_forall_append. apply andb_true_iff. split.
      * eapply Hnum; eauto.
      * destruct Hflags as [Hpre Hbuild]; [lia|].
        rewrite Hpre, Hbuild, !andb_true_r in *.
        apply Z.eqb_neq in Hminus, Hplus. now apply encodeRune_no_sign.
    + rewrite list_lookup_insert_ne in Hp by exact Hne. eapply Hnum; eauto.
Qed.

Lemma scanLoop_inv (cs : list Z) (st : scanState) :
  scanInv st -> exists st', scanLoop cs st = Some st' /\ scanInv st'.
Proof.
  revert st. induction cs as [|c cs IH]; intros st Hinv.
  - exists st. split; [reflexivity | exact Hinv].
  - destruct (scanStep_inv st c Hinv) as (st1 & Hstep & Hinv1).
    simpl. rewrite Hstep. simpl. apply IH, Hinv1.
Qed.

Lemma scan_inv (s : string) : exists st, scan s = Some st /\ scanInv st.
Proof. apply scanLoop_inv, scanInv_init. Qed.

Lemma scanInv_parts (st : scanState) :
  scanInv st -> exists p0 p1 p2 p3 p4, parts st = [p0; p1; p2; p3; p4].
Proof.
  intros [Hslots _ _ _].
  destruct (parts st) as [|p0 [|p1 [|p2 [|p3 [|p4 [|? ?]]]]]]; try discriminate.
  now exists p0, p1, p2, p3, p4.
Qed.

(** [Parse] in terms of the scanned field texts. *)
Lemma Parse_scanned (s : string) :
  exists p0 p1 p2 p3 p4,
    scannedParts s = [p0; p1; p2; p3; p4] /\
    Parse s =
      Some (if fitsInt p0 then
              if fitsInt p1 then
                if fitsInt p2 then
                  (mkSemVer (decimal_value p0) (decimal_value p1)
                            (decimal_value p2) p3 p4, None)
                else (mkSemVer (decimal_value p0) (decimal_value p1) 0
                               EmptyString EmptyString,
                      Some ErrInvalidSemVerSyntax)
              else (mkSemVer (decimal_value p0) 0 0 EmptyString EmptyString,
                    Some ErrInvalidSemVerSyntax)
            else (zeroSemVer, Some ErrInvalidSemVerSyntax)).
Proof.
  destruct (scan_inv s) as (st & Hscan & Hinv).
  destruct (scanInv_parts st Hinv) as (p0 & p1 & p2 & p3 & p4 & Hparts).
  exists p0, p1, p2, p3, p4. unfold scannedParts, Parse. rewrite Hscan.
  split; [exact Hparts|]. simpl. rewrite Hparts. unfold index. simpl.
  rewrite (Atoi_unsigned p0)
    by (apply (inv_numeric st Hinv 0%nat); [lia | now rewrite Hparts]).
  rewrite (Atoi_unsigned p1)
    by (apply (inv_numeric st Hinv 1%nat); [lia | now rewrite Hparts]).
  rewrite (Atoi_unsigned p2)
    by (apply (inv_numeric st Hinv 2%nat); [lia | now rewrite Hparts]).
  destruct (fitsInt p0), (fitsInt p1), (fitsInt p2); reflexivity.
Qed.

(** ** Totality and safety of [Parse] *)

(** C10. Whatever the input, every state the scanning loop of [Parse]
    passes through (the state after any number [n] of iterations) has its
    cursor [partIndex] among 0, 1, 2, 3, 4 and five slots in [parts], so the
    indexing [parts[partIndex]] is in bounds, and [Parse] returns a pair
    (version, error) and does not panic. *)
Theorem Parse_total_and_safe (semverStr : string) :
  (forall n : nat, exists st,
      scanLoop (take n (runes semverStr)) scanInit = Some st /\
      0 <= partIndex st <= 4 /\
      length (parts st) = 5%nat /\
      is_Some (index (parts st) (partIndex st))) /\
  (exists v err, Parse semverStr = Some (v, err)).
Proof.
  split.
  - intros n.
    destruct (scanLoop_inv (take n (runes semverStr)) scanInit scanInv_init)
      as (st & Hst & Hinv).
    exists st. pose proof (inv_slots st Hinv) as Hslots.
    pose proof (inv_cursor st Hinv) as Hcur.
    repeat split; try assumption; try lia.
    destruct (index_Some (parts st) (partIndex st)) as (x & Hx & _); [lia|].
    now exists x.
  - destruct (Parse_scanned semverStr) as (p0 & p1 & p2 & p3 & p4 & _ & HP).
    rewrite HP. destruct (fitsInt p0), (fitsInt p1), (fitsInt p2); eauto.
Qed.

(** ** The numeric fields *)

(** No sign character reaches the text of a numeric field. *)
Lemma scanned_numeric_no_sign (s : string) :
  Forall (fun p => string_forall (fun b => negb (is_sign b)) p = true)
         (take 3 (scannedParts s)).
Proof.
  destruct (scan_inv s) as (st & Hscan & Hinv).
  unfold scannedParts. rewrite Hscan.
  destruct (scanInv_parts st Hinv) as (p0 & p1 & p2 & p3 & p4 & Hparts).
  pose proof (inv_numeric st Hinv) as Hnum. rewrite Hparts in *. simpl.
  repeat constructor.
  - apply (Hnum 0%nat); [lia | reflexivity].
  - apply (Hnum 1%nat); [lia | reflexivity].
  - apply (Hnum 2%nat); [lia | reflexivity].
Qed.

(** C9. A version that [Parse] returns without error has non-negative
    major, minor and patch numbers; the texts of the three numeric fields
    contain neither ['-'] nor ['+'], which the scan either takes as a field
    switch or writes into the pre-release or build field. *)
Theorem Parse_nonneg (s : string) (v : SemVer) :
  Parse s = Some (v, None) ->
  (0 <= Major v /\ 0 <= Minor v /\ 0 <= Patch v) /\
  Forall (fun p => string_forall (fun b => negb (is_sign b)) p = true)
         (take 3 (scannedParts s)).
Proof.
  intros HP. split; [|apply scanned_numeric_no_sign]. revert HP.
  destruct (Parse_scanned s) as (p0 & p1 & p2 & p3 & p4 & _ & HP).
  rewrite HP.
  destruct (fitsInt p0) eqn:H0; [|discriminate].
  destruct (fitsInt p1) eqn:H1; [|discriminate].
  destruct (fitsInt p2) eqn:H2; [|discriminate].
  intros [= <-]. simpl.
  unfold fitsInt in H0, H1, H2.
  apply andb_prop in H0 as [[_ H0]%andb_prop _].
  apply andb_prop in H1 as [[_ H1]%andb_prop _].
  apply andb_prop in H2 as [[_ H2]%andb_prop _].
  auto using decimal_value_nonneg.
Qed.

Lemma Parse_nonneg_witness :
  Parse "1.2.3--4.x+-5" = Some (mkSemVer 1 2 3 "-4.x" "-5", None) /\
  ((0 <= 1 /\ 0 <= 2 /\ 0 <= 3) /\
   Forall (fun p => string_forall (fun b => negb (is_sign b)) p = true)
          (take 3 (scannedParts "1.2.3--4.x+-5"))).
Proof.
  split; [reflexivity|].
  apply (Parse_nonneg "1.2.3--4.x+-5" (mkSemVer 1 2 3 "-4.x" "-5")).
  reflexivity.
Defined.

(** C3, on the code. The magnitude is bounded: a major of twenty digits is
    rejected although the three numeric texts are non-empty and all
    digits. *)
Lemma Parse_rejects_twenty_digit_major :
  scannedParts "10000000000000000000.0.0"
    = ["10000000000000000000"; "0"; "0"; ""; ""] /\
  Forall (fun p => p <> EmptyString /\ all_digits p = true)
         (take 3 (scannedParts "10000000000000000000.0.0")) /\
  ~ (exists v, Parse "10000000000000000000.0.0" = Some (v, None)).
Proof.
  split; [reflexivity|]. split.
  - repeat constructor; discriminate.
  - intros [v Hv]. vm_compute in Hv. discriminate Hv.
Qed.

(** C3, amended. When the three numeric texts of the scan are non-empty,
    all digits (of any length, leading zeros included) and denote values of
    at most [maxInt] = 2^63 - 1, [Parse] succeeds and stores exactly these
    values, with the pre-release and build texts as scanned.  When one of
    the three is a digit text that denotes a value above [maxInt], [Parse]
    returns the syntax error: no value wraps around. *)
Theorem Parse_stores_exact_values (s p0 p1 p2 p3 p4 : string) :
  scannedParts s = [p0; p1; p2; p3; p4] ->
  (fitsInt p0 = true -> fitsInt p1 = true -> fitsInt p2 = true ->
   Parse s = Some (mkSemVer (decimal_value p0) (decimal_value p1)
                            (decimal_value p2) p3 p4, None)) /\
  (Exists (fun p => all_digits p = true /\ maxInt < decimal_value p) [p0; p1; p2] ->
   (exists v, Parse s = Some (v, Some ErrInvalidSemVerSyntax)) /\
   ~ (exists v, Parse s = Some (v, None))).
Proof.
  intros Hparts.
  destruct (Parse_scanned s) as (q0 & q1 & q2 & q3 & q4 & Hq & HP).
  rewrite Hparts in Hq. injection Hq as <- <- <- <- <-.
  split.
  - intros H0 H1 H2. now rewrite HP, H0, H1, H2.
  - intros Hbig.
    assert (Hno : fitsInt p0 && fitsInt p1 && fitsInt p2 = false).
    { assert (Hout : forall p, maxInt < decimal_value p -> fitsInt p = false).
      { intros p Hp. unfold fitsInt.
        replace (decimal_value p <=? maxInt) with false
          by (symmetry; apply Z.leb_gt; exact Hp).
        apply andb_false_r. }
      apply Exists_cons in Hbig as [[_ Hp]|Hbig];
        [now rewrite (Hout p0 Hp)|].
      apply Exists_cons in Hbig as [[_ Hp]|Hbig];
        [now rewrite (Hout p1 Hp), andb_false_r|].
      apply Exists_cons in Hbig as [[_ Hp]|Hbig];
        [now rewrite (Hout p2 Hp), andb_false_r|].
      now apply Exists_nil in Hbig. }
    rewrite HP.
    destruct (fitsInt p0), (fitsInt p1), (fitsInt p2); try discriminate Hno;
      (split; [eexists; reflexivity | intros [v [=]]]).
Qed.

Lemma Parse_stores_exact_values_witness :
  Parse "17897798789984631.0014461777.1100000-rc+x"
  = Some (mkSemVer 17897798789984631 14461777 1100000 "rc" "x", None) /\
  (exists v, Parse "1.9223372036854775808.3-rc+x"
             = Some (v, Some ErrInvalidSemVerSyntax)) /\
  ~ (exists v, Parse "1.9223372036854775808.3-rc+x" = Some (v, None)).
Proof.
  split.
  - apply (Parse_stores_exact_values
             "17897798789984631.0014461777.1100000-rc+x"
             "17897798789984631" "0014461777" "1100000" "rc" "x");
      reflexivity.
  - apply (Parse_stores_exact_values
             "1.9223372036854775808.3-rc+x"
             "1" "9223372036854775808" "3" "rc" "x"); [reflexivity|].
    constructor 2. constructor 1. split; [reflexivity | vm_compute; reflexivity].
Defined.

(** ** The syntax error *)

(** C5, on the code. The stated equivalence fails: the input below is
    rejected although none of its three numeric texts is empty or contains
    a non-digit. *)
Lemma Parse_rejects_overflowing_digits :
  ~ (IsValid "9223372036854775808.0.0" = Some false <->
     Exists (fun p => p = EmptyString \/ all_digits p = false)
            (take 3 (scannedParts "9223372036854775808.0.0"))).
Proof.
  intros [Hfail _]. specialize (Hfail eq_refl).
  change (take 3 (scannedParts "9223372036854775808.0.0"))
    with ["9223372036854775808"; "0"; "0"] in Hfail.
  repeat (apply Exists_cons in Hfail as [[Hf|Hf]|Hfail]; try discriminate Hf).
  inversion Hfail.
Qed.

(** C5, amended. [Parse] returns the [ErrInvalidSemVerSyntax] error exactly
    when one of the three numeric texts of the scan is empty, contains a
    non-digit, or denotes a value above [maxInt] = 2^63 - 1; nothing else is
    validated.  [IsValid] is false in exactly these cases, and the four
    inputs ["1..0"], ["1.0"], ["1.0-b"], ["1b.0.0"] are rejected by both. *)
Theorem Parse_InvalidSyntax_iff :
  (forall s : string,
      length (scannedParts s) = 5%nat /\
      ((exists v, Parse s = Some (v, Some ErrInvalidSemVerSyntax)) <->
       Exists (fun p => fitsInt p = false) (take 3 (scannedParts s))) /\
      (IsValid s = Some false <->
       Exists (fun p => fitsInt p = false) (take 3 (scannedParts s)))) /\
  Forall (fun s => (exists v, Parse s = Some (v, Some ErrInvalidSemVerSyntax)) /\
                   IsValid s = Some false)
         ["1..0"; "1.0"; "1.0-b"; "1b.0.0"].
Proof.
  split.
  - intros s. unfold IsValid.
    destruct (Parse_scanned s) as (p0 & p1 & p2 & p3 & p4 & Hparts & HP).
    rewrite HP, Hparts. simpl take. split; [reflexivity|].
    rewrite !Exists_cons, Exists_nil.
    destruct (fitsInt p0), (fitsInt p1), (fitsInt p2); simpl;
      split; split; intros H;
      solve [ discriminate H | eexists; reflexivity | reflexivity
            | intuition discriminate
            | destruct H as [v Hv]; discriminate Hv ].
  - repeat constructor; eexists; reflexivity.
Qed.

(** ** Precedence *)

Lemma cmp_Compare_int_refl (x : Z) : cmp_Compare x x = 0.
Proof. unfold cmp_Compare, less, Ordered_int. now rewrite Z.ltb_irrefl. Qed.

Lemma cmp_Compare_int_antisym (x y : Z) : cmp_Compare y x = - cmp_Compare x y.
Proof.
  unfold cmp_Compare, less, Ordered_int.
  destruct (Z.ltb_spec x y), (Z.ltb_spec y x); lia.
Qed.

Lemma cmp_Compare_string_cases (s t : string) :
  cmp_Compare s t =
  match String.compare s t with Lt => -1 | Eq => 0 | Gt => 1 end.
Proof.
  unfold cmp_Compare, less, Ordered_string, String.ltb.
  rewrite (String.compare_antisym s t).
  destruct (String.compare t s); reflexivity.
Qed.

Lemma cmp_Compare_string_refl (s : string) : cmp_Compare s s = 0.
Proof.
  rewrite cmp_Compare_string_cases.
  pose proof (String.compare_antisym s s) as Hs.
  destruct (String.compare s s); [reflexivity | discriminate Hs | discriminate Hs].
Qed.

Lemma cmp_Compare_string_antisym (s t : string) :
  cmp_Compare t s = - cmp_Compare s t.
Proof.
  rewrite !cmp_Compare_string_cases, (String.compare_antisym s t).
  destruct (String.compare t s); reflexivity.
Qed.

Lemma eqb_0_opp (x : Z) : (- x =? 0) = (x =? 0).
Proof. destruct (Z.eqb_spec x 0), (Z.eqb_spec (- x) 0); lia. Qed.

Lemma comparePart_refl (p : string) : comparePart p p = None.
Proof.
  unfold comparePart, mayParseDigit.
  destruct (Atoi p); simpl.
  - now rewrite Z.eqb_refl.
  - now rewrite cmp_Compare_string_refl.
Qed.

Lemma comparePart_antisym (t o : string) :
  comparePart o t = option_map Z.opp (comparePart t o).
Proof.
  unfold comparePart, mayParseDigit.
  destruct (Atoi t) as [x|], (Atoi o) as [y|]; simpl; try reflexivity.
  - rewrite (Z.eqb_sym y x). destruct (x =? y); [reflexivity|].
    simpl. now rewrite cmp_Compare_int_antisym.
  - rewrite (cmp_Compare_string_antisym t o), eqb_0_opp.
    now destruct (cmp_Compare t o =? 0).
Qed.

Lemma comparePreRelease_loop_refl (l : list string) :
  comparePreRelease_loop l l = None.
Proof.
  induction l as [|p l IH]; [reflexivity|].
  simpl. now rewrite comparePart_refl.
Qed.

Lemma comparePreRelease_loop_antisym (this other : list string) :
  comparePreRelease_loop other this
  = option_map Z.opp (comparePreRelease_loop this other).
Proof.
  revert other. induction this as [|t this IH]; intros [|o other];
    try reflexivity.
  simpl. rewrite (comparePart_antisym t o).
  destruct (comparePart t o); simpl; [reflexivity | apply IH].
Qed.

Lemma comparePreRelease_refl (a : SemVer) : comparePreRelease a a = 0.
Proof.
  unfold comparePreRelease.
  destruct (len (PreRelease a) =? 0) eqn:He; simpl; [reflexivity|].
  now rewrite comparePreRelease_loop_refl, cmp_Compare_int_refl.
Qed.

Lemma comparePreRelease_antisym (a b : SemVer) :
  comparePreRelease b a = - comparePreRelease a b.
Proof.
  unfold comparePreRelease.
  destruct (len (PreRelease a) =? 0), (len (PreRelease b) =? 0);
    simpl; try reflexivity.
  rewrite (comparePreRelease_loop_antisym (strings_Split (PreRelease a) ".")).
  destruct (comparePreRelease_loop _ _); simpl; [reflexivity|].
  apply cmp_Compare_int_antisym.
Qed.

(** [Compare] of a version with itself is 0. *)
Lemma SemVer_Compare_refl (a : SemVer) : SemVer_Compare a a = 0.
Proof.
  unfold SemVer_Compare, generateCompareToOtherResult. simpl.
  now rewrite !cmp_Compare_int_refl, comparePreRelease_refl.
Qed.

(** Swapping the arguments of [Compare] negates the result. *)
Lemma SemVer_Compare_antisym (a b : SemVer) :
  SemVer_Compare b a = - SemVer_Compare a b.
Proof.
  unfold SemVer_Compare, generateCompareToOtherResult. simpl.
  rewrite (cmp_Compare_int_antisym (Major a)), (cmp_Compare_int_antisym (Minor a)),
    (cmp_Compare_int_antisym (Patch a)), (comparePreRelease_antisym a b).
  rewrite !eqb_0_opp.
  repeat match goal with
  | |- context [if ?c =? 0 then _ else _] => destruct (Z.eqb_spec c 0)
  end; lia.
Qed.

Lemma firstNonZero_Compare {R : Type} (l : list Z) (f : Z -> R) (dflt : R) :
  f 0 = dflt ->
  firstNonZero l f dflt = f (firstNonZero l (fun result => result) 0).
Proof.
  intros H0. induction l as [|x l IH]; simpl; [now rewrite H0|].
  destruct (x =? 0); [exact IH | reflexivity].
Qed.

(** The ordering predicates are the signs of [Compare]. *)
Lemma IsLess_Compare (a b : SemVer) : IsLess a b = (SemVer_Compare a b <? 0).
Proof. unfold IsLess, SemVer_Compare. now apply firstNonZero_Compare. Qed.

Lemma IsGrater_Compare (a b : SemVer) : IsGrater a b = (SemVer_Compare a b >? 0).
Proof. unfold IsGrater, SemVer_Compare. now apply firstNonZero_Compare. Qed.

Lemma firstNonZero_or_zero (l : list Z) (f : Z -> bool) :
  firstNonZero l f true
  = let r := firstNonZero l (fun result => result) 0 in (r =? 0) || f r.
Proof.
  induction l as [|x l IH]; simpl; [reflexivity|].
  destruct (x =? 0) eqn:Hx; [exact IH | now rewrite Hx].
Qed.

Lemma IsLessOrEquql_Compare (a b : SemVer) :
  IsLessOrEquql a b = (SemVer_Compare a b <=? 0).
Proof.
  unfold IsLessOrEquql, SemVer_Compare. rewrite firstNonZero_or_zero. simpl.
  destruct (Z.eqb_spec (firstNonZero (generateCompareToOtherResult a b) (λ r, r) 0) 0),
    (Z.ltb_spec (firstNonZero (generateCompareToOtherResult a b) (λ r, r) 0) 0),
    (Z.leb_spec (firstNonZero (generateCompareToOtherResult a b) (λ r, r) 0) 0);
    simpl; try reflexivity; lia.
Qed.

Lemma IsGraterOrEquql_Compare (a b : SemVer) :
  IsGraterOrEquql a b = (SemVer_Compare a b >=? 0).
Proof.
  unfold IsGraterOrEquql, SemVer_Compare. rewrite firstNonZero_or_zero. simpl.
  rewrite Z.gtb_ltb, Z.geb_leb.
  destruct (Z.eqb_spec (firstNonZero (generateCompareToOtherResult a b) (λ r, r) 0) 0),
    (Z.ltb_spec 0 (firstNonZero (generateCompareToOtherResult a b) (λ r, r) 0)),
    (Z.leb_spec 0 (firstNonZero (generateCompareToOtherResult a b) (λ r, r) 0));
    simpl; try reflexivity; lia.
Qed.

Lemma split_from_not_nil (sep : ascii) (s cur : string) :
  split_from sep s cur <> [].
Proof.
  revert cur. induction s as [|c s IH]; intros cur; simpl; [discriminate|].
  destruct (c =? sep)%char; [discriminate | apply IH].
Qed.

(** [strings.Split] and joining with dots are inverse. *)
Lemma split_from_join (s cur : string) :
  join_dots (split_from "." s cur) = cur ++ s.
Proof.
  revert cur. induction s as [|c s IH]; intros cur.
  - simpl. now rewrite append_nil_r.
  - cbn [split_from]. destruct (Ascii.eqb_spec c ".") as [->|Hne].
    + cbn [join_dots]. specialize (IH EmptyString).
      destruct (split_from "." s EmptyString) as [|x l] eqn:Hsp.
      * now apply split_from_not_nil in Hsp.
      * rewrite IH. reflexivity.
    + rewrite IH, append_assoc. reflexivity.
Qed.

Lemma strings_Split_join (s : string) : join_dots (strings_Split s ".") = s.
Proof. apply split_from_join. Qed.

Lemma len_join_dots_app (l : list string) (x : string) (xs : list string) :
  l <> [] -> len (join_dots l) < len (join_dots (l ++ x :: xs)).
Proof.
  induction l as [|y l IH]; [congruence|]. intros _.
  destruct l as [|z l].
  - change (join_dots ([y] ++ x :: xs)) with (y ++ "." ++ join_dots (x :: xs)).
    change (join_dots [y]) with y. rewrite !len_append.
    change (len ".") with 1. pose proof (len_nonneg (join_dots (x :: xs))). lia.
  - change (join_dots (y :: z :: l)) with (y ++ "." ++ join_dots (z :: l)).
    change (join_dots ((y :: z :: l) ++ x :: xs))
      with (y ++ "." ++ join_dots ((z :: l) ++ x :: xs)).
    rewrite !len_append. specialize (IH ltac:(discriminate)). lia.
Qed.

Lemma comparePreRelease_loop_prefix (l extra : list string) :
  comparePreRelease_loop l (l ++ extra) = None.
Proof.
  induction l as [|p l IH]; [reflexivity|].
  simpl. now rewrite comparePart_refl.
Qed.

(** When the identifiers of [a] are, text for text, a proper prefix of the
    identifiers of [b], the version with more identifiers is the greater
    one. *)
Lemma comparePreRelease_proper_prefix (a b : SemVer) (x : string) (xs : list string) :
  PreRelease a <> EmptyString ->
  strings_Split (PreRelease b) "." = (strings_Split (PreRelease a) "." ++ x :: xs)%list ->
  comparePreRelease a b = -1 /\ comparePreRelease b a = 1.
Proof.
  intros Hne Hsplit.
  assert (Hlt : len (PreRelease a) < len (PreRelease b)).
  { rewrite <- (strings_Split_join (PreRelease a)) at 1.
    rewrite <- (strings_Split_join (PreRelease b)), Hsplit.
    apply len_join_dots_app, split_from_not_nil. }
  assert (Ha : 0 < len (PreRelease a)).
  { destruct (PreRelease a); [congruence|]. rewrite len_cons.
    pose proof (len_nonneg s). lia. }
  assert (Hab : comparePreRelease a b = -1).
  { unfold comparePreRelease.
    replace (len (PreRelease a) =? 0) with false by (symmetry; apply Z.eqb_neq; lia).
    replace (len (PreRelease b) =? 0) with false by (symmetry; apply Z.eqb_neq; lia).
    cbn [orb]. rewrite Hsplit, comparePreRelease_loop_prefix.
    unfold cmp_Compare, less, Ordered_int.
    replace (len (PreRelease a) <? len (PreRelease b)) with true
      by (symmetry; apply Z.ltb_lt; lia).
    reflexivity. }
  split; [exact Hab|]. rewrite (comparePreRelease_antisym a b), Hab. reflexivity.
Qed.

(** C1, on the code. The versions [a] and [b] below have pre-release
    identifier lists ["0"; "0"] and ["0000"], which agree at position 0 (both
    numeric, equal values), yet [comparePreRelease] ranks [a], the version
    with more identifiers, lower: the final tie-break compares the byte
    lengths of the pre-release texts (3 against 4), not the numbers of
    identifiers.  For the same reason [c] and [d], with the one-identifier
    lists ["1"] and ["01"], do not compare equal. *)
Theorem comparePreRelease_ranks_by_text_length :
  exists a b c d,
    Parse "1.0.0-0.0" = Some (a, None) /\
    Parse "1.0.0-0000" = Some (b, None) /\
    strings_Split (PreRelease a) "." = ["0"; "0"] /\
    strings_Split (PreRelease b) "." = ["0000"] /\
    comparePreRelease_loop ["0"; "0"] ["0000"] = None /\
    comparePreRelease a b = -1 /\
    comparePreRelease b a = 1 /\
    Parse "1.0.0-1" = Some (c, None) /\
    Parse "1.0.0-01" = Some (d, None) /\
    strings_Split (PreRelease c) "." = ["1"] /\
    strings_Split (PreRelease d) "." = ["01"] /\
    comparePreRelease_loop ["1"] ["01"] = None /\
    comparePreRelease c d = -1.
Proof.
  exists (mkSemVer 1 0 0 "0.0" ""), (mkSemVer 1 0 0 "0000" ""),
    (mkSemVer 1 0 0 "1" ""), (mkSemVer 1 0 0 "01" "").
  repeat split; reflexivity.
Qed.

(** C2, on the code. [Compare] is reflexive-equal and antisymmetric, but
    it is not transitive: with pre-releases ["00001"], ["0001.5"] and
    ["1.6"] the first version is below the second and the second below the
    third, yet the first is above the third.  The first and the second, and
    the first and the third, agree on their common identifiers and are
    ranked by the byte lengths of the pre-release texts (5 < 6, 5 > 3). *)
Theorem SemVer_Compare_not_transitive :
  (forall a, SemVer_Compare a a = 0) /\
  (forall a b, SemVer_Compare b a = - SemVer_Compare a b) /\
  exists a b c,
    Parse "1.0.0-00001" = Some (a, None) /\
    Parse "1.0.0-0001.5" = Some (b, None) /\
    Parse "1.0.0-1.6" = Some (c, None) /\
    SemVer_Compare a b = -1 /\
    SemVer_Compare b c = -1 /\
    SemVer_Compare a c = 1.
Proof.
  split; [exact SemVer_Compare_refl|]. split; [exact SemVer_Compare_antisym|].
  exists (mkSemVer 1 0 0 "00001" ""), (mkSemVer 1 0 0 "0001.5" ""),
    (mkSemVer 1 0 0 "1.6" "").
  repeat split; reflexivity.
Qed.

(** C6. Build metadata does not influence comparison or equality: replacing
    the build metadata of both versions by arbitrary texts changes neither
    [Compare] nor [IsEquql] (nor the four ordering predicates), and the
    versions parsed from ["1.2.3+a"] and ["1.2.3+b"] compare equal. *)
Theorem BuildMetadata_noninterference :
  (forall (a b : SemVer) (m1 m2 : string),
      SemVer_Compare (withBuildMetadata a m1) (withBuildMetadata b m2)
        = SemVer_Compare a b /\
      IsEquql (withBuildMetadata a m1) (withBuildMetadata b m2) = IsEquql a b /\
      IsLess (withBuildMetadata a m1) (withBuildMetadata b m2) = IsLess a b /\
      IsLessOrEquql (withBuildMetadata a m1) (withBuildMetadata b m2)
        = IsLessOrEquql a b /\
      IsGrater (withBuildMetadata a m1) (withBuildMetadata b m2) = IsGrater a b /\
      IsGraterOrEquql (withBuildMetadata a m1) (withBuildMetadata b m2)
        = IsGraterOrEquql a b) /\
  (exists va vb,
      Parse "1.2.3+a" = Some (va, None) /\
      Parse "1.2.3+b" = Some (vb, None) /\
      BuildMetadata va <> BuildMetadata vb /\
      SemVer_Compare va vb = 0 /\
      IsEquql va vb = true).
Proof.
  split.
  - intros a b m1 m2. repeat split; reflexivity.
  - exists (mkSemVer 1 2 3 "" "a"), (mkSemVer 1 2 3 "" "b").
    repeat split; try reflexivity. discriminate.
Qed.

(** C8. In the chain [precedenceChain], every earlier string and every
    later string both parse, the earlier version [IsLess] than the later
    one, and the later one [IsGrater] than the earlier one. *)
Theorem precedence_chain_pairwise :
  ForallOrdPairs
    (fun s t => exists a b,
         Parse s = Some (a, None) /\ Parse t = Some (b, None) /\
         IsLess a b = true /\ IsGrater b a = true)
    precedenceChain.
Proof.
  unfold precedenceChain.
  repeat match goal with
  | |- ForallOrdPairs _ _ => constructor
  | |- Forall _ _ => constructor
  end;
    (do 2 eexists; split; [vm_compute; reflexivity|];
     split; [vm_compute; reflexivity|]; split; vm_compute; reflexivity).
Qed.

(** ** Sorting *)

(** The outcome of sorting one arrangement of the scenario, by value and by
    string. *)
Lemma Sort_scenario_permutations
  (pdqsort_partition : semverSlice -> Z -> Z -> Z -> option semverSlice) :
  Forall (fun l =>
            SortStr pdqsort_partition l = Some (sortScenario, None) /\
            parseVersions l ≫= Sort pdqsort_partition = Some sortScenarioVersions)
         (permutations sortScenario).
Proof.
  apply (bool_decide_unpack _). vm_compute. reflexivity.
Qed.

(** C7. For every permutation [l] of [sortScenario], [SortStr] succeeds and
    leaves the slice equal to [sortScenario], and [Sort] on the versions
    parsed from [l] leaves the versions of [sortScenario] in that order.
    The six elements are sorted by [insertionSort], so the result does not
    depend on what the library does with longer slices. *)
Theorem Sort_scenario
  (pdqsort_partition : semverSlice -> Z -> Z -> Z -> option semverSlice)
  (l : list string) :
  Permutation l sortScenario ->
  SortStr pdqsort_partition l = Some (sortScenario, None) /\
  parseVersions sortScenario = Some sortScenarioVersions /\
  exists vs, parseVersions l = Some vs /\
             Sort pdqsort_partition vs = Some sortScenarioVersions.
Proof.
  intros HP. symmetry in HP. apply permutations_Permutation in HP.
  pose proof (Sort_scenario_permutations pdqsort_partition) as Hall.
  rewrite Forall_forall in Hall. destruct (Hall l HP) as [Hstr Hval].
  split; [exact Hstr|]. split; [reflexivity|].
  destruct (parseVersions l) as [vs|]; [|discriminate Hval].
  exists vs. split; [reflexivity | exact Hval].
Qed.

Lemma Sort_scenario_witness :
  SortStr (fun _ _ _ _ => None)
          [ "2.0.0"; "1.0.0"; "1.0.0-beta.11"; "1.0.0-beta"; "1.0.0-alpha.1";
            "1.0.0-alpha" ]
    = Some (sortScenario, None) /\
  parseVersions sortScenario = Some sortScenarioVersions /\
  exists vs,
    parseVersions [ "2.0.0"; "1.0.0"; "1.0.0-beta.11"; "1.0.0-beta";
                    "1.0.0-alpha.1"; "1.0.0-alpha" ] = Some vs /\
    Sort (fun _ _ _ _ => None) vs = Some sortScenarioVersions.
Proof.
  apply (Sort_scenario (fun _ _ _ _ => None)
           [ "2.0.0"; "1.0.0"; "1.0.0-beta.11"; "1.0.0-beta"; "1.0.0-alpha.1";
             "1.0.0-alpha" ]).
  apply Permutation_sym. exact (Permutation_rev sortScenario).
Defined.

(** ** Round trip *)

Lemma utf8_app (rs1 rs2 : list Z) : utf8 (rs1 ++ rs2) = utf8 rs1 ++ utf8 rs2.
Proof.
  induction rs1 as [|r rs1 IH]; [reflexivity|].
  simpl. now rewrite IH, append_assoc.
Qed.

Lemma scanLoop_app (cs1 cs2 : list Z) (st : scanState) :
  scanLoop (cs1 ++ cs2) st = scanLoop cs1 st ≫= scanLoop cs2.
Proof.
  revert st. induction cs1 as [|c cs1 IH]; intros st; [reflexivity|].
  simpl. destruct (scanStep st c) as [st'|]; simpl; [apply IH | reflexivity].
Qed.

Lemma index_insert_eq {A : Type} (l : list A) (i : Z) (x y : A) :
  index l i = Some x -> index (<[Z.to_nat i := y]> l) i = Some y.
Proof.
  unfold index. rewrite length_insert.
  destruct ((0 <=? i) && (i <? Z.of_nat (length l))); [|discriminate].
  intros Hx. apply list_lookup_insert_eq. now apply lookup_lt_Some in Hx.
Qed.

Lemma index_lookup {A : Type} (l : list A) (i : Z) (x : A) :
  index l i = Some x -> l !! Z.to_nat i = Some x.
Proof.
  unfold index. now destruct ((0 <=? i) && (i <? Z.of_nat (length l))).
Qed.

(** A run of code points none of which switches the field is appended, as
    encoded, to the text of the current field. *)
Lemma scanLoop_literal (cs : list Z) :
  forall (ps : list string) (i : Z) (pre build : bool) (b : string),
    index ps i = Some b ->
    forallb (literal i pre build) cs = true ->
    scanLoop cs (mkScan ps i pre build)
    = Some (mkScan (<[Z.to_nat i := b ++ utf8 cs]> ps) i pre build).
Proof.
  induction cs as [|c cs IH]; intros ps i pre build b Hb Hlit.
  - simpl. rewrite append_nil_r, list_insert_id; [reflexivity|].
    now apply index_lookup.
  - simpl in Hlit. apply andb_prop in Hlit as [Hc Hcs].
    unfold literal in Hc.
    apply andb_prop in Hc as [[H1 H2]%andb_prop H3].
    apply negb_true_iff in H1, H2, H3.
    cbn [scanLoop]. unfold scanStep. cbn [parts partIndex didEnterPreReleasePart
      didEnterBuildMetadataPart]. rewrite H1, H2, H3.
    unfold WriteRune_at. rewrite Hb. cbn [mbind option_bind].
    rewrite (IH _ i pre build (b ++ encodeRune c)); [| |exact Hcs].
    + rewrite list_insert_insert_eq. cbn [utf8]. now rewrite append_assoc.
    + eapply index_insert_eq, Hb.
Qed.

Lemma utf8_chars (x : string) :
  string_forall (fun c => byte_val c <? 128) x = true -> utf8 (chars x) = x.
Proof.
  unfold chars. induction x as [|c x IH]; [reflexivity|].
  cbn [string_forall list_ascii_of_string map utf8].
  intros [Hc%Z.ltb_lt Hx]%andb_prop. rewrite IH by exact Hx.
  unfold encodeRune. pose proof (byte_val_range c).
  replace ((0 <=? byte_val c) && (byte_val c <=? 127)) with true
    by (symmetry; apply andb_true_iff; split; apply Z.leb_le; lia).
  now rewrite byte_of_val.
Qed.

Lemma chars_digits (x : string) :
  all_digits x = true ->
  forall i pre build,
    utf8 (chars x) = x /\
    forallb valid_rune (chars x) = true /\
    forallb (literal i pre build) (chars x) = true.
Proof.
  intros Hd i pre build. split; [|split].
  - apply utf8_chars. revert Hd. unfold all_digits.
    induction x as [|c x IH]; [reflexivity|]. simpl.
    intros [Hc Hx]%andb_prop. rewrite (IH Hx), andb_true_r.
    unfold is_digit in Hc. apply andb_prop in Hc as [_ H57%Z.leb_le].
    apply Z.ltb_lt. lia.
  - revert Hd. unfold all_digits, chars.
    induction x as [|c x IH]; [reflexivity|]. simpl.
    intros [Hc Hx]%andb_prop. rewrite (IH Hx), andb_true_r.
    unfold is_digit in Hc. apply andb_prop in Hc as [H48%Z.leb_le H57%Z.leb_le].
    unfold valid_rune, surrogateMin.
    apply orb_true_iff. left. apply andb_true_iff. split;
      [apply Z.leb_le | apply Z.ltb_lt]; lia.
  - revert Hd. unfold all_digits, chars.
    induction x as [|c x IH]; [reflexivity|]. simpl.
    intros [Hc Hx]%andb_prop. rewrite (IH Hx), andb_true_r.
    unfold is_digit in Hc. apply andb_prop in Hc as [H48%Z.leb_le H57%Z.leb_le].
    unfold literal.
    replace (byte_val c =? 46) with false by (symmetry; apply Z.eqb_neq; lia).
    replace (byte_val c =? 45) with false by (symmetry; apply Z.eqb_neq; lia).
    replace (byte_val c =? 43) with false by (symmetry; apply Z.eqb_neq; lia).
    reflexivity.
Qed.

(** The scan of the three numeric fields and their two dots. *)
Lemma scanLoop_numeric (M m p : string) (rest : list Z) :
  all_digits M = true -> all_digits m = true -> all_digits p = true ->
  scanLoop (chars M ++ 46 :: chars m ++ 46 :: chars p ++ rest) scanInit
  = scanLoop rest (mkScan [M; m; p; EmptyString; EmptyString] 2 false false).
Proof.
  intros HM Hm Hp.
  destruct (chars_digits M HM 0 false false) as (HM1 & _ & HM3).
  destruct (chars_digits m Hm 1 false false) as (Hm1 & _ & Hm3).
  destruct (chars_digits p Hp 2 false false) as (Hp1 & _ & Hp3).
  unfold scanInit. cbn [replicate].
  rewrite scanLoop_app.
  rewrite (scanLoop_literal _ _ _ _ _ EmptyString) by first [exact HM3 | reflexivity].
  cbn [mbind option_bind scanLoop]. rewrite HM1.
  unfold scanStep at 1. cbn -[scanLoop chars].
  change (0 + 1) with 1. simpl (<[_:=_]> _).
  rewrite scanLoop_app.
  rewrite (scanLoop_literal _ _ _ _ _ EmptyString) by first [exact Hm3 | reflexivity].
  cbn [mbind option_bind scanLoop]. rewrite Hm1.
  unfold scanStep at 1. cbn -[scanLoop chars].
  change (1 + 1) with 2. simpl (<[_:=_]> _).
  rewrite scanLoop_app.
  rewrite (scanLoop_literal _ _ _ _ _ EmptyString) by first [exact Hp3 | reflexivity].
  cbn [mbind option_bind scanLoop]. rewrite Hp1. reflexivity.
Qed.

Lemma encodeRune_cons (r : Z) : exists c t, encodeRune r = String c t.
Proof.
  unfold encodeRune, encode3.
  repeat match goal with
  | |- context [if ?b then _ else _] => destruct b
  end; eauto.
Qed.

Lemma plain_text_len (rs : list Z) :
  plain_text rs = true -> (len (utf8 rs) =? 0) = false.
Proof.
  destruct rs as [|r rs]; [discriminate|]. intros _. simpl.
  destruct (encodeRune_cons r) as (c & t & ->). cbn [String.append].
  rewrite len_cons. apply Z.eqb_neq. pose proof (len_nonneg (t ++ utf8 rs)). lia.
Qed.

Lemma plain_text_valid (rs : list Z) :
  plain_text rs = true -> forallb valid_rune rs = true.
Proof. destruct rs; [discriminate | auto]. Qed.

Lemma forallb_literal_pre (rs : list Z) :
  plus_free rs = true -> forallb (literal 3 true false) rs = true.
Proof.
  unfold plus_free. induction rs as [|r rs IH]; [reflexivity|]. simpl.
  intros [Hr Hrs]%andb_prop. rewrite (IH Hrs), andb_true_r.
  unfold literal. apply negb_true_iff in Hr.
  change (3 <? 2) with false. cbn [negb]. now rewrite Hr, !andb_false_r.
Qed.

Lemma forallb_literal_build (rs : list Z) (pre : bool) :
  forallb (literal 4 pre true) rs = true.
Proof.
  induction rs as [|r rs IH]; [reflexivity|]. simpl. rewrite IH, andb_true_r.
  unfold literal. change (4 <? 2) with false. cbn [negb].
  now rewrite !andb_false_r.
Qed.

(** The five field texts of a well-formed input. *)
Lemma scannedParts_assemble (M m p : string) (pre build : option (list Z)) :
  all_digits M = true -> all_digits m = true -> all_digits p = true ->
  prerelease_ok pre = true ->
  build_ok build = true ->
  scannedParts (assemble M m p (utf8 <$> pre) (utf8 <$> build))
  = [M; m; p; from_option utf8 EmptyString pre; from_option utf8 EmptyString build].
Proof.
  intros HM Hm Hp Hpre Hbuild.
  set (rest := (match pre with Some rs => 45 :: rs | None => [] end
                ++ match build with Some rs => 43 :: rs | None => [] end)%list).
  assert (Hs : assemble M m p (utf8 <$> pre) (utf8 <$> build)
               = utf8 (chars M ++ 46 :: chars m ++ 46 :: chars p ++ rest)).
  { destruct (chars_digits M HM 0 false false) as (HM1 & _ & _).
    destruct (chars_digits m Hm 0 false false) as (Hm1 & _ & _).
    destruct (chars_digits p Hp 0 false false) as (Hp1 & _ & _).
    unfold assemble, rest.
    rewrite utf8_app, HM1. cbn [utf8]. rewrite utf8_app, Hm1. cbn [utf8].
    rewrite !utf8_app, Hp1.
    change (encodeRune 46) with ".".
    destruct pre as [pre|], build as [build|]; cbn [fmap option_fmap option_map utf8];
      reflexivity. }
  assert (Hvalid : forallb valid_rune
                     (chars M ++ 46 :: chars m ++ 46 :: chars p ++ rest) = true).
  { destruct (chars_digits M HM 0 false false) as (_ & HM2 & _).
    destruct (chars_digits m Hm 0 false false) as (_ & Hm2 & _).
    destruct (chars_digits p Hp 0 false false) as (_ & Hp2 & _).
    rewrite forallb_app, HM2. cbn [forallb andb].
    rewrite forallb_app, Hm2. cbn [forallb andb].
    rewrite forallb_app, Hp2. cbn [andb]. unfold rest.
    rewrite forallb_app.
    destruct pre as [pre|], build as [build|]; cbn [from_option prerelease_ok build_ok] in Hpre, Hbuild;
      cbn [forallb andb];
      try (apply andb_prop in Hpre as [Hpre _]; apply plain_text_valid in Hpre);
      try apply plain_text_valid in Hbuild;
      rewrite ?Hpre, ?Hbuild; reflexivity. }
  unfold scannedParts, scan. rewrite Hs, (runes_utf8 _ Hvalid).
  rewrite (scanLoop_numeric M m p rest HM Hm Hp). unfold rest.
  destruct pre as [pre|], build as [build|]; cbn [from_option prerelease_ok build_ok] in Hpre, Hbuild |- *.
  - apply andb_prop in Hpre as [_ Hpf].
    cbn [app scanLoop]. unfold scanStep at 1. cbn -[scanLoop].
    rewrite scanLoop_app.
    rewrite (scanLoop_literal _ _ _ _ _ EmptyString)
      by first [exact (forallb_literal_pre _ Hpf) | reflexivity].
    cbn [mbind option_bind scanLoop]. unfold scanStep at 1. cbn -[scanLoop].
    rewrite (scanLoop_literal _ _ _ _ _ EmptyString)
      by first [apply forallb_literal_build | reflexivity].
    reflexivity.
  - apply andb_prop in Hpre as [_ Hpf].
    rewrite app_nil_r. cbn [scanLoop]. unfold scanStep at 1. cbn -[scanLoop].
    rewrite (scanLoop_literal _ _ _ _ _ EmptyString)
      by first [exact (forallb_literal_pre _ Hpf) | reflexivity].
    reflexivity.
  - cbn [app scanLoop]. unfold scanStep at 1. cbn -[scanLoop].
    rewrite (scanLoop_literal _ _ _ _ _ EmptyString)
      by first [apply forallb_literal_build | reflexivity].
    reflexivity.
  - reflexivity.
Qed.

(** C4, on the code. The round trip fails on a well-formed input with a
    leading zero: ["01.0.0"] consists of three dot-separated digit fields,
    it parses, and the version renders as ["1.0.0"]. *)
Lemma roundtrip_fails_on_leading_zero :
  assemble "01" "0" "0" None None = "01.0.0" /\
  all_digits "01" = true /\ all_digits "0" = true /\
  Parse "01.0.0" = Some (mkSemVer 1 0 0 "" "", None) /\
  SemVer_String (mkSemVer 1 0 0 "" "") = "1.0.0" /\
  ~ (exists v, Parse "01.0.0" = Some (v, None) /\ SemVer_String v = "01.0.0").
Proof.
  repeat split; try reflexivity.
  intros (v & Hv & Hs). vm_compute in Hv. injection Hv as <-.
  vm_compute in Hs. discriminate Hs.
Qed.

(** C4, amended. Let the input be [M.m.p], optionally followed by ['-'] and
    a pre-release text, optionally followed by ['+'] and a build text, where
    [M], [m], [p] are decimal numerals without superfluous leading zeros and
    of value at most [maxInt] = 2^63 - 1, the pre-release text (when
    present) is non-empty valid UTF-8 without ['+'], and the build text (when
    present) is non-empty valid UTF-8.  Then [Parse] succeeds on it and
    [String] of the parsed version is byte-identical to the input. *)
Theorem String_Parse_roundtrip (M m p : string) (pre build : option (list Z)) :
  canonical_numeral M = true ->
  canonical_numeral m = true ->
  canonical_numeral p = true ->
  prerelease_ok pre = true ->
  build_ok build = true ->
  exists v,
    Parse (assemble M m p (utf8 <$> pre) (utf8 <$> build)) = Some (v, None) /\
    SemVer_String v = assemble M m p (utf8 <$> pre) (utf8 <$> build).
Proof.
  intros HM Hm Hp Hpre Hbuild.
  pose proof HM as HM'. pose proof Hm as Hm'. pose proof Hp as Hp'.
  unfold canonical_numeral in HM', Hm', Hp'.
  apply andb_prop in HM' as [HMf _], Hm' as [Hmf _], Hp' as [Hpf _].
  assert (HMd : all_digits M = true)
    by (unfold fitsInt in HMf; apply andb_prop in HMf as [[_ ?]%andb_prop _]; assumption).
  assert (Hmd : all_digits m = true)
    by (unfold fitsInt in Hmf; apply andb_prop in Hmf as [[_ ?]%andb_prop _]; assumption).
  assert (Hpd : all_digits p = true)
    by (unfold fitsInt in Hpf; apply andb_prop in Hpf as [[_ ?]%andb_prop _]; assumption).
  exists (mkSemVer (decimal_value M) (decimal_value m) (decimal_value p)
                   (from_option utf8 EmptyString pre)
                   (from_option utf8 EmptyString build)).
  split.
  - destruct (Parse_scanned (assemble M m p (utf8 <$> pre) (utf8 <$> build)))
      as (q0 & q1 & q2 & q3 & q4 & Hq & HP).
    rewrite (scannedParts_assemble M m p pre build HMd Hmd Hpd Hpre Hbuild) in Hq.
    injection Hq as <- <- <- <- <-.
    now rewrite HP, HMf, Hmf, Hpf.
  - unfold SemVer_String. cbn [Major Minor Patch PreRelease BuildMetadata].
    rewrite !Itoa_canonical by assumption. unfold assemble.
    destruct pre as [pre|], build as [build|];
      cbn [from_option fmap option_fmap option_map prerelease_ok build_ok] in Hpre, Hbuild |- *;
      try (apply andb_prop in Hpre as [Hpre _]);
      rewrite ?(plain_text_len _ Hpre), ?(plain_text_len _ Hbuild);
      change (len EmptyString =? 0) with true; cbn [negb];
      rewrite ?append_assoc, ?append_nil_r; reflexivity.
Qed.

Lemma String_Parse_roundtrip_witness :
  exists v,
    Parse "17897798789984631.0.10-alpha-1.beta+exp.sha-5114f85+x" = Some (v, None) /\
    SemVer_String v = "17897798789984631.0.10-alpha-1.beta+exp.sha-5114f85+x".
Proof.
  exact (String_Parse_roundtrip "17897798789984631" "0" "10"
           (Some (chars "alpha-1.beta")) (Some (chars "exp.sha-5114f85+x"))
           eq_refl eq_refl eq_refl eq_refl eq_refl).
Defined.

(** ** Precedence: the results of [Compare] and of the predicates *)

Lemma cmp_Compare_three_valued {T : Type} `{Ordered T} (x y : T) :
  three_valued (cmp_Compare x y).
Proof.
  unfold cmp_Compare, three_valued.
  destruct (less x y); [auto|]. destruct (less y x); auto.
Qed.

Lemma comparePart_three_valued (t o : string) (r : Z) :
  comparePart t o = Some r -> r = -1 \/ r = 1.
Proof.
  unfold comparePart, mayParseDigit.
  destruct (Atoi t) as [x|], (Atoi o) as [y|]; simpl.
  - destruct (Z.eqb_spec x y); [discriminate|]. intros [= <-].
    unfold cmp_Compare, less, Ordered_int.
    destruct (Z.ltb_spec x y); [auto|]. destruct (Z.ltb_spec y x); [auto|lia].
  - intros [= <-]. auto.
  - intros [= <-]. auto.
  - destruct (Z.eqb_spec (cmp_Compare t o) 0); [discriminate|]. intros [= <-].
    destruct (cmp_Compare_three_valued t o) as [?|[?|?]]; auto. contradiction.
Qed.

Lemma comparePreRelease_loop_three_valued (this other : list string) (r : Z) :
  comparePreRelease_loop this other = Some r -> r = -1 \/ r = 1.
Proof.
  revert other. induction this as [|t this IH]; intros [|o other]; try discriminate.
  simpl. destruct (comparePart t o) as [r'|] eqn:Hp.
  - intros [= <-]. eapply comparePart_three_valued, Hp.
  - apply IH.
Qed.

Lemma comparePreRelease_three_valued (a b : SemVer) :
  three_valued (comparePreRelease a b).
Proof.
  unfold comparePreRelease, three_valued.
  destruct (len (PreRelease a) =? 0), (len (PreRelease b) =? 0); simpl; auto.
  destruct (comparePreRelease_loop _ _) as [r|] eqn:Hl.
  - apply comparePreRelease_loop_three_valued in Hl. tauto.
  - apply cmp_Compare_three_valued.
Qed.

Lemma firstNonZero_three_valued (l : list Z) :
  Forall three_valued l -> three_valued (firstNonZero l (fun result => result) 0).
Proof.
  induction 1 as [|x l Hx Hl IH]; simpl; [right; left; reflexivity|].
  destruct (x =? 0); assumption.
Qed.

(** X1. [Compare] returns -1, 0 or 1, whatever the two versions. *)
Theorem SemVer_Compare_three_valued (a b : SemVer) :
  SemVer_Compare a b = -1 \/ SemVer_Compare a b = 0 \/ SemVer_Compare a b = 1.
Proof.
  apply firstNonZero_three_valued. unfold generateCompareToOtherResult.
  repeat apply List.Forall_cons; try apply List.Forall_nil;
    first [apply cmp_Compare_three_valued | apply comparePreRelease_three_valued].
Qed.

(** X2. Each of the four order predicates, which the source writes as its
    own loop over the list of field comparisons, is the corresponding test
    on the sign of [Compare]. *)
Theorem predicates_follow_Compare (a b : SemVer) :
  IsLess a b = (SemVer_Compare a b <? 0) /\
  IsLessOrEquql a b = (SemVer_Compare a b <=? 0) /\
  IsGrater a b = (SemVer_Compare a b >? 0) /\
  IsGraterOrEquql a b = (SemVer_Compare a b >=? 0).
Proof.
  auto using IsLess_Compare, IsLessOrEquql_Compare, IsGrater_Compare,
    IsGraterOrEquql_Compare.
Qed.

(** X3. [IsGrater] and [IsGraterOrEquql] are [IsLess] and [IsLessOrEquql]
    with the arguments exchanged, and each non-strict predicate is the
    negation of the opposite strict one. *)
Theorem predicates_duality (a b : SemVer) :
  IsGrater a b = IsLess b a /\
  IsGraterOrEquql a b = IsLessOrEquql b a /\
  IsLessOrEquql a b = negb (IsGrater a b) /\
  IsGraterOrEquql a b = negb (IsLess a b).
Proof.
  rewrite !IsLess_Compare, !IsLessOrEquql_Compare, !IsGrater_Compare,
    !IsGraterOrEquql_Compare, (SemVer_Compare_antisym a b).
  rewrite Z.gtb_ltb, Z.geb_leb.
  destruct (Z.ltb_spec 0 (SemVer_Compare a b)), (Z.ltb_spec (- SemVer_Compare a b) 0),
    (Z.leb_spec 0 (SemVer_Compare a b)), (Z.leb_spec (- SemVer_Compare a b) 0),
    (Z.leb_spec (SemVer_Compare a b) 0), (Z.ltb_spec (SemVer_Compare a b) 0);
    simpl; repeat split; try reflexivity; lia.
Qed.

Lemma cmp_Compare_int_lt (x y : Z) : x < y -> cmp_Compare x y = -1.
Proof.
  intros Hlt. unfold cmp_Compare, less, Ordered_int.
  now replace (x <? y) with true by (symmetry; apply Z.ltb_lt; lia).
Qed.

Lemma cmp_Compare_int_gt (x y : Z) : y < x -> cmp_Compare x y = 1.
Proof.
  intros Hlt. rewrite (cmp_Compare_int_antisym y x), (cmp_Compare_int_lt y x Hlt).
  reflexivity.
Qed.

Lemma Compare_numbers_lt (a b : SemVer) :
  numbers_lt a b -> SemVer_Compare a b = -1.
Proof.
  intros Hlex. unfold SemVer_Compare, generateCompareToOtherResult.
  destruct Hlex as [H1|[H1 [H2|[H2 H3]]]].
  - now rewrite (cmp_Compare_int_lt _ _ H1).
  - now rewrite H1, cmp_Compare_int_refl, (cmp_Compare_int_lt _ _ H2).
  - now rewrite H1, H2, !cmp_Compare_int_refl, (cmp_Compare_int_lt _ _ H3).
Qed.

Lemma Compare_same_numbers (a b : SemVer) :
  same_numbers a b -> SemVer_Compare a b = comparePreRelease a b.
Proof.
  intros (H1 & H2 & H3). unfold SemVer_Compare, generateCompareToOtherResult.
  rewrite H1, H2, H3, !cmp_Compare_int_refl. simpl.
  destruct (comparePreRelease a b =? 0) eqn:He; [|reflexivity].
  symmetry. now apply Z.eqb_eq.
Qed.

Lemma numbers_trichotomy (a b : SemVer) :
  numbers_lt a b \/ same_numbers a b \/ numbers_lt b a.
Proof. unfold numbers_lt, same_numbers. lia. Qed.

Lemma comparePreRelease_release_l (a b : SemVer) :
  IsPreRelease a = false ->
  comparePreRelease a b = if IsPreRelease b then 1 else 0.
Proof.
  unfold IsPreRelease, comparePreRelease. intros Ha%negb_false_iff.
  rewrite Ha. simpl. now destruct (len (PreRelease b) =? 0).
Qed.

Lemma comparePreRelease_release_r (a b : SemVer) :
  IsPreRelease b = false ->
  comparePreRelease a b = if IsPreRelease a then -1 else 0.
Proof.
  unfold IsPreRelease, comparePreRelease. intros Hb%negb_false_iff.
  rewrite Hb, orb_true_r, andb_true_r. now destruct (len (PreRelease a) =? 0).
Qed.

Lemma IsEquql_fields (a b : SemVer) :
  IsEquql a b = true ->
  Major a = Major b /\ Minor a = Minor b /\ Patch a = Patch b /\
  PreRelease a = PreRelease b.
Proof.
  unfold IsEquql.
  intros [[[H1%Z.eqb_eq H2%Z.eqb_eq]%andb_prop H3%Z.eqb_eq]%andb_prop
            H4%String.eqb_eq]%andb_prop.
  auto.
Qed.

Lemma IsEquql_Compare_zero (a b : SemVer) :
  IsEquql a b = true -> SemVer_Compare a b = 0.
Proof.
  intros (H1 & H2 & H3 & H4)%IsEquql_fields.
  rewrite (Compare_same_numbers a b) by (unfold same_numbers; auto).
  unfold comparePreRelease. rewrite H4.
  fold (comparePreRelease b b). apply comparePreRelease_refl.
Qed.

(** X4. Two versions that [IsEquql] accepts compare as equal: [Compare]
    gives 0, both non-strict predicates hold and both strict ones fail. *)
Theorem IsEquql_Compare (a b : SemVer) :
  IsEquql a b = true ->
  SemVer_Compare a b = 0 /\
  IsLessOrEquql a b = true /\ IsGraterOrEquql a b = true /\
  IsLess a b = false /\ IsGrater a b = false.
Proof.
  intros Hc%IsEquql_Compare_zero.
  rewrite IsLess_Compare, IsLessOrEquql_Compare, IsGrater_Compare,
    IsGraterOrEquql_Compare, Hc.
  repeat split; reflexivity.
Qed.

Lemma IsEquql_Compare_witness :
  SemVer_Compare (mkSemVer 1 2 3 "rc.1" "x") (mkSemVer 1 2 3 "rc.1" "y") = 0 /\
  IsLessOrEquql (mkSemVer 1 2 3 "rc.1" "x") (mkSemVer 1 2 3 "rc.1" "y") = true /\
  IsGraterOrEquql (mkSemVer 1 2 3 "rc.1" "x") (mkSemVer 1 2 3 "rc.1" "y") = true /\
  IsLess (mkSemVer 1 2 3 "rc.1" "x") (mkSemVer 1 2 3 "rc.1" "y") = false /\
  IsGrater (mkSemVer 1 2 3 "rc.1" "x") (mkSemVer 1 2 3 "rc.1" "y") = false.
Proof.
  apply (IsEquql_Compare (mkSemVer 1 2 3 "rc.1" "x") (mkSemVer 1 2 3 "rc.1" "y")).
  reflexivity.
Defined.

(** X5. The converse fails: there are two inputs that [Parse] accepts and
    that [Compare] (on versions and on strings) finds equal, while [IsEquql]
    tells them apart.  Their pre-release identifiers have the same numeric
    value and the same length but different texts. *)
Theorem Compare_zero_not_IsEquql :
  exists (s1 s2 : string) (a b : SemVer),
    Parse s1 = Some (a, None) /\ Parse s2 = Some (b, None) /\
    SemVer_Compare a b = 0 /\ Compare s1 s2 = Some (0, None) /\
    IsEquql a b = false.
Proof.
  exists "1.0.0-00", "1.0.0--0", (mkSemVer 1 0 0 "00" ""), (mkSemVer 1 0 0 "-0" "").
  repeat split; reflexivity.
Qed.

(** X6. With the same major, minor and patch numbers, a pre-release is
    below the release. *)
Theorem prerelease_below_release (a b : SemVer) :
  Major a = Major b -> Minor a = Minor b -> Patch a = Patch b ->
  IsPreRelease a = true -> IsPreRelease b = false ->
  SemVer_Compare a b = -1 /\ IsLess a b = true /\ IsGrater b a = true.
Proof.
  intros H1 H2 H3 Ha Hb.
  assert (Hc : SemVer_Compare a b = -1).
  { unfold SemVer_Compare, generateCompareToOtherResult.
    rewrite H1, H2, H3, !cmp_Compare_int_refl. simpl.
    unfold IsPreRelease in Ha, Hb. apply negb_true_iff in Ha.
    apply negb_false_iff in Hb. unfold comparePreRelease.
    rewrite Ha, Hb. reflexivity. }
  split; [exact Hc|]. split.
  - rewrite IsLess_Compare, Hc. reflexivity.
  - rewrite IsGrater_Compare, (SemVer_Compare_antisym a b), Hc. reflexivity.
Qed.

Lemma prerelease_below_release_witness :
  SemVer_Compare (mkSemVer 1 0 0 "alpha" "") (mkSemVer 1 0 0 "" "") = -1 /\
  IsLess (mkSemVer 1 0 0 "alpha" "") (mkSemVer 1 0 0 "" "") = true /\
  IsGrater (mkSemVer 1 0 0 "" "") (mkSemVer 1 0 0 "alpha" "") = true.
Proof.
  apply (prerelease_below_release (mkSemVer 1 0 0 "alpha" "") (mkSemVer 1 0 0 "" ""));
    reflexivity.
Defined.

(** X7. The major, minor and patch numbers decide first, in this order: a
    version whose numbers are lexicographically smaller is below the other
    one, whatever the pre-release and build texts of the two. *)
Theorem numeric_fields_decide (a b : SemVer) :
  Major a < Major b \/
  (Major a = Major b /\
   (Minor a < Minor b \/ (Minor a = Minor b /\ Patch a < Patch b))) ->
  SemVer_Compare a b = -1 /\ SemVer_Compare b a = 1.
Proof.
  intros Hlex. pose proof (Compare_numbers_lt a b Hlex) as Hc.
  split; [exact Hc|]. rewrite (SemVer_Compare_antisym a b), Hc. reflexivity.
Qed.

Lemma numeric_fields_decide_witness :
  SemVer_Compare (mkSemVer 1 2 3 "" "") (mkSemVer 1 3 0 "rc" "") = -1 /\
  SemVer_Compare (mkSemVer 1 3 0 "rc" "") (mkSemVer 1 2 3 "" "") = 1.
Proof.
  apply (numeric_fields_decide (mkSemVer 1 2 3 "" "") (mkSemVer 1 3 0 "rc" "")).
  simpl. lia.
Defined.

(** X8. With the same numbers, when the pre-release identifiers of [a]
    are, text for text, a proper prefix of those of [b], the version with
    more identifiers is the greater one. *)
Theorem proper_prefix_precedence (a b : SemVer) (x : string) (xs : list string) :
  Major a = Major b -> Minor a = Minor b -> Patch a = Patch b ->
  PreRelease a <> EmptyString ->
  strings_Split (PreRelease b) "." = (strings_Split (PreRelease a) "." ++ x :: xs)%list ->
  SemVer_Compare a b = -1 /\ IsLess a b = true /\ SemVer_Compare b a = 1.
Proof.
  intros H1 H2 H3 Hne Hsplit.
  destruct (comparePreRelease_proper_prefix a b x xs Hne Hsplit) as [Hab _].
  assert (Hc : SemVer_Compare a b = -1).
  { rewrite (Compare_same_numbers a b) by (unfold same_numbers; auto). exact Hab. }
  split; [exact Hc|]. split.
  - rewrite IsLess_Compare, Hc. reflexivity.
  - rewrite (SemVer_Compare_antisym a b), Hc. reflexivity.
Qed.

Lemma proper_prefix_precedence_witness :
  SemVer_Compare (mkSemVer 1 0 0 "alpha" "") (mkSemVer 1 0 0 "alpha.1" "") = -1 /\
  IsLess (mkSemVer 1 0 0 "alpha" "") (mkSemVer 1 0 0 "alpha.1" "") = true /\
  SemVer_Compare (mkSemVer 1 0 0 "alpha.1" "") (mkSemVer 1 0 0 "alpha" "") = 1.
Proof.
  apply (proper_prefix_precedence
           (mkSemVer 1 0 0 "alpha" "") (mkSemVer 1 0 0 "alpha.1" "") "1" []);
    [reflexivity | reflexivity | reflexivity | discriminate | reflexivity].
Defined.

Lemma IsPreRelease_len (a : SemVer) :
  IsPreRelease a = true -> (len (PreRelease a) =? 0) = false.
Proof. unfold IsPreRelease. now intros H%negb_true_iff. Qed.

(** When one identifier is below another. *)
Lemma comparePart_lt_iff (x y : string) :
  comparePart x y = Some (-1) <->
  match Atoi x, Atoi y with
  | Some a, Some b => a < b
  | Some _, None => True
  | None, Some _ => False
  | None, None => String.compare x y = Lt
  end.
Proof.
  unfold comparePart, mayParseDigit.
  destruct (Atoi x) as [a|], (Atoi y) as [b|]; simpl.
  - destruct (Z.eqb_spec a b) as [->|Hne]; [split; [discriminate | lia]|].
    destruct (Z.lt_trichotomy a b) as [Hlt|[Heq|Hgt]]; [|contradiction|].
    + rewrite (cmp_Compare_int_lt a b Hlt). tauto.
    + rewrite (cmp_Compare_int_gt a b Hgt). split; [discriminate | lia].
  - tauto.
  - split; [discriminate | tauto].
  - rewrite cmp_Compare_string_cases.
    destruct (String.compare x y); simpl; split; auto; discriminate.
Qed.

Lemma comparePart_spec (x y : string) :
  comparePart x y = if ident_eqb x y then None else Some (ident_compare x y).
Proof.
  unfold comparePart, mayParseDigit, ident_eqb, ident_compare.
  destruct (Atoi x) as [n|], (Atoi y) as [k|]; cbn; try reflexivity.
  destruct (String.eqb_spec x y) as [->|Hne].
  - now rewrite cmp_Compare_string_refl.
  - rewrite cmp_Compare_string_cases.
    destruct (String.compare x y) eqn:Hc; try reflexivity.
    now apply String.compare_eq_iff in Hc.
Qed.

(** The loop passes over the positions at which the identifiers are equal
    as identifiers. *)
Lemma comparePreRelease_loop_equal_prefix (l1 l2 r1 r2 : list string) :
  Forall2 (fun u v => ident_eqb u v = true) l1 l2 ->
  comparePreRelease_loop (l1 ++ r1)%list (l2 ++ r2)%list
  = comparePreRelease_loop r1 r2.
Proof.
  induction 1 as [|u v l1 l2 Huv _ IH]; [reflexivity|].
  cbn [app comparePreRelease_loop]. now rewrite comparePart_spec, Huv.
Qed.

(** X9. Between two pre-releases with the same numbers, the first position
    at which the identifiers are not equal as identifiers decides.  Two
    identifiers are equal as identifiers ([ident_eqb]) when both are numeric
    with the same value (["1"] and ["01"], say) or both are non-numeric with
    the same text.  At the deciding position ([ident_compare]) two numeric
    identifiers are ordered by their values, a numeric one is below a
    non-numeric one, and two non-numeric ones are ordered by the bytes of
    their texts; the identifiers after that position are not looked at. *)
Theorem first_difference_decides
  (a b : SemVer) (l1 l2 xs ys : list string) (x y : string) :
  Major a = Major b -> Minor a = Minor b -> Patch a = Patch b ->
  IsPreRelease a = true -> IsPreRelease b = true ->
  strings_Split (PreRelease a) "." = (l1 ++ x :: xs)%list ->
  strings_Split (PreRelease b) "." = (l2 ++ y :: ys)%list ->
  Forall2 (fun u v => ident_eqb u v = true) l1 l2 ->
  ident_eqb x y = false ->
  SemVer_Compare a b = ident_compare x y /\
  SemVer_Compare b a = - ident_compare x y /\
  (ident_compare x y = -1 \/ ident_compare x y = 1).
Proof.
  intros H1 H2 H3 Pa Pb Ha Hb Hl Hxy.
  assert (Hp : comparePart x y = Some (ident_compare x y))
    by now rewrite comparePart_spec, Hxy.
  assert (Hc : SemVer_Compare a b = ident_compare x y).
  { rewrite (Compare_same_numbers a b) by (unfold same_numbers; auto).
    unfold comparePreRelease.
    rewrite (IsPreRelease_len a Pa), (IsPreRelease_len b Pb). cbn [orb].
    rewrite Ha, Hb, (comparePreRelease_loop_equal_prefix _ _ _ _ Hl).
    cbn [comparePreRelease_loop]. now rewrite Hp. }
  split; [exact Hc|]. split.
  - now rewrite (SemVer_Compare_antisym a b), Hc.
  - exact (comparePart_three_valued x y _ Hp).
Qed.

Lemma first_difference_decides_witness :
  SemVer_Compare (mkSemVer 1 0 0 "rc.1.z.9" "") (mkSemVer 1 0 0 "rc.01.a" "")
  = ident_compare "z" "a" /\
  SemVer_Compare (mkSemVer 1 0 0 "rc.01.a" "") (mkSemVer 1 0 0 "rc.1.z.9" "")
  = - ident_compare "z" "a" /\
  (ident_compare "z" "a" = -1 \/ ident_compare "z" "a" = 1).
Proof.
  apply (first_difference_decides
           (mkSemVer 1 0 0 "rc.1.z.9" "") (mkSemVer 1 0 0 "rc.01.a" "")
           ["rc"; "1"] ["rc"; "01"] ["9"] [] "z" "a");
    [reflexivity | reflexivity | reflexivity | reflexivity | reflexivity
    | reflexivity | reflexivity | repeat constructor | reflexivity].
Defined.

(** ** Precedence: where [Compare] is an order *)

(** [Compare] is transitive on three versions as soon as the comparison of
    their pre-releases is, should their numbers all be the same. *)
Lemma SemVer_Compare_trans_from_prerelease (a b c : SemVer) :
  (same_numbers a b -> same_numbers b c -> prerelease_transitive a b c) ->
  SemVer_Compare a b <= 0 -> SemVer_Compare b c <= 0 ->
  SemVer_Compare a c <= 0 /\
  (SemVer_Compare a c = 0 -> SemVer_Compare a b = 0 /\ SemVer_Compare b c = 0).
Proof.
  intros Hpre Hab Hbc.
  destruct (numbers_trichotomy a b) as [Lab|[Eab|Gab]];
    [| |rewrite (SemVer_Compare_antisym b a), (Compare_numbers_lt _ _ Gab) in Hab; lia].
  - destruct (numbers_trichotomy b c) as [Lbc|[Ebc|Gbc]];
      [| |rewrite (SemVer_Compare_antisym c b), (Compare_numbers_lt _ _ Gbc) in Hbc; lia].
    + rewrite (Compare_numbers_lt a c) by (unfold numbers_lt in *; lia). lia.
    + rewrite (Compare_numbers_lt a c)
        by (unfold numbers_lt, same_numbers in *; lia). lia.
  - destruct (numbers_trichotomy b c) as [Lbc|[Ebc|Gbc]];
      [| |rewrite (SemVer_Compare_antisym c b), (Compare_numbers_lt _ _ Gbc) in Hbc; lia].
    + rewrite (Compare_numbers_lt a c)
        by (unfold numbers_lt, same_numbers in *; lia). lia.
    + assert (Eac : same_numbers a c) by (unfold same_numbers in *; lia).
      rewrite (Compare_same_numbers _ _ Eab) in *.
      rewrite (Compare_same_numbers _ _ Ebc) in *.
      rewrite (Compare_same_numbers _ _ Eac).
      exact (Hpre Eab Ebc Hab Hbc).
Qed.

Lemma prerelease_transitive_release (a b c : SemVer) :
  ~ (IsPreRelease a = true /\ IsPreRelease b = true /\ IsPreRelease c = true) ->
  prerelease_transitive a b c.
Proof.
  intros Hout Hab Hbc.
  destruct (IsPreRelease a) eqn:Pa.
  - destruct (IsPreRelease c) eqn:Pc.
    + destruct (IsPreRelease b) eqn:Pb; [tauto|].
      rewrite (comparePreRelease_release_l b c Pb), Pc in Hbc. lia.
    + rewrite (comparePreRelease_release_r a c Pc), Pa. lia.
  - rewrite (comparePreRelease_release_l a b Pa) in Hab |- *.
    destruct (IsPreRelease b) eqn:Pb; [lia|].
    rewrite (comparePreRelease_release_l b c Pb) in Hbc |- *.
    destruct (IsPreRelease c) eqn:Pc; [lia|].
    rewrite (comparePreRelease_release_l a c Pa), Pc. lia.
Qed.

(** X10. [Compare] is transitive on every three versions, except possibly
    when all three have the same numbers and all three are pre-releases:
    from [a <= b] and [b <= c] follows [a <= c], and [a] and [c] compare as
    equal only when all three do. *)
Theorem Compare_transitive_outside_prereleases (a b c : SemVer) :
  ~ (same_numbers a b /\ same_numbers b c /\
     IsPreRelease a = true /\ IsPreRelease b = true /\ IsPreRelease c = true) ->
  SemVer_Compare a b <= 0 -> SemVer_Compare b c <= 0 ->
  SemVer_Compare a c <= 0 /\
  (SemVer_Compare a c = 0 -> SemVer_Compare a b = 0 /\ SemVer_Compare b c = 0).
Proof.
  intros Hout. apply SemVer_Compare_trans_from_prerelease.
  intros Eab Ebc. apply prerelease_transitive_release. tauto.
Qed.

Lemma Compare_transitive_outside_prereleases_witness :
  SemVer_Compare (mkSemVer 1 0 0 "rc" "") (mkSemVer 1 0 1 "a" "") <= 0 /\
  (SemVer_Compare (mkSemVer 1 0 0 "rc" "") (mkSemVer 1 0 1 "a" "") = 0 ->
   SemVer_Compare (mkSemVer 1 0 0 "rc" "") (mkSemVer 1 0 0 "" "") = 0 /\
   SemVer_Compare (mkSemVer 1 0 0 "" "") (mkSemVer 1 0 1 "a" "") = 0).
Proof.
  apply (Compare_transitive_outside_prereleases
           (mkSemVer 1 0 0 "rc" "") (mkSemVer 1 0 0 "" "") (mkSemVer 1 0 1 "a" "")).
  - intros (_ & _ & _ & H & _). vm_compute in H. discriminate H.
  - vm_compute. discriminate.
  - vm_compute. discriminate.
Defined.

Lemma Ascii_compare_refl (c : ascii) : Ascii.compare c c = Eq.
Proof. unfold Ascii.compare. apply N.compare_refl. Qed.

Lemma String_compare_lt_trans (s1 : string) :
  forall s2 s3,
    String.compare s1 s2 = Lt -> String.compare s2 s3 = Lt ->
    String.compare s1 s3 = Lt.
Proof.
  induction s1 as [|c1 s1 IH]; intros [|c2 s2] [|c3 s3]; simpl;
    try discriminate; try reflexivity.
  destruct (Ascii.compare c1 c2) eqn:H12; try discriminate;
    destruct (Ascii.compare c2 c3) eqn:H23; try discriminate; intros Ha Hb.
  - apply Ascii.compare_eq_iff in H12, H23. subst.
    rewrite Ascii_compare_refl. eapply IH; eauto.
  - apply Ascii.compare_eq_iff in H12. subst. now rewrite H23.
  - apply Ascii.compare_eq_iff in H23. subst. now rewrite H12.
  - unfold Ascii.compare in *. rewrite N.compare_lt_iff in *.
    replace (N_of_ascii c1 ?= N_of_ascii c3)%N with Lt; [reflexivity|].
    symmetry. apply N.compare_lt_iff. lia.
Qed.

Lemma comparePart_lt_trans (x y z : string) :
  comparePart x y = Some (-1) -> comparePart y z = Some (-1) ->
  comparePart x z = Some (-1).
Proof.
  rewrite !comparePart_lt_iff.
  destruct (Atoi x), (Atoi y), (Atoi z); try tauto; try lia.
  apply String_compare_lt_trans.
Qed.

Lemma comparePart_None_canonical (x y : string) :
  ident_canonical x = true -> ident_canonical y = true ->
  comparePart x y = None -> x = y.
Proof.
  unfold ident_canonical, comparePart, mayParseDigit.
  destruct (Atoi x) as [a|], (Atoi y) as [b|]; simpl; try discriminate.
  - intros Hx%String.eqb_eq Hy%String.eqb_eq.
    destruct (Z.eqb_spec a b) as [->|]; [congruence | discriminate].
  - intros _ _. rewrite cmp_Compare_string_cases.
    destruct (String.compare x y) eqn:Hc; try discriminate.
    intros _. now apply String.compare_eq_iff.
Qed.

Lemma comparePart_cases (x y : string) :
  comparePart x y = None \/ comparePart x y = Some (-1) \/ comparePart x y = Some 1.
Proof.
  destruct (comparePart x y) as [r|] eqn:H; [|auto].
  destruct (comparePart_three_valued x y r H) as [->| ->]; auto.
Qed.

Lemma compare_idents_cons (x y : string) (l1 l2 : list string) :
  compare_idents (x :: l1) (y :: l2)
  = match comparePart x y with
    | Some r => r
    | None => compare_idents l1 l2
    end.
Proof.
  unfold compare_idents. cbn [comparePreRelease_loop].
  destruct (comparePart x y); [reflexivity|].
  destruct (comparePreRelease_loop l1 l2); [reflexivity|].
  cbn [length]. unfold cmp_Compare, less, Ordered_int.
  destruct (Z.ltb_spec (Z.of_nat (length l1)) (Z.of_nat (length l2))),
    (Z.ltb_spec (Z.of_nat (S (length l1))) (Z.of_nat (S (length l2)))),
    (Z.ltb_spec (Z.of_nat (length l2)) (Z.of_nat (length l1))),
    (Z.ltb_spec (Z.of_nat (S (length l2))) (Z.of_nat (S (length l1))));
    reflexivity || lia.
Qed.

Lemma compare_idents_nil_l (l : list string) : compare_idents [] l <= 0.
Proof.
  unfold compare_idents. simpl. unfold cmp_Compare, less, Ordered_int.
  destruct l; simpl; [reflexivity|]. lia.
Qed.

Lemma compare_idents_nil_r (x : string) (l : list string) :
  compare_idents (x :: l) [] = 1.
Proof. reflexivity. Qed.

Lemma compare_idents_trans (l1 : list string) :
  forall l2 l3,
    Forall (fun x => ident_canonical x = true) l1 ->
    Forall (fun x => ident_canonical x = true) l2 ->
    Forall (fun x => ident_canonical x = true) l3 ->
    compare_idents l1 l2 <= 0 -> compare_idents l2 l3 <= 0 ->
    compare_idents l1 l3 <= 0 /\
    (compare_idents l1 l3 = 0 -> compare_idents l1 l2 = 0 /\ compare_idents l2 l3 = 0).
Proof.
  induction l1 as [|x l1 IH]; intros l2 l3 C1 C2 C3 H12 H23.
  - split; [apply compare_idents_nil_l|].
    destruct l3 as [|z l3]; [|discriminate].
    destruct l2 as [|y l2]; [auto|]. rewrite compare_idents_nil_r in H23. lia.
  - destruct l2 as [|y l2]; [rewrite compare_idents_nil_r in H12; lia|].
    destruct l3 as [|z l3]; [rewrite compare_idents_nil_r in H23; lia|].
    apply Forall_cons in C1 as [Cx C1], C2 as [Cy C2], C3 as [Cz C3].
    rewrite !compare_idents_cons in *.
    destruct (comparePart_cases x y) as [Exy|[Lxy|Gxy]];
      [| |rewrite Gxy in H12; lia].
    + pose proof (comparePart_None_canonical x y Cx Cy Exy) as <-.
      rewrite Exy in *.
      destruct (comparePart x z) as [r|] eqn:Hxz.
      * split; [exact H23|].
        destruct (comparePart_three_valued x z r Hxz); lia.
      * exact (IH l2 l3 C1 C2 C3 H12 H23).
    + rewrite Lxy in *.
      destruct (comparePart_cases y z) as [Eyz|[Lyz|Gyz]];
        [| |rewrite Gyz in H23; lia].
      * pose proof (comparePart_None_canonical y z Cy Cz Eyz) as <-.
        rewrite Lxy. lia.
      * rewrite (comparePart_lt_trans x y z Lxy Lyz). lia.
Qed.

Lemma compare_idents_eq (l1 : list string) :
  forall l2,
    Forall (fun x => ident_canonical x = true) l1 ->
    Forall (fun x => ident_canonical x = true) l2 ->
    compare_idents l1 l2 = 0 -> l1 = l2.
Proof.
  induction l1 as [|x l1 IH]; intros [|y l2] C1 C2 H; try reflexivity;
    try discriminate.
  apply Forall_cons in C1 as [Cx C1], C2 as [Cy C2].
  rewrite compare_idents_cons in H.
  destruct (comparePart_cases x y) as [E|[L|G]].
  - rewrite E in H. f_equal; [now apply comparePart_None_canonical | now apply IH].
  - rewrite L in H. discriminate.
  - rewrite G in H. discriminate.
Qed.

Lemma comparePreRelease_loop_None_prefix (l1 : list string) :
  forall l2,
    Forall (fun x => ident_canonical x = true) l1 ->
    Forall (fun x => ident_canonical x = true) l2 ->
    comparePreRelease_loop l1 l2 = None ->
    (exists e, l2 = (l1 ++ e)%list) \/ (exists e, l1 = (l2 ++ e)%list).
Proof.
  induction l1 as [|x l1 IH]; intros [|y l2] C1 C2 H.
  - left. now exists [].
  - left. now exists (y :: l2).
  - right. now exists (x :: l1).
  - apply Forall_cons in C1 as [Cx C1], C2 as [Cy C2]. simpl in H.
    destruct (comparePart x y) eqn:Hxy; [discriminate|].
    pose proof (comparePart_None_canonical x y Cx Cy Hxy) as <-.
    destruct (IH l2 C1 C2 H) as [(e & ->)|(e & ->)]; [left | right]; now exists e.
Qed.

Lemma len_zero (s : string) : len s = 0 -> s = EmptyString.
Proof.
  destruct s; [reflexivity|]. rewrite len_cons. pose proof (len_nonneg s). lia.
Qed.

Lemma len_split_prefix (s t : string) (x : string) (xs : list string) :
  strings_Split t "." = (strings_Split s "." ++ x :: xs)%list -> len s < len t.
Proof.
  intros Hsplit.
  rewrite <- (strings_Split_join s), <- (strings_Split_join t), Hsplit.
  apply len_join_dots_app, split_from_not_nil.
Qed.

Lemma canonical_Forall (a : SemVer) :
  prerelease_canonical a = true ->
  Forall (fun x => ident_canonical x = true) (strings_Split (PreRelease a) ".").
Proof.
  unfold prerelease_canonical. rewrite forallb_forall. intros H.
  now apply List.Forall_forall.
Qed.

(** On pre-releases with canonical identifiers the byte-length tie-break
    and the identifier-count tie-break agree. *)
Lemma comparePreRelease_canonical (a b : SemVer) :
  IsPreRelease a = true -> IsPreRelease b = true ->
  prerelease_canonical a = true -> prerelease_canonical b = true ->
  comparePreRelease a b
  = compare_idents (strings_Split (PreRelease a) ".") (strings_Split (PreRelease b) ".").
Proof.
  intros Pa Pb Ca Cb. unfold comparePreRelease, compare_idents.
  rewrite (IsPreRelease_len a Pa), (IsPreRelease_len b Pb). cbn [orb].
  destruct (comparePreRelease_loop _ _) eqn:Hloop; [reflexivity|].
  apply canonical_Forall in Ca, Cb.
  destruct (comparePreRelease_loop_None_prefix _ _ Ca Cb Hloop)
    as [([|x xs] & He)|([|x xs] & He)].
  - rewrite app_nil_r in He.
    assert (Heq : PreRelease a = PreRelease b)
      by (rewrite <- (strings_Split_join (PreRelease a)),
            <- (strings_Split_join (PreRelease b)), He; reflexivity).
    now rewrite He, Heq, !cmp_Compare_int_refl.
  - rewrite (cmp_Compare_int_lt _ _ (len_split_prefix _ _ _ _ He)).
    rewrite He, length_app. cbn [length].
    symmetry. apply cmp_Compare_int_lt. lia.
  - rewrite app_nil_r in He.
    assert (Heq : PreRelease a = PreRelease b)
      by (rewrite <- (strings_Split_join (PreRelease a)),
            <- (strings_Split_join (PreRelease b)), He; reflexivity).
    now rewrite He, Heq, !cmp_Compare_int_refl.
  - rewrite (cmp_Compare_int_gt _ _ (len_split_prefix _ _ _ _ He)).
    rewrite He, length_app. cbn [length].
    symmetry. apply cmp_Compare_int_gt. lia.
Qed.

Lemma SemVer_Compare_trans_canonical (a b c : SemVer) :
  prerelease_canonical a = true -> prerelease_canonical b = true ->
  prerelease_canonical c = true ->
  SemVer_Compare a b <= 0 -> SemVer_Compare b c <= 0 ->
  SemVer_Compare a c <= 0 /\
  (SemVer_Compare a c = 0 -> SemVer_Compare a b = 0 /\ SemVer_Compare b c = 0).
Proof.
  intros Ca Cb Cc. apply SemVer_Compare_trans_from_prerelease.
  intros _ _.
  destruct (IsPreRelease a) eqn:Pa;
    [|apply prerelease_transitive_release; intros (? & _); congruence].
  destruct (IsPreRelease b) eqn:Pb;
    [|apply prerelease_transitive_release; intros (_ & ? & _); congruence].
  destruct (IsPreRelease c) eqn:Pc;
    [|apply prerelease_transitive_release; intros (_ & _ & ?); congruence].
  unfold prerelease_transitive.
  rewrite (comparePreRelease_canonical a b), (comparePreRelease_canonical b c),
    (comparePreRelease_canonical a c) by assumption.
  apply compare_idents_trans; now apply canonical_Forall.
Qed.

Lemma SemVer_Compare_zero_canonical (a b : SemVer) :
  prerelease_canonical a = true -> prerelease_canonical b = true ->
  SemVer_Compare a b = 0 -> IsEquql a b = true.
Proof.
  intros Ca Cb Hc.
  destruct (numbers_trichotomy a b) as [L|[E|G]];
    [rewrite (Compare_numbers_lt a b L) in Hc; discriminate| |
     rewrite (SemVer_Compare_antisym b a), (Compare_numbers_lt b a G) in Hc;
     discriminate].
  rewrite (Compare_same_numbers a b E) in Hc.
  destruct E as (E1 & E2 & E3).
  assert (Hpre : PreRelease a = PreRelease b).
  { destruct (IsPreRelease a) eqn:Pa, (IsPreRelease b) eqn:Pb.
    - rewrite (comparePreRelease_canonical a b Pa Pb Ca Cb) in Hc.
      apply compare_idents_eq in Hc; [|now apply canonical_Forall..].
      now rewrite <- (strings_Split_join (PreRelease a)),
        <- (strings_Split_join (PreRelease b)), Hc.
    - rewrite (comparePreRelease_release_r a b Pb), Pa in Hc. discriminate.
    - rewrite (comparePreRelease_release_l a b Pa), Pb in Hc. discriminate.
    - unfold IsPreRelease in Pa, Pb.
      apply negb_false_iff, Z.eqb_eq, len_zero in Pa, Pb. congruence. }
  unfold IsEquql. rewrite E1, E2, E3, Hpre, !Z.eqb_refl, String.eqb_refl.
  reflexivity.
Qed.

(** X11. On versions whose pre-release identifiers are canonical (each
    identifier that [strconv.Atoi] accepts is the text [Itoa] prints for its
    value: no ['+'] sign, no leading zero, no ["-0"]), [Compare] is
    transitive, pre-releases included. *)
Theorem Compare_transitive_on_canonical (a b c : SemVer) :
  prerelease_canonical a = true -> prerelease_canonical b = true ->
  prerelease_canonical c = true ->
  SemVer_Compare a b <= 0 -> SemVer_Compare b c <= 0 ->
  SemVer_Compare a c <= 0 /\
  (SemVer_Compare a c = 0 -> SemVer_Compare a b = 0 /\ SemVer_Compare b c = 0).
Proof. apply SemVer_Compare_trans_canonical. Qed.

Lemma Compare_transitive_on_canonical_witness :
  SemVer_Compare (mkSemVer 1 0 0 "alpha.1" "") (mkSemVer 1 0 0 "beta.2" "") <= 0 /\
  (SemVer_Compare (mkSemVer 1 0 0 "alpha.1" "") (mkSemVer 1 0 0 "beta.2" "") = 0 ->
   SemVer_Compare (mkSemVer 1 0 0 "alpha.1" "") (mkSemVer 1 0 0 "alpha.beta" "") = 0 /\
   SemVer_Compare (mkSemVer 1 0 0 "alpha.beta" "") (mkSemVer 1 0 0 "beta.2" "") = 0).
Proof.
  apply (Compare_transitive_on_canonical
           (mkSemVer 1 0 0 "alpha.1" "") (mkSemVer 1 0 0 "alpha.beta" "")
           (mkSemVer 1 0 0 "beta.2" ""));
    [reflexivity | reflexivity | reflexivity
    | vm_compute; discriminate | vm_compute; discriminate].
Defined.

(** X12. On versions whose pre-release identifiers are canonical,
    [Compare] gives 0 exactly when [IsEquql] holds. *)
Theorem Compare_zero_iff_IsEquql_on_canonical (a b : SemVer) :
  prerelease_canonical a = true -> prerelease_canonical b = true ->
  (SemVer_Compare a b = 0 <-> IsEquql a b = true).
Proof.
  intros Ca Cb. split.
  - now apply SemVer_Compare_zero_canonical.
  - apply IsEquql_Compare_zero.
Qed.

Lemma Compare_zero_iff_IsEquql_on_canonical_witness :
  SemVer_Compare (mkSemVer 1 0 0 "rc.1" "x") (mkSemVer 1 0 0 "rc.1" "y") = 0 <->
  IsEquql (mkSemVer 1 0 0 "rc.1" "x") (mkSemVer 1 0 0 "rc.1" "y") = true.
Proof.
  apply (Compare_zero_iff_IsEquql_on_canonical
           (mkSemVer 1 0 0 "rc.1" "x") (mkSemVer 1 0 0 "rc.1" "y"));
    reflexivity.
Defined.

(** ** [MustParse], [IsValid] and [Compare] on strings *)

Lemma Parse_total (s : string) : exists v err, Parse s = Some (v, err).
Proof.
  destruct (Parse_scanned s) as (p0 & p1 & p2 & p3 & p4 & _ & HP).
  rewrite HP. destruct (fitsInt p0), (fitsInt p1), (fitsInt p2); eauto.
Qed.

(** X13. [MustParse] panics exactly on the inputs [IsValid] rejects, and
    returns exactly the version that [Parse] returns without error on the
    inputs [IsValid] accepts. *)
Theorem MustParse_panics_iff_invalid (s : string) :
  (MustParse s = None <-> IsValid s = Some false) /\
  (IsValid s = Some true <-> exists v, MustParse s = Some v) /\
  (forall v, MustParse s = Some v <-> Parse s = Some (v, None)).
Proof.
  unfold MustParse, IsValid.
  destruct (Parse_total s) as (v0 & [e|] & ->); simpl.
  - split; [tauto|]. split.
    + split; [discriminate | intros (v & [=])].
    + intros v. split; discriminate.
  - split; [split; discriminate|]. split.
    + split; [eauto | reflexivity].
    + intros v. split; intros [= ->]; reflexivity.
Qed.

(** X14. [Compare] on two strings never panics.  Either both strings
    parse, and the result is [Compare] of the two versions with no error; or
    one of them is invalid, and the result is 0 with the syntax error. *)
Theorem Compare_strings_spec (v1 v2 : string) :
  (exists a b,
      Parse v1 = Some (a, None) /\ Parse v2 = Some (b, None) /\
      Compare v1 v2 = Some (SemVer_Compare a b, None)) \/
  ((IsValid v1 = Some false \/ IsValid v2 = Some false) /\
   Compare v1 v2 = Some (0, Some ErrInvalidSemVerSyntax)).
Proof.
  unfold Compare, IsValid.
  destruct (Parse_total v1) as (a & [[]|] & ->); simpl.
  - right. auto.
  - destruct (Parse_total v2) as (b & [[]|] & ->); simpl.
    + right. auto.
    + left. exists a, b. auto.
Qed.

(** X15. Exchanging the two strings of a successful [Compare] negates the
    result. *)
Theorem Compare_strings_antisym (v1 v2 : string) (r : Z) :
  Compare v1 v2 = Some (r, None) -> Compare v2 v1 = Some (- r, None).
Proof.
  unfold Compare.
  destruct (Parse_total v1) as (a & [e1|] & ->),
    (Parse_total v2) as (b & [e2|] & ->); simpl; try discriminate.
  intros [= <-]. now rewrite (SemVer_Compare_antisym a b).
Qed.

Lemma Compare_strings_antisym_witness :
  Compare "1.0.0" "1.0.0-alpha" = Some (- (-1), None).
Proof.
  apply (Compare_strings_antisym "1.0.0-alpha" "1.0.0" (-1)). reflexivity.
Defined.

(** ** What [Parse] returns *)

(** X16. [Parse] accepts every text [M.m.p], optionally followed by ['-']
    and a pre-release text and by ['+'] and a build text, where [M], [m]
    and [p] are non-empty digit texts of value at most [maxInt] (leading
    zeros allowed), the pre-release text is non-empty valid UTF-8 without
    ['+'] and the build text is non-empty valid UTF-8.  The fields are the
    three values and the two texts: the first ['-'] after the patch starts
    the pre-release, the first ['+'] starts the build metadata, and later
    hyphens, dots and plus signs are part of the texts. *)
Theorem Parse_assemble (M m p : string) (pre build : option (list Z)) :
  fitsInt M = true -> fitsInt m = true -> fitsInt p = true ->
  prerelease_ok pre = true -> build_ok build = true ->
  Parse (assemble M m p (utf8 <$> pre) (utf8 <$> build))
  = Some (mkSemVer (decimal_value M) (decimal_value m) (decimal_value p)
                   (from_option utf8 EmptyString pre)
                   (from_option utf8 EmptyString build), None).
Proof.
  intros HfM Hfm Hfp Hpre Hbuild.
  pose proof HfM as HdM. pose proof Hfm as Hdm. pose proof Hfp as Hdp.
  unfold fitsInt in HdM, Hdm, Hdp.
  apply andb_prop in HdM as [[_ HdM]%andb_prop _].
  apply andb_prop in Hdm as [[_ Hdm]%andb_prop _].
  apply andb_prop in Hdp as [[_ Hdp]%andb_prop _].
  pose proof (scannedParts_assemble M m p pre build HdM Hdm Hdp Hpre Hbuild) as Hsp.
  destruct (Parse_scanned (assemble M m p (utf8 <$> pre) (utf8 <$> build)))
    as (q0 & q1 & q2 & q3 & q4 & Hq & HP).
  rewrite Hsp in Hq. injection Hq as <- <- <- <- <-.
  rewrite HP, HfM, Hfm, Hfp. reflexivity.
Qed.

Lemma Parse_assemble_witness :
  Parse (assemble "007" "0" "10"
           (utf8 <$> Some (chars "rc-1.x")) (utf8 <$> Some (chars "b+c-d")))
  = Some (mkSemVer (decimal_value "007") (decimal_value "0") (decimal_value "10")
                   (from_option utf8 EmptyString (Some (chars "rc-1.x")))
                   (from_option utf8 EmptyString (Some (chars "b+c-d"))), None).
Proof.
  apply (Parse_assemble "007" "0" "10"
           (Some (chars "rc-1.x")) (Some (chars "b+c-d")));
    reflexivity.
Defined.

(** X17. The version that [Parse] returns together with an error is not
    the zero version in general: it keeps the major number when the major
    text was accepted, and the minor number when the major and minor texts
    were; patch, pre-release and build metadata are never set. *)
Theorem Parse_error_result (s : string) (v : SemVer) (e : error) :
  Parse s = Some (v, Some e) ->
  exists p0 p1,
    scannedParts s !! 0%nat = Some p0 /\ scannedParts s !! 1%nat = Some p1 /\
    v = mkSemVer (if fitsInt p0 then decimal_value p0 else 0)
                 (if fitsInt p0 && fitsInt p1 then decimal_value p1 else 0)
                 0 EmptyString EmptyString.
Proof.
  destruct (Parse_scanned s) as (p0 & p1 & p2 & p3 & p4 & Hparts & HP).
  rewrite HP, Hparts. intros Hv. exists p0, p1.
  split; [reflexivity|]. split; [reflexivity|].
  destruct (fitsInt p0), (fitsInt p1), (fitsInt p2); simpl;
    now injection Hv as <-.
Qed.

Lemma Parse_error_result_witness :
  exists p0 p1,
    scannedParts "1.2.x-rc+b" !! 0%nat = Some p0 /\
    scannedParts "1.2.x-rc+b" !! 1%nat = Some p1 /\
    mkSemVer 1 2 0 "" ""
    = mkSemVer (if fitsInt p0 then decimal_value p0 else 0)
               (if fitsInt p0 && fitsInt p1 then decimal_value p1 else 0)
               0 EmptyString EmptyString.
Proof.
  apply (Parse_error_result "1.2.x-rc+b" (mkSemVer 1 2 0 "" "") ErrInvalidSemVerSyntax).
  reflexivity.
Defined.

Lemma runes_from_ascii (x t : string) :
  string_forall (fun c => byte_val c <? 128) x = true ->
  runes_from (x ++ t) 0 = (chars x ++ runes_from t 0)%list.
Proof.
  unfold chars. induction x as [|c x IH]; [reflexivity|].
  cbn [string_forall String.append list_ascii_of_string map app runes_from].
  intros [Hc Hx]%andb_prop. cbn [decodeRune]. rewrite Hc.
  cbn [Nat.sub]. f_equal. exact (IH Hx).
Qed.

Lemma digits_ascii (x : string) :
  all_digits x = true -> string_forall (fun c => byte_val c <? 128) x = true.
Proof.
  unfold all_digits. induction x as [|c x IH]; [reflexivity|]. simpl.
  intros [Hc Hx]%andb_prop. rewrite (IH Hx), andb_true_r.
  unfold is_digit in Hc. apply andb_prop in Hc as [_ H57%Z.leb_le].
  apply Z.ltb_lt. lia.
Qed.

(** The texts of the fields only grow during the scan. *)
Lemma scanStep_grows (st st' : scanState) (c : Z) (i : nat) (b : string) :
  scanStep st c = Some st' -> parts st !! i = Some b ->
  exists t, parts st' !! i = Some (b ++ t).
Proof.
  unfold scanStep. intros Hstep Hb.
  repeat match type of Hstep with
  | (if ?x then _ else _) = _ => destruct x
  end;
  try (injection Hstep as <-; exists EmptyString; now rewrite append_nil_r).
  unfold WriteRune_at in Hstep.
  destruct (index (parts st) (partIndex st)) as [b0|] eqn:Hidx; [|discriminate].
  simpl in Hstep. injection Hstep as <-. simpl.
  apply index_lookup in Hidx.
  destruct (decide (Z.to_nat (partIndex st) = i)) as [<-|Hne].
  - rewrite Hb in Hidx. injection Hidx as <-.
    exists (encodeRune c). apply list_lookup_insert_eq. now apply lookup_lt_Some in Hb.
  - exists EmptyString. now rewrite list_lookup_insert_ne, append_nil_r.
Qed.

Lemma scanLoop_grows (cs : list Z) :
  forall (st st' : scanState) (i : nat) (b : string),
    scanLoop cs st = Some st' -> parts st !! i = Some b ->
    exists t, parts st' !! i = Some (b ++ t).
Proof.
  induction cs as [|c cs IH]; intros st st' i b Hloop Hb.
  - injection Hloop as <-. exists EmptyString. now rewrite append_nil_r.
  - simpl in Hloop. destruct (scanStep st c) as [st1|] eqn:Hstep; [|discriminate].
    simpl in Hloop.
    destruct (scanStep_grows _ _ _ _ _ Hstep Hb) as (t1 & H1).
    destruct (IH _ _ _ _ Hloop H1) as (t2 & H2).
    exists (t1 ++ t2). now rewrite <- append_assoc.
Qed.

(** X18. A fourth dot-separated number is rejected: after three all-digit
    texts, a further ['.'] goes into the patch text, whatever follows. *)
Theorem Parse_rejects_fourth_component (M m p rest : string) :
  all_digits M = true -> all_digits m = true -> all_digits p = true ->
  IsValid (M ++ "." ++ m ++ "." ++ p ++ "." ++ rest) = Some false.
Proof.
  intros HM Hm Hp.
  set (s := M ++ "." ++ m ++ "." ++ p ++ "." ++ rest).
  assert (Hr : runes s
          = (chars M ++ 46 :: chars m ++ 46 :: chars p ++ 46 :: runes rest)%list).
  { unfold runes, s.
    rewrite (runes_from_ascii M) by now apply digits_ascii.
    change ("." ++ m ++ "." ++ p ++ "." ++ rest)
      with (String "." (m ++ "." ++ p ++ "." ++ rest)).
    cbn [runes_from decodeRune]. change (byte_val "." <? 128) with true.
    cbn [Nat.sub]. change (byte_val ".") with 46.
    rewrite (runes_from_ascii m) by now apply digits_ascii.
    change ("." ++ p ++ "." ++ rest) with (String "." (p ++ "." ++ rest)).
    cbn [runes_from decodeRune]. change (byte_val "." <? 128) with true.
    cbn [Nat.sub]. change (byte_val ".") with 46.
    rewrite (runes_from_ascii p) by now apply digits_ascii.
    change ("." ++ rest) with (String "." rest).
    cbn [runes_from decodeRune]. change (byte_val "." <? 128) with true.
    cbn [Nat.sub]. change (byte_val ".") with 46. reflexivity. }
  destruct (Parse_scanned s) as (q0 & q1 & q2 & q3 & q4 & Hparts & HP).
  assert (Hq2 : exists t, q2 = (p ++ ".") ++ t).
  { unfold scannedParts, scan in Hparts. rewrite Hr in Hparts.
    rewrite (scanLoop_numeric M m p _ HM Hm Hp) in Hparts.
    cbn [scanLoop] in Hparts.
    change (scanStep (mkScan [M; m; p; EmptyString; EmptyString] 2 false false) 46)
      with (Some (mkScan [M; m; p ++ "."; EmptyString; EmptyString] 2 false false))
      in Hparts.
    cbn [mbind option_bind] in Hparts.
    destruct (scanLoop (runes rest) _) as [st'|] eqn:Hloop; [|discriminate].
    destruct (scanLoop_grows _ _ _ 2%nat (p ++ ".") Hloop eq_refl) as (t & Ht).
    exists t. rewrite Hparts in Ht. now injection Ht. }
  destruct Hq2 as (t & ->).
  assert (Hbad : fitsInt ((p ++ ".") ++ t) = false).
  { unfold fitsInt, all_digits. rewrite !string_forall_append.
    cbn [string_forall]. change (is_digit ".") with false.
    now rewrite !andb_false_r, andb_false_l. }
  unfold IsValid. rewrite HP, Hbad.
  destruct (fitsInt q0), (fitsInt q1); reflexivity.
Qed.

Lemma Parse_rejects_fourth_component_witness :
  IsValid ("1" ++ "." ++ "2" ++ "." ++ "3" ++ "." ++ "4-rc") = Some false.
Proof.
  apply (Parse_rejects_fourth_component "1" "2" "3" "4-rc"); reflexivity.
Defined.

(** What [WriteRune] writes for any code point is the encoding of a Unicode
    scalar value (U+FFFD when the code point is not one). *)
Lemma encodeRune_scalar (c : Z) :
  exists c', valid_rune c' = true /\ encodeRune c = encodeRune c' /\
             (c <> 43 -> c' <> 43).
Proof.
  destruct (valid_rune c) eqn:Hv; [now exists c|].
  exists RuneError. split; [reflexivity|]. split; [|discriminate].
  unfold valid_rune, surrogateMin, surrogateMax, MaxRune in Hv.
  unfold encodeRune, surrogateMin, surrogateMax, MaxRune.
  change (encode3 RuneError) with (encode3 65533).
  revert Hv. split_tests; simpl; intros; try discriminate; reflexivity.
Qed.

Lemma utf8_snoc (rs : list Z) (c : Z) :
  utf8 (rs ++ [c]) = utf8 rs ++ encodeRune c.
Proof. rewrite utf8_app. simpl. now rewrite append_nil_r. Qed.

Lemma textInv_init : textInv scanInit.
Proof. exists [], []. repeat split; try reflexivity; discriminate. Qed.

Lemma scanStep_textInv (st st' : scanState) (c : Z) :
  scanInv st -> textInv st -> scanStep st c = Some st' -> textInv st'.
Proof.
  intros Hinv (r3 & r4 & H3 & H4 & Hv3 & Hv4 & Hpf & Hb). unfold scanStep.
  destruct ((c =? 46) && (partIndex st <? 2)) eqn:Hdot.
  { apply andb_prop in Hdot as [_ Hlt%Z.ltb_lt]. intros [= <-].
    exists r3, r4. simpl. repeat split; auto. lia. }
  destruct ((c =? 45) && negb (didEnterPreReleasePart st)
            && negb (didEnterBuildMetadataPart st)) eqn:Hminus.
  { apply andb_prop in Hminus as [_ Hnb%negb_true_iff]. intros [= <-].
    exists r3, r4. simpl. repeat split; auto. }
  destruct ((c =? 43) && negb (didEnterBuildMetadataPart st)) eqn:Hplus.
  { intros [= <-]. exists r3, r4. simpl. repeat split; auto. discriminate. }
  unfold WriteRune_at.
  destruct (index (parts st) (partIndex st)) as [b|] eqn:Hidx; [|discriminate].
  simpl. intros [= <-]. simpl.
  pose proof (inv_cursor st Hinv) as Hcur.
  apply index_lookup in Hidx.
  destruct (encodeRune_scalar c) as (c' & Hc' & Henc & Hne).
  destruct (Z.eq_dec (partIndex st) 3) as [E3|N3];
    [|destruct (Z.eq_dec (partIndex st) 4) as [E4|N4]].
  - rewrite E3 in *. change (Z.to_nat 3) with 3%nat in *.
    rewrite H3 in Hidx. injection Hidx as <-.
    exists (r3 ++ [c'])%list, r4. cbn [parts partIndex didEnterPreReleasePart didEnterBuildMetadataPart].
    rewrite list_lookup_insert_eq by (now apply lookup_lt_Some in H3).
    rewrite list_lookup_insert_ne by lia.
    rewrite utf8_snoc, <- Henc. repeat split; auto.
    + rewrite forallb_app, Hv3. simpl. now rewrite Hc'.
    + unfold plus_free in *. rewrite forallb_app, Hpf. simpl.
      rewrite (Hb eq_refl) in Hplus. simpl in Hplus. rewrite andb_true_r in Hplus.
      apply Z.eqb_neq in Hplus. apply Hne in Hplus. apply Z.eqb_neq in Hplus.
      now rewrite Hplus.
  - rewrite E4 in *. change (Z.to_nat 4) with 4%nat in *.
    rewrite H4 in Hidx. injection Hidx as <-.
    exists r3, (r4 ++ [c'])%list. cbn [parts partIndex didEnterPreReleasePart didEnterBuildMetadataPart].
    rewrite list_lookup_insert_eq by (now apply lookup_lt_Some in H4).
    rewrite list_lookup_insert_ne by lia.
    rewrite utf8_snoc, <- Henc. repeat split; auto.
    rewrite forallb_app, Hv4. simpl. now rewrite Hc'.
  - exists r3, r4. cbn [parts partIndex didEnterPreReleasePart didEnterBuildMetadataPart].
    rewrite !list_lookup_insert_ne by lia. repeat split; auto.
Qed.

Lemma scanLoop_textInv (cs : list Z) :
  forall st st', scanInv st -> textInv st -> scanLoop cs st = Some st' -> textInv st'.
Proof.
  induction cs as [|c cs IH]; intros st st' Hinv Htxt Hloop.
  - now injection Hloop as <-.
  - simpl in Hloop.
    destruct (scanStep_inv st c Hinv) as (st1 & Hstep & Hinv1).
    rewrite Hstep in Hloop. simpl in Hloop.
    apply (IH st1 st' Hinv1); [|exact Hloop].
    exact (scanStep_textInv st st1 c Hinv Htxt Hstep).
Qed.

Lemma utf8_plus_free_bytes (rs : list Z) :
  plus_free rs = true ->
  string_forall (fun b => negb (b =? "+")%char) (utf8 rs) = true.
Proof.
  unfold plus_free. induction rs as [|r rs IH]; [reflexivity|]. simpl.
  intros [Hr Hrs]%andb_prop. rewrite string_forall_append, (IH Hrs), andb_true_r.
  apply negb_true_iff, Z.eqb_neq in Hr. apply encodeRune_bytes.
  - intros b Hb. rewrite ascii_eqb_byte_val. change (byte_val "+") with 43.
    apply negb_true_iff, Z.eqb_neq. lia.
  - intros Hc. rewrite ascii_eqb_byte_val, byte_val_of, Z.mod_small by lia.
    change (byte_val "+") with 43. now apply negb_true_iff, Z.eqb_neq.
Qed.

(** X19. The pre-release and build texts of a parsed version are valid
    UTF-8 (an invalid byte of the input has become U+FFFD), and the
    pre-release text contains no ['+']. *)
Theorem Parse_texts (s : string) (v : SemVer) :
  Parse s = Some (v, None) ->
  (exists r3 r4 : list Z,
      PreRelease v = utf8 r3 /\ BuildMetadata v = utf8 r4 /\
      forallb valid_rune r3 = true /\ forallb valid_rune r4 = true /\
      plus_free r3 = true) /\
  string_forall (fun b => negb (b =? "+")%char) (PreRelease v) = true.
Proof.
  intros HP.
  assert (Hex : exists r3 r4 : list Z,
      PreRelease v = utf8 r3 /\ BuildMetadata v = utf8 r4 /\
      forallb valid_rune r3 = true /\ forallb valid_rune r4 = true /\
      plus_free r3 = true).
  { destruct (scan_inv s) as (st & Hscan & Hinv).
    pose proof (scanLoop_textInv _ _ _ scanInv_init textInv_init Hscan)
      as (r3 & r4 & H3 & H4 & Hv3 & Hv4 & Hpf & _).
    destruct (Parse_scanned s) as (p0 & p1 & p2 & p3 & p4 & Hparts & HP').
    unfold scannedParts in Hparts. rewrite Hscan in Hparts.
    rewrite Hparts in H3, H4. injection H3 as ->. injection H4 as ->.
    rewrite HP' in HP.
    destruct (fitsInt p0), (fitsInt p1), (fitsInt p2); try discriminate.
    injection HP as <-. exists r3, r4. simpl. auto. }
  split; [exact Hex|].
  destruct Hex as (r3 & _ & -> & _ & _ & _ & Hpf). now apply utf8_plus_free_bytes.
Qed.

Lemma Parse_texts_witness :
  (exists r3 r4 : list Z,
      PreRelease (mkSemVer 1 2 3 "rc-1" "b+c") = utf8 r3 /\
      BuildMetadata (mkSemVer 1 2 3 "rc-1" "b+c") = utf8 r4 /\
      forallb valid_rune r3 = true /\ forallb valid_rune r4 = true /\
      plus_free r3 = true) /\
  string_forall (fun b => negb (b =? "+")%char)
                (PreRelease (mkSemVer 1 2 3 "rc-1" "b+c")) = true.
Proof.
  apply (Parse_texts "1.2.3-rc-1+b+c" (mkSemVer 1 2 3 "rc-1" "b+c")). reflexivity.
Defined.

(** ** Parsing what [String] prints *)

Lemma utoa_digit (fuel : nat) (u : Z) (acc : string) :
  0 <= u < 10 ->
  utoa (S fuel) u acc = String (byte_of (48 + u)) acc /\
  is_digit (byte_of (48 + u)) = true /\
  byte_val (byte_of (48 + u)) - 48 = u.
Proof.
  intros Hu. cbn [utoa].
  replace (u <? 10) with true by (symmetry; apply Z.ltb_lt; lia).
  split; [reflexivity|]. unfold is_digit.
  rewrite byte_val_of, Z.mod_small by lia. split; [|lia].
  apply andb_true_iff. split; apply Z.leb_le; lia.
Qed.

Lemma utoa_step (fuel : nat) (u : Z) (acc : string) :
  utoa (S fuel) u acc
  = if u <? 10 then String (byte_of (48 + u)) acc
    else utoa fuel (u / 10) (String (byte_of (48 + u mod 10)) acc).
Proof. reflexivity. Qed.

Lemma utoa_spec (fuel : nat) :
  forall (u : Z) (acc : string),
    0 <= u < 2 ^ Z.of_nat (S fuel) ->
    exists d, utoa (S fuel) u acc = d ++ acc /\
              all_digits d = true /\ decimal_value d = u /\
              d <> EmptyString /\ leading_zero d = false /\
              (0 < u -> nonzero_head d = true).
Proof.
  induction fuel as [|fuel IH]; intros u acc Hu.
  - change (2 ^ Z.of_nat 1) with 2 in Hu.
    destruct (utoa_digit 0 u acc) as (He & Hd & Hv); [lia|].
    exists (String (byte_of (48 + u)) EmptyString). rewrite He.
    split; [reflexivity|]. unfold all_digits. cbn [string_forall decimal_value].
    rewrite Hd, Hv. change (len EmptyString) with 0.
    repeat split; try reflexivity; try discriminate; [lia|].
    intros Hpos. cbn [nonzero_head]. rewrite ascii_eqb_byte_val.
    change (byte_val "0") with 48. apply negb_true_iff, Z.eqb_neq. lia.
  - destruct (Z_lt_le_dec u 10) as [Hlt|Hge].
    + destruct (utoa_digit (S fuel) u acc) as (He & Hd & Hv); [lia|].
      exists (String (byte_of (48 + u)) EmptyString). rewrite He.
      split; [reflexivity|]. unfold all_digits. cbn [string_forall decimal_value].
      rewrite Hd, Hv. change (len EmptyString) with 0.
      repeat split; try reflexivity; try discriminate; [lia|].
      intros Hpos. cbn [nonzero_head]. rewrite ascii_eqb_byte_val.
      change (byte_val "0") with 48. apply negb_true_iff, Z.eqb_neq. lia.
    + rewrite utoa_step.
      replace (u <? 10) with false by (symmetry; apply Z.ltb_ge; lia).
      assert (Hpow : 2 ^ Z.of_nat (S (S fuel)) = 2 * 2 ^ Z.of_nat (S fuel)).
      { rewrite (Nat2Z.inj_succ (S fuel)), Z.pow_succ_r by lia. reflexivity. }
      assert (Hq : 1 <= u / 10 < 2 ^ Z.of_nat (S fuel))
        by (Z.div_mod_to_equations; lia).
      destruct (IH (u / 10) (String (byte_of (48 + u mod 10)) acc))
        as (d & He & Hd & Hv & Hne & Hlz & Hnz); [lia|].
      specialize (Hnz ltac:(lia)).
      assert (Hm : 0 <= u mod 10 < 10) by (apply Z.mod_pos_bound; lia).
      destruct (utoa_digit 0 (u mod 10) EmptyString) as (_ & Hdc & Hvc); [lia|].
      exists (d ++ String (byte_of (48 + u mod 10)) EmptyString).
      rewrite He, append_assoc. split; [reflexivity|].
      unfold all_digits in *. rewrite string_forall_append, Hd.
      cbn [string_forall]. rewrite Hdc, decimal_value_snoc, Hv, Hvc.
      destruct d as [|c0 d]; [congruence|].
      cbn [nonzero_head] in Hnz. cbn [String.append nonzero_head leading_zero].
      repeat split; try reflexivity; try discriminate.
      * Z.div_mod_to_equations; lia.
      * apply negb_true_iff in Hnz. destruct (d ++ _); exact Hnz || reflexivity.
      * intros _. exact Hnz.
Qed.

Lemma Itoa_nonneg (n : Z) :
  0 <= n ->
  all_digits (Itoa n) = true /\ decimal_value (Itoa n) = n /\
  Itoa n <> EmptyString /\ leading_zero (Itoa n) = false.
Proof.
  intros Hn. unfold Itoa.
  replace (n <? 0) with false by (symmetry; apply Z.ltb_ge; lia).
  destruct (utoa_spec (Z.to_nat (Z.log2 n)) n EmptyString)
    as (d & He & Hd & Hv & Hne & Hlz & _).
  { pose proof (Z.log2_nonneg n) as Hl.
    rewrite Nat2Z.inj_succ, Z2Nat.id by lia.
    destruct (Z.eq_dec n 0) as [->|Hnz]; [simpl; lia|].
    pose proof (Z.log2_spec n ltac:(lia)). lia. }
  rewrite He, append_nil_r. auto.
Qed.

Lemma Itoa_canonical_numeral (n : Z) :
  0 <= n <= maxInt ->
  canonical_numeral (Itoa n) = true /\ decimal_value (Itoa n) = n.
Proof.
  intros Hn. destruct (Itoa_nonneg n) as (Hd & Hv & Hne & Hlz); [lia|].
  split; [|exact Hv]. unfold canonical_numeral, fitsInt.
  rewrite Hd, Hv, Hlz.
  replace (n <=? maxInt) with true by (symmetry; apply Z.leb_le; lia).
  destruct (Itoa n); [congruence | reflexivity].
Qed.

Lemma fitsInt_range (p : string) :
  fitsInt p = true -> 0 <= decimal_value p <= maxInt.
Proof.
  unfold fitsInt. intros [[_ Hd]%andb_prop Hle%Z.leb_le]%andb_prop.
  split; [now apply decimal_value_nonneg | exact Hle].
Qed.

Lemma utf8_empty_len (rs : list Z) : (len (utf8 rs) =? 0) = match rs with [] => true | _ => false end.
Proof.
  destruct rs as [|r rs]; [reflexivity|].
  simpl. destruct (encodeRune_cons r) as (c & t & ->). cbn [String.append].
  rewrite len_cons. apply Z.eqb_neq. pose proof (len_nonneg (t ++ utf8 rs)). lia.
Qed.

Lemma Parse_String_fields (M m p : Z) (r3 r4 : list Z) :
  0 <= M <= maxInt -> 0 <= m <= maxInt -> 0 <= p <= maxInt ->
  forallb valid_rune r3 = true -> plus_free r3 = true ->
  forallb valid_rune r4 = true ->
  Parse (SemVer_String (mkSemVer M m p (utf8 r3) (utf8 r4)))
  = Some (mkSemVer M m p (utf8 r3) (utf8 r4), None).
Proof.
  intros HM Hm Hp Hv3 Hpf Hv4.
  destruct (Itoa_canonical_numeral M HM) as (HcM & HvM).
  destruct (Itoa_canonical_numeral m Hm) as (Hcm & Hvm).
  destruct (Itoa_canonical_numeral p Hp) as (Hcp & Hvp).
  unfold canonical_numeral in HcM, Hcm, Hcp.
  apply andb_prop in HcM as [HfM _], Hcm as [Hfm _], Hcp as [Hfp _].
  pose proof HfM as HdM. pose proof Hfm as Hdm. pose proof Hfp as Hdp.
  unfold fitsInt in HdM, Hdm, Hdp.
  apply andb_prop in HdM as [[_ HdM]%andb_prop _].
  apply andb_prop in Hdm as [[_ Hdm]%andb_prop _].
  apply andb_prop in Hdp as [[_ Hdp]%andb_prop _].
  set (pre := match r3 with [] => None | _ => Some r3 end).
  set (build := match r4 with [] => None | _ => Some r4 end).
  assert (Hs : SemVer_String (mkSemVer M m p (utf8 r3) (utf8 r4))
               = assemble (Itoa M) (Itoa m) (Itoa p) (utf8 <$> pre) (utf8 <$> build)).
  { unfold SemVer_String, assemble.
    cbn [Major Minor Patch PreRelease BuildMetadata].
    rewrite !utf8_empty_len. unfold pre, build.
    destruct r3 as [|x3 r3], r4 as [|x4 r4];
      cbn [negb fmap option_fmap option_map];
      rewrite ?append_assoc, ?append_nil_r; reflexivity. }
  assert (Hpre : prerelease_ok pre = true).
  { unfold pre. destruct r3; [reflexivity|]. cbn [prerelease_ok plain_text].
    now rewrite Hv3, Hpf. }
  assert (Hbuild : build_ok build = true).
  { unfold build. destruct r4; [reflexivity|]. exact Hv4. }
  pose proof (scannedParts_assemble _ _ _ pre build HdM Hdm Hdp Hpre Hbuild) as Hsp.
  rewrite <- Hs in Hsp.
  destruct (Parse_scanned (SemVer_String (mkSemVer M m p (utf8 r3) (utf8 r4))))
    as (q0 & q1 & q2 & q3 & q4 & Hq & HP).
  rewrite Hsp in Hq. injection Hq as <- <- <- <- <-.
  rewrite HP, HfM, Hfm, Hfp, HvM, Hvm, Hvp. unfold pre, build.
  destruct r3, r4; reflexivity.
Qed.

(** X20. [Parse] gives back every version that [String] prints, provided
    the three numbers are in the range [0 .. maxInt], the pre-release text
    is valid UTF-8 without ['+'] and the build text is valid UTF-8. *)
Theorem Parse_String (v : SemVer) (r3 r4 : list Z) :
  0 <= Major v <= maxInt -> 0 <= Minor v <= maxInt -> 0 <= Patch v <= maxInt ->
  PreRelease v = utf8 r3 -> BuildMetadata v = utf8 r4 ->
  forallb valid_rune r3 = true -> plus_free r3 = true ->
  forallb valid_rune r4 = true ->
  Parse (SemVer_String v) = Some (v, None).
Proof.
  destruct v as [M m p pre build]. simpl. intros HM Hm Hp -> -> Hv3 Hpf Hv4.
  now apply Parse_String_fields.
Qed.

Lemma Parse_String_witness :
  Parse (SemVer_String (mkSemVer 1 2 3 "rc.1" "b+c"))
  = Some (mkSemVer 1 2 3 "rc.1" "b+c", None).
Proof.
  apply (Parse_String (mkSemVer 1 2 3 "rc.1" "b+c") (chars "rc.1") (chars "b+c"));
    try reflexivity; vm_compute; split; discriminate.
Defined.

Lemma Parse_String_parsed (s : string) (v : SemVer) :
  Parse s = Some (v, None) -> Parse (SemVer_String v) = Some (v, None).
Proof.
  intros HP.
  destruct (scan_inv s) as (st & Hscan & Hinv).
  pose proof (scanLoop_textInv _ _ _ scanInv_init textInv_init Hscan)
    as (r3 & r4 & H3 & H4 & Hv3 & Hv4 & Hpf & _).
  destruct (Parse_scanned s) as (p0 & p1 & p2 & p3 & p4 & Hparts & HP').
  unfold scannedParts in Hparts. rewrite Hscan in Hparts.
  rewrite Hparts in H3, H4. injection H3 as ->. injection H4 as ->.
  rewrite HP' in HP.
  destruct (fitsInt p0) eqn:H0, (fitsInt p1) eqn:H1, (fitsInt p2) eqn:H2;
    try discriminate.
  injection HP as <-.
  apply Parse_String_fields; auto using fitsInt_range.
Qed.

(** X21. Printing a version that [Parse] returned and parsing the text
    again gives the same version: the printed text is valid, and
    [MustParse] does not panic on it. *)
Theorem Parse_String_of_parsed (s : string) (v : SemVer) :
  Parse s = Some (v, None) ->
  Parse (SemVer_String v) = Some (v, None) /\
  IsValid (SemVer_String v) = Some true /\
  MustParse (SemVer_String v) = Some v.
Proof.
  intros HP. pose proof (Parse_String_parsed s v HP) as Hre.
  unfold IsValid, MustParse. rewrite Hre. auto.
Qed.

Lemma Parse_String_of_parsed_witness :
  Parse (SemVer_String (mkSemVer 1 2 3 "rc" "")) = Some (mkSemVer 1 2 3 "rc" "", None) /\
  IsValid (SemVer_String (mkSemVer 1 2 3 "rc" "")) = Some true /\
  MustParse (SemVer_String (mkSemVer 1 2 3 "rc" "")) = Some (mkSemVer 1 2 3 "rc" "").
Proof.
  apply (Parse_String_of_parsed "01.2.3-rc+" (mkSemVer 1 2 3 "rc" "")). reflexivity.
Defined.

(** X22. [String] is injective on the versions that [Parse] returns: two
    parsed versions with the same printed text are the same version. *)
Theorem String_injective_on_parsed (s1 s2 : string) (v w : SemVer) :
  Parse s1 = Some (v, None) -> Parse s2 = Some (w, None) ->
  SemVer_String v = SemVer_String w -> v = w.
Proof.
  intros Hv%Parse_String_parsed Hw%Parse_String_parsed Heq.
  rewrite Heq in Hv. congruence.
Qed.

Lemma String_injective_on_parsed_witness :
  mkSemVer 1 2 3 "rc" "b" = mkSemVer 1 2 3 "rc" "b".
Proof.
  apply (String_injective_on_parsed "01.2.3-rc+b" "1.02.3-rc+b"); reflexivity.
Defined.

(** ** Sorting slices of at most twelve versions *)

Lemma index_nat {A : Type} (l : list A) (k : nat) :
  index l (Z.of_nat k) = l !! k.
Proof.
  unfold index. rewrite Nat2Z.id.
  destruct (Z.ltb_spec (Z.of_nat k) (Z.of_nat (length l))) as [Hlt|Hge].
  - replace (0 <=? Z.of_nat k) with true by (symmetry; apply Z.leb_le; lia).
    reflexivity.
  - rewrite andb_false_r. symmetry. apply lookup_ge_None. lia.
Qed.

Lemma leq_total (a b : SemVer) : IsLessOrEquql a b = false -> leq b a.
Proof.
  unfold leq. rewrite !IsLessOrEquql_Compare, (SemVer_Compare_antisym a b).
  intros H%Z.leb_gt. apply Z.leb_le. lia.
Qed.

Lemma Sorted_app_l {A : Type} (R : A -> A -> Prop) (l l' : list A) :
  Sorted R (l ++ l')%list -> Sorted R l.
Proof.
  induction l as [|x l IH]; [constructor|].
  simpl. intros Hs. apply Sorted_inv in Hs as [Hs Hh].
  constructor; [now apply IH|].
  destruct l; [constructor|]. simpl in Hh. inversion Hh. now constructor.
Qed.

Lemma Sorted_snoc_snoc {A : Type} (R : A -> A -> Prop) (l : list A) (y w : A) :
  Sorted R (l ++ [y])%list -> R y w -> Sorted R (l ++ [y; w])%list.
Proof.
  induction l as [|x l IH]; simpl; intros Hs Hyw.
  - repeat constructor. exact Hyw.
  - apply Sorted_inv in Hs as [Hs Hh]. constructor; [now apply IH|].
    destruct l; simpl in *; inversion Hh; now constructor.
Qed.

Lemma Sorted_snoc_inv {A : Type} (R : A -> A -> Prop) (l : list A) (y w : A) :
  Sorted R (l ++ [y; w])%list -> R y w.
Proof.
  induction l as [|x l IH]; simpl; intros Hs.
  - apply Sorted_inv in Hs as [_ Hh]. now inversion Hh.
  - apply Sorted_inv in Hs as [Hs _]. now apply IH.
Qed.

(** The inner loop of [insertionSort] moves the element at position
    [length front] down into the sorted range before it. *)
Lemma insertionSort_inner_spec (front : list SemVer) :
  forall (x : SemVer) (post : list SemVer),
    Sorted leq front ->
    exists front',
      insertionSort_inner (front ++ x :: post)%list 0 (length front)
        = Some (front' ++ post)%list /\
      Permutation (front ++ [x])%list front' /\
      Sorted leq front' /\
      (forall w, Sorted leq (front ++ [w])%list -> leq x w ->
                 Sorted leq (front' ++ [w])%list).
Proof.
  induction front as [|y f IH] using rev_ind; intros x post Hs.
  - exists [x]. simpl. repeat split; auto; repeat constructor.
  - rewrite length_app. simpl length. rewrite Nat.add_1_r.
    cbn [insertionSort_inner]. rewrite Z.add_0_l.
    cbn [Less semverSlice_Interface]. unfold semverSlice_Less.
    replace (Z.of_nat (S (length f)) - 1) with (Z.of_nat (length f)) by lia.
    rewrite !index_nat.
    rewrite <- app_assoc. cbn [app].
    rewrite (list_lookup_middle f (x :: post) y (length f) eq_refl).
    replace ((f ++ y :: x :: post)%list !! S (length f)) with (Some x)
      by (symmetry; rewrite lookup_app_r by lia;
          replace (S (length f) - length f)%nat with 1%nat by lia; reflexivity).
    cbn [mbind option_bind].
    destruct (IsLessOrEquql x y) eqn:Hxy.
    + cbn [Swap semverSlice_Interface]. unfold semverSlice_Swap.
      replace (Z.of_nat (S (length f)) - 1) with (Z.of_nat (length f)) by lia.
      rewrite !index_nat.
      rewrite (list_lookup_middle f (x :: post) y (length f) eq_refl).
      replace ((f ++ y :: x :: post)%list !! S (length f)) with (Some x)
        by (symmetry; rewrite lookup_app_r by lia;
            replace (S (length f) - length f)%nat with 1%nat by lia; reflexivity).
      cbn [mbind option_bind]. rewrite !Nat2Z.id.
      replace (<[length f:=x]> (<[S (length f):=y]> (f ++ y :: x :: post)%list))
        with (f ++ x :: y :: post)%list.
      2:{ rewrite (insert_app_r_alt f _ (S (length f))) by lia.
          replace (S (length f) - length f)%nat with 1%nat by lia.
          rewrite (insert_app_r_alt f _ (length f)) by lia.
          rewrite Nat.sub_diag. reflexivity. }
      destruct (IH x (y :: post) (Sorted_app_l _ _ _ Hs))
        as (f' & Hrun & Hperm & Hsf' & Hext).
      exists (f' ++ [y])%list. rewrite Hrun, <- app_assoc. split; [reflexivity|].
      split; [|split].
      * rewrite <- Hperm, <- !app_assoc. apply Permutation_app_head. constructor.
      * apply Hext; assumption.
      * intros w Hw Hxw. rewrite <- app_assoc. cbn [app].
        apply Sorted_snoc_snoc; [now apply Hext|].
        rewrite <- app_assoc in Hw. now apply Sorted_snoc_inv in Hw.
    + apply leq_total in Hxy.
      exists (f ++ [y; x])%list. rewrite <- !app_assoc. split; [reflexivity|].
      split; [reflexivity|]. split.
      * now apply Sorted_snoc_snoc.
      * intros w Hw Hxw.
        replace ((f ++ [y; x]) ++ [w])%list with ((f ++ [y]) ++ [x; w])%list
          by now rewrite <- !app_assoc.
        apply Sorted_snoc_snoc; [|exact Hxw].
        rewrite <- app_assoc. now apply Sorted_snoc_snoc.
Qed.

Lemma insertionSort_outer_spec (rest : list SemVer) :
  forall front : list SemVer,
    Sorted leq front ->
    exists sorted,
      insertionSort_outer (front ++ rest)%list 0 (Z.of_nat (length front)) (length rest)
        = Some sorted /\
      Permutation (front ++ rest)%list sorted /\ Sorted leq sorted.
Proof.
  induction rest as [|x rest IH]; intros front Hs.
  - exists front. rewrite app_nil_r. auto.
  - cbn [length insertionSort_outer]. rewrite Z.sub_0_r, Nat2Z.id.
    destruct (insertionSort_inner_spec front x rest Hs)
      as (front' & Hrun & Hperm & Hsf' & _).
    rewrite Hrun. cbn [mbind option_bind].
    destruct (IH front' Hsf') as (sorted & Hrun' & Hperm' & Hss).
    assert (Hlen : length front' = S (length front)).
    { apply Permutation_length in Hperm. rewrite length_app in Hperm.
      simpl in Hperm. lia. }
    rewrite Hlen, Nat2Z.inj_succ in Hrun'.
    replace (Z.of_nat (length front) + 1) with (Z.succ (Z.of_nat (length front))) by lia.
    exists sorted. split; [exact Hrun'|]. split; [|exact Hss].
    rewrite <- Hperm', <- Hperm, <- app_assoc. reflexivity.
Qed.

Lemma sort_Sort_semverSlice
  (pdqsort_partition : semverSlice -> Z -> Z -> Z -> option semverSlice)
  (slice : list SemVer) :
  (length slice <= 12)%nat ->
  exists sorted,
    sort_Sort pdqsort_partition slice = Some sorted /\
    Permutation slice sorted /\
    Sorted (fun a b => IsLessOrEquql a b = true) sorted.
Proof.
  intros Hlen. unfold sort_Sort.
  cbn [Len semverSlice_Interface]. unfold semverSlice_Len.
  destruct slice as [|x rest].
  - exists []. repeat split; constructor.
  - destruct (Z.leb_spec (Z.of_nat (length (x :: rest))) 1) as [H1|H1].
    + destruct rest; [|simpl in H1; lia].
      exists [x]. repeat split; auto; repeat constructor.
    + unfold pdqsort, maxInsertion.
      replace (Z.of_nat (length (x :: rest)) - 0 <=? 12) with true
        by (symmetry; apply Z.leb_le; lia).
      unfold insertionSort.
      replace (Z.to_nat (Z.of_nat (length (x :: rest)) - (0 + 1)))
        with (length rest) by (simpl length; lia).
      destruct (insertionSort_outer_spec rest [x]) as (sorted & Hrun & Hp & Hs).
      { repeat constructor. }
      exists sorted. split; [exact Hrun|]. split; assumption.
Qed.

Lemma Sorted_StronglySorted_on {A : Type} (R : A -> A -> Prop) (P : A -> Prop)
  (l : list A) :
  (forall a b c, P a -> P b -> P c -> R a b -> R b c -> R a c) ->
  Forall P l -> Sorted R l -> StronglySorted R l.
Proof.
  intros Htrans. induction l as [|x l IH]; intros HP Hs; [constructor|].
  apply Forall_cons in HP as [Hx HP]. apply Sorted_inv in Hs as [Hs Hh].
  specialize (IH HP Hs). constructor; [exact IH|].
  destruct l as [|y l]; [constructor|].
  inversion Hh as [|? ? Hxy]; subst. apply StronglySorted_inv in IH as [_ Hy].
  apply Forall_cons in HP as [Hpy HP].
  apply Forall_cons. split; [exact Hxy|].
  apply Forall_forall. intros z Hz.
  rewrite Forall_forall in Hy, HP.
  exact (Htrans x y z Hx Hpy (HP z Hz) Hxy (Hy z Hz)).
Qed.

Lemma leq_trans_canonical (a b c : SemVer) :
  prerelease_canonical a = true -> prerelease_canonical b = true ->
  prerelease_canonical c = true ->
  leq a b -> leq b c -> leq a c.
Proof.
  unfold leq. rewrite !IsLessOrEquql_Compare.
  intros Ca Cb Cc Hab%Z.leb_le Hbc%Z.leb_le. apply Z.leb_le.
  exact (proj1 (SemVer_Compare_trans_canonical a b c Ca Cb Cc Hab Hbc)).
Qed.

Lemma parseVersions_cons (s : string) (l : list string) :
  parseVersions (s :: l)
  = match MustParse s with
    | Some v => match parseVersions l with
                | Some vs => Some (v :: vs)
                | None => None
                end
    | None => None
    end.
Proof.
  unfold parseVersions. simpl. destruct (MustParse s); [|reflexivity].
  simpl. now destruct (mapM MustParse l).
Qed.

(** The first loop of [SortStr] stops with the error at the first element
    that does not parse, and fills [m] otherwise. *)
Lemma SortStr_parse_spec (slice : list string) :
  forall (n k : nat) (m : semverSlice),
    (k + n = length slice)%nat -> length m = length slice ->
    SortStr_parse slice m (Z.of_nat k) n
    = match parseVersions (drop k slice) with
      | Some vs => Some (inr (take k m ++ vs)%list)
      | None => Some (inl ErrInvalidSemVerSyntax)
      end.
Proof.
  induction n as [|n IH]; intros k m Hk Hm.
  - rewrite drop_ge by lia. cbn. now rewrite app_nil_r, take_ge by lia.
  - destruct (lookup_lt_is_Some_2 slice k) as [s Hs]; [lia|].
    rewrite (drop_S _ _ _ Hs), parseVersions_cons.
    cbn [SortStr_parse]. rewrite !index_nat, Hs. cbn [mbind option_bind].
    unfold MustParse.
    destruct (Parse_total s) as (v & [[]|] & ->); cbn [mbind option_bind];
      [reflexivity|].
    destruct (lookup_lt_is_Some_2 m k) as [v0 Hv0]; [lia|].
    rewrite Hv0. cbn [mbind option_bind]. rewrite Nat2Z.id.
    replace (Z.of_nat k + 1) with (Z.of_nat (S k)) by lia.
    unfold semverSlice in *.
    rewrite (IH (S k) (<[k:=v]> m)); [|lia|rewrite length_insert; exact Hm].
    destruct (parseVersions (drop (S k) slice)) as [vs|]; [|reflexivity].
    rewrite (take_S_r _ _ v)
      by (apply list_lookup_insert_eq; now apply lookup_lt_Some in Hv0).
    rewrite take_insert_ge by lia. now rewrite <- app_assoc.
Qed.

(** The last loop of [SortStr] overwrites every slot with the rendering of
    the version at the same index. *)
Lemma SortStr_render_spec (m : semverSlice) :
  forall (n k : nat) (slice : list string),
    (k + n = length m)%nat -> length slice = length m ->
    SortStr_render m slice (Z.of_nat k) n
    = Some (take k slice ++ map SemVer_String (drop k m))%list.
Proof.
  induction n as [|n IH]; intros k slice Hk Hl.
  - rewrite drop_ge by lia. cbn. now rewrite app_nil_r, take_ge by lia.
  - destruct (lookup_lt_is_Some_2 m k) as [v Hv]; [lia|].
    destruct (lookup_lt_is_Some_2 slice k) as [s Hs]; [lia|].
    cbn [SortStr_render]. rewrite !index_nat, Hv, Hs. cbn [mbind option_bind].
    rewrite Nat2Z.id. replace (Z.of_nat k + 1) with (Z.of_nat (S k)) by lia.
    rewrite (IH (S k) (<[k:=SemVer_String v]> slice));
      [|lia|rewrite length_insert; exact Hl].
    rewrite (take_S_r _ _ (SemVer_String v))
      by (apply list_lookup_insert_eq; now apply lookup_lt_Some in Hs).
    rewrite take_insert_ge by lia.
    rewrite (drop_S _ _ _ Hv). cbn [map]. now rewrite <- app_assoc.
Qed.

Lemma parseVersions_invalid (slice : list string) :
  Exists (fun s => IsValid s = Some false) slice -> parseVersions slice = None.
Proof.
  induction 1 as [s l Hs|s l _ IH]; rewrite parseVersions_cons.
  - unfold IsValid in Hs. unfold MustParse.
    destruct (Parse_total s) as (v & [e|] & HP); rewrite HP in Hs |- *;
      [reflexivity | discriminate].
  - rewrite IH. now destruct (MustParse s).
Qed.

(** X23. When some element of the slice is invalid, [SortStr] returns the
    syntax error and leaves the slice as it was: nothing is sorted and
    nothing is rewritten, whatever the length of the slice. *)
Theorem SortStr_invalid_element
  (pdqsort_partition : semverSlice -> Z -> Z -> Z -> option semverSlice)
  (slice : list string) :
  Exists (fun s => IsValid s = Some false) slice ->
  SortStr pdqsort_partition slice = Some (slice, Some ErrInvalidSemVerSyntax).
Proof.
  intros Hex. unfold SortStr.
  rewrite (SortStr_parse_spec slice (length slice) 0)
    by (rewrite ?length_replicate; lia).
  rewrite drop_0, (parseVersions_invalid slice Hex). reflexivity.
Qed.

Lemma SortStr_invalid_element_witness :
  SortStr (fun _ _ _ _ => None) ["2.0.0"; "x"; "01.0.0"]
  = Some (["2.0.0"; "x"; "01.0.0"], Some ErrInvalidSemVerSyntax).
Proof.
  apply (SortStr_invalid_element (fun _ _ _ _ => None) ["2.0.0"; "x"; "01.0.0"]).
  constructor 2. constructor 1. reflexivity.
Defined.

(** X24. On a slice of at most twelve versions (the range [sort.Sort]
    hands to its insertion sort) [Sort] does not panic and leaves a
    permutation of the slice in which every element is [IsLessOrEquql] its
    successor; when the pre-release identifiers of all the versions are
    canonical, every element is [IsLessOrEquql] every later one. *)
Theorem Sort_sorts
  (pdqsort_partition : semverSlice -> Z -> Z -> Z -> option semverSlice)
  (slice : list SemVer) :
  (length slice <= 12)%nat ->
  exists sorted,
    Sort pdqsort_partition slice = Some sorted /\
    Permutation slice sorted /\
    Sorted (fun a b => IsLessOrEquql a b = true) sorted /\
    (Forall (fun v => prerelease_canonical v = true) slice ->
     StronglySorted (fun a b => IsLessOrEquql a b = true) sorted).
Proof.
  intros Hlen.
  destruct (sort_Sort_semverSlice pdqsort_partition slice Hlen)
    as (sorted & Hrun & Hperm & Hs).
  exists sorted. unfold Sort. repeat split; try assumption.
  intros Hcan.
  apply (Sorted_StronglySorted_on _ (fun v => prerelease_canonical v = true));
    [exact leq_trans_canonical | | exact Hs].
  rewrite Forall_forall in *. intros v Hv. apply Hcan.
  apply list_elem_of_In. apply list_elem_of_In in Hv.
  eapply Permutation_in; [symmetry; exact Hperm | exact Hv].
Qed.

Lemma Sort_sorts_witness :
  exists sorted,
    Sort (fun _ _ _ _ => None)
         [mkSemVer 2 0 0 "" ""; mkSemVer 1 0 0 "rc.1" ""; mkSemVer 1 0 0 "" ""]
    = Some sorted /\
    Permutation
      [mkSemVer 2 0 0 "" ""; mkSemVer 1 0 0 "rc.1" ""; mkSemVer 1 0 0 "" ""] sorted /\
    Sorted (fun a b => IsLessOrEquql a b = true) sorted /\
    (Forall (fun v => prerelease_canonical v = true)
            [mkSemVer 2 0 0 "" ""; mkSemVer 1 0 0 "rc.1" ""; mkSemVer 1 0 0 "" ""] ->
     StronglySorted (fun a b => IsLessOrEquql a b = true) sorted).
Proof.
  apply (Sort_sorts (fun _ _ _ _ => None)
           [mkSemVer 2 0 0 "" ""; mkSemVer 1 0 0 "rc.1" ""; mkSemVer 1 0 0 "" ""]).
  simpl. lia.
Defined.

(** When the element at position [length front] is not above any element
    before it, the inner loop of [insertionSort] carries it to the front. *)
Lemma insertionSort_inner_to_front (front : list SemVer) :
  forall (x : SemVer) (post : list SemVer),
    Forall (fun y => IsLessOrEquql x y = true) front ->
    insertionSort_inner (front ++ x :: post)%list 0 (length front)
    = Some (x :: front ++ post)%list.
Proof.
  induction front as [|y f IH] using rev_ind; intros x post Hall; [reflexivity|].
  apply Forall_app in Hall as [Hf Hy]. apply Forall_cons in Hy as [Hxy _].
  rewrite length_app. simpl length. rewrite Nat.add_1_r.
  cbn [insertionSort_inner]. rewrite Z.add_0_l.
  cbn [Less semverSlice_Interface]. unfold semverSlice_Less.
  replace (Z.of_nat (S (length f)) - 1) with (Z.of_nat (length f)) by lia.
  rewrite !index_nat.
  rewrite <- app_assoc. cbn [app].
  rewrite (list_lookup_middle f (x :: post) y (length f) eq_refl).
  replace ((f ++ y :: x :: post)%list !! S (length f)) with (Some x)
    by (symmetry; rewrite lookup_app_r by lia;
        replace (S (length f) - length f)%nat with 1%nat by lia; reflexivity).
  cbn [mbind option_bind]. rewrite Hxy.
  cbn [Swap semverSlice_Interface]. unfold semverSlice_Swap.
  replace (Z.of_nat (S (length f)) - 1) with (Z.of_nat (length f)) by lia.
  rewrite !index_nat.
  rewrite (list_lookup_middle f (x :: post) y (length f) eq_refl).
  replace ((f ++ y :: x :: post)%list !! S (length f)) with (Some x)
    by (symmetry; rewrite lookup_app_r by lia;
        replace (S (length f) - length f)%nat with 1%nat by lia; reflexivity).
  cbn [mbind option_bind]. rewrite !Nat2Z.id.
  replace (<[length f:=x]> (<[S (length f):=y]> (f ++ y :: x :: post)%list))
    with (f ++ x :: y :: post)%list.
  2:{ rewrite (insert_app_r_alt f _ (S (length f))) by lia.
      replace (S (length f) - length f)%nat with 1%nat by lia.
      rewrite (insert_app_r_alt f _ (length f)) by lia.
      rewrite Nat.sub_diag. reflexivity. }
  rewrite (IH x (y :: post) Hf). now rewrite <- app_assoc.
Qed.

Lemma insertionSort_outer_reverses (rest : list SemVer) :
  forall front : list SemVer,
    Forall (fun a => Forall (fun b => IsLessOrEquql a b = true) (front ++ rest)) rest ->
    insertionSort_outer (front ++ rest)%list 0 (Z.of_nat (length front)) (length rest)
    = Some (rev rest ++ front)%list.
Proof.
  induction rest as [|x rest IH]; intros front Hall; [now rewrite app_nil_r|].
  apply Forall_cons in Hall as [Hx Hall].
  cbn [length insertionSort_outer]. rewrite Z.sub_0_r, Nat2Z.id.
  rewrite (insertionSort_inner_to_front front x rest)
    by (apply Forall_app in Hx; tauto).
  cbn [mbind option_bind].
  replace (Z.of_nat (length front) + 1) with (Z.of_nat (length (x :: front)))
    by (cbn [length]; lia).
  change (x :: front ++ rest)%list with ((x :: front) ++ rest)%list.
  rewrite IH.
  - cbn [rev]. now rewrite <- app_assoc.
  - eapply Forall_impl; [exact Hall|]. intros a Ha. cbn beta in *.
    apply Forall_app in Ha as [Hf Hr]. apply Forall_cons in Hr as [Hax Hr].
    apply Forall_app. split; [|exact Hr]. apply Forall_cons. tauto.
Qed.

(** X25. [Sort] is not stable.  [Less] is [IsLessOrEquql], so the
    insertion sort also moves an element past the elements it is equal to:
    a slice of at most twelve versions that all compare as equal (versions
    that differ in their build metadata, say) comes back reversed. *)
Theorem Sort_reverses_equal_elements
  (pdqsort_partition : semverSlice -> Z -> Z -> Z -> option semverSlice)
  (slice : list SemVer) :
  (length slice <= 12)%nat ->
  Forall (fun a => Forall (fun b => IsLessOrEquql a b = true) slice) slice ->
  Sort pdqsort_partition slice = Some (rev slice).
Proof.
  intros Hlen Hall. unfold Sort, sort_Sort.
  cbn [Len semverSlice_Interface]. unfold semverSlice_Len.
  destruct slice as [|x rest]; [reflexivity|].
  destruct (Z.leb_spec (Z.of_nat (length (x :: rest))) 1) as [H1|H1].
  - destruct rest; [reflexivity | simpl in H1; lia].
  - unfold pdqsort, maxInsertion.
    replace (Z.of_nat (length (x :: rest)) - 0 <=? 12) with true
      by (symmetry; apply Z.leb_le; lia).
    unfold insertionSort.
    replace (Z.to_nat (Z.of_nat (length (x :: rest)) - (0 + 1)))
      with (length rest) by (simpl length; lia).
    apply Forall_cons in Hall as [_ Hall].
    exact (insertionSort_outer_reverses rest [x] Hall).
Qed.

Lemma Sort_reverses_equal_elements_witness :
  Sort (fun _ _ _ _ => None)
       [mkSemVer 1 0 0 "rc" "a"; mkSemVer 1 0 0 "rc" "b"; mkSemVer 1 0 0 "rc" "c"]
  = Some (rev [mkSemVer 1 0 0 "rc" "a"; mkSemVer 1 0 0 "rc" "b";
               mkSemVer 1 0 0 "rc" "c"]).
Proof.
  apply (Sort_reverses_equal_elements (fun _ _ _ _ => None)
           [mkSemVer 1 0 0 "rc" "a"; mkSemVer 1 0 0 "rc" "b"; mkSemVer 1 0 0 "rc" "c"]).
  - simpl. lia.
  - repeat constructor.
Defined.

Lemma parseVersions_valid (slice : list string) :
  Forall (fun s => IsValid s = Some true) slice ->
  exists vs, parseVersions slice = Some vs /\
             Forall2 (fun s v => Parse s = Some (v, None)) slice vs.
Proof.
  induction 1 as [|s l Hs _ (vs & Hvs & HF)].
  - exists []. split; [reflexivity | constructor].
  - unfold IsValid in Hs. rewrite parseVersions_cons, Hvs. unfold MustParse.
    destruct (Parse_total s) as (v & [e|] & HP); rewrite HP in Hs |- *;
      [discriminate|].
    exists (v :: vs). split; [reflexivity | now constructor].
Qed.

Lemma parseVersions_String (vs : list SemVer) :
  Forall (fun v => exists s, Parse s = Some (v, None)) vs ->
  parseVersions (map SemVer_String vs) = Some vs.
Proof.
  induction 1 as [|v l (s & Hs) _ IH]; [reflexivity|].
  cbn [map]. rewrite parseVersions_cons, IH. unfold MustParse.
  now rewrite (Parse_String_parsed s v Hs).
Qed.

(** X26. On a slice of at most twelve valid strings [SortStr] succeeds
    and overwrites the slice with the renderings of the sorted versions:
    the texts are normalised by [String], and parsing the new slice gives
    the sorted versions back. *)
Theorem SortStr_sorts
  (pdqsort_partition : semverSlice -> Z -> Z -> Z -> option semverSlice)
  (slice : list string) :
  (length slice <= 12)%nat ->
  Forall (fun s => IsValid s = Some true) slice ->
  exists vs sorted,
    parseVersions slice = Some vs /\
    Sort pdqsort_partition vs = Some sorted /\
    SortStr pdqsort_partition slice = Some (map SemVer_String sorted, None) /\
    parseVersions (map SemVer_String sorted) = Some sorted.
Proof.
  intros Hlen Hvalid.
  destruct (parseVersions_valid slice Hvalid) as (vs & Hvs & HF).
  pose proof (Forall2_length _ _ _ HF) as Hl.
  destruct (sort_Sort_semverSlice pdqsort_partition vs ltac:(lia))
    as (sorted & Hrun & Hperm & _).
  pose proof (Permutation_length Hperm) as Hl'.
  exists vs, sorted. split; [exact Hvs|]. split; [exact Hrun|]. split.
  - unfold SortStr.
    rewrite (SortStr_parse_spec slice (length slice) 0)
      by (rewrite ?length_replicate; lia).
    rewrite drop_0, Hvs, take_0. cbn [app mbind option_bind].
    rewrite Hrun. cbn [mbind option_bind].
    rewrite (SortStr_render_spec sorted (length slice) 0) by lia.
    now rewrite take_0, drop_0.
  - apply parseVersions_String. rewrite Forall_forall. intros v Hv.
    apply list_elem_of_In in Hv.
    apply (Permutation_in _ (Permutation_sym Hperm)) in Hv.
    apply list_elem_of_In in Hv.
    destruct (proj1 (list_elem_of_lookup _ _) Hv) as (i & Hi).
    destruct (Forall2_lookup_r _ _ _ _ _ HF Hi) as (s & _ & Hs).
    now exists s.
Qed.

Lemma SortStr_sorts_witness :
  exists vs sorted,
    parseVersions ["2.0.0"; "01.0.0-rc.1"; "1.0.0+b"] = Some vs /\
    Sort (fun _ _ _ _ => None) vs = Some sorted /\
    SortStr (fun _ _ _ _ => None) ["2.0.0"; "01.0.0-rc.1"; "1.0.0+b"]
    = Some (map SemVer_String sorted, None) /\
    parseVersions (map SemVer_String sorted) = Some sorted.
Proof.
  apply (SortStr_sorts (fun _ _ _ _ => None) ["2.0.0"; "01.0.0-rc.1"; "1.0.0+b"]).
  - simpl. lia.
  - repeat constructor.
Defined.
